(** * CharMorph fitting weights: a shallow embedding of [lib/fit_calc.py]

    The Python module computes sparse interpolation weights that bind an
    asset mesh to a character mesh.  This development embeds its functions
    in Gallina and proves the properties the specification states about
    them.

    Conventions of the embedding
    - Python floats and numpy float64 cells are exact rationals ([Q]);
      statements about them use [Qeq] and [Qle].
    - numpy [uint32] cells are integers in [Z], reduced modulo [2^32] where
      the source stores into a [uint32] array.
    - a numpy array is the list of its cells along the first axis: floats
      for a 1-D array, rows of three floats for an [N x 3] array.  An array
      of weights is the list of its weights, whether it is flat or the
      column [reshape(-1, 1)] makes of it; [calc_fit] is embedded for
      weights in the shape of the array it fits (flat for 1-D, a column for
      [N x 3]), the shapes its callers arrange.
    - a Python exception is a value of [exn]; fallible code returns
      [result].
    - a Python [dict] is an association list in insertion order, without
      duplicate keys: [weights_convert] reads [d.items()] in that order.
    - the list of per-row dicts mutated in place by the accumulation passes
      is an explicit store, threaded by a small state-and-error monad; when
      a pass raises, the store keeps what was written before. *)

From Stdlib Require Import ZArith QArith Qminmax Qabs Lia Lqa Bool.
From stdpp Require Import base option list gmap strings.

Local Open Scope Q_scope.

(** ** Python results *)

Inductive exn : Type :=
  | IndexError
  | ValueError
  | ZeroDivisionError
  | AttributeError
  | GeometryError. (* named by the specification: nothing in [fit_calc.py] raises it *)

Inductive result (A : Type) : Type :=
  | Ok (a : A)
  | Err (e : exn).
Arguments Ok {A} a.
Arguments Err {A} e.

Definition rbind {A B : Type} (r : result A) (k : A -> result B) : result B :=
  match r with
  | Ok a => k a
  | Err e => Err e
  end.

Definition rmap {A B : Type} (f : A -> B) (r : result A) : result B :=
  rbind r (fun a => Ok (f a)).

Notation "'do' x <- r ; k" := (rbind r (fun x => k))
  (at level 10, x pattern, r at level 100, k at level 200).

Definition from_option {A : Type} (e : exn) (o : option A) : result A :=
  match o with
  | Some a => Ok a
  | None => Err e
  end.

(** ** Python arithmetic on floats *)

(** [a < b] and [a >= b] on floats. *)
Definition Qltb (a b : Q) : bool := negb (Qle_bool b a).
Definition Qgeb (a b : Q) : bool := Qle_bool b a.

(** The builtin [max(a, b)]: the first argument stays unless the second is
    strictly greater. *)
Definition py_max (a b : Q) : Q := if Qltb a b then b else a.

(** The builtin [max(iterable)]; [ValueError] on an empty iterable. *)
Definition py_max_list (l : list Q) : result Q :=
  match l with
  | [] => Err ValueError
  | x :: xs => Ok (fold_left py_max xs x)
  end.

(** [a / b] on Python floats. *)
Definition py_div (a b : Q) : result Q :=
  if Qeq_bool b 0 then Err ZeroDivisionError else Ok (a / b).

Definition Qsum (l : list Q) : Q := foldr Qplus 0 l.

(** ** Python dicts keyed by vertex index *)

Definition wdict : Type := list (nat * Q).

Module Dict.

(** [d.get(k, default)] *)
Fixpoint get (d : wdict) (k : nat) (default : Q) : Q :=
  match d with
  | [] => default
  | (k', v) :: d' => if Nat.eqb k' k then v else get d' k default
  end.

(** [k in d] *)
Fixpoint contains (d : wdict) (k : nat) : bool :=
  match d with
  | [] => false
  | (k', _) :: d' => if Nat.eqb k' k then true else contains d' k
  end.

(** [d[k] = v]: an existing key keeps its position, a new key goes last. *)
Fixpoint setitem (d : wdict) (k : nat) (v : Q) : wdict :=
  match d with
  | [] => [(k, v)]
  | (k', v') :: d' =>
      if Nat.eqb k' k then (k, v) :: d' else (k', v') :: setitem d' k v
  end.

Definition keys (d : wdict) : list nat := map fst d.
Definition values (d : wdict) : list Q := map snd d.

(** [{k: v for k, v in items}] *)
Definition of_items (items : list (nat * Q)) : wdict :=
  fold_left (fun d kv => setitem d (fst kv) (snd kv)) items [].

End Dict.

(** ** numpy arrays *)

Definition two32 : Z := 4294967296%Z.

(** Storing an integer into a [uint32] cell. *)
Definition u32 (z : Z) : Z := (z mod two32)%Z.

(** Cells of a value array: [calc_fit] is applied both to 1-D arrays of
    floats (vertex-group weights) and to [N x 3] arrays of positions.  A
    cell is one entry along the first axis, multiplied by a scalar and
    added to other cells. *)
Class Cell (V : Type) : Type := {
  cadd : V -> V -> V;
  cscale : Q -> V -> V;
  czero : V;
  ceq : V -> V -> Prop;
  ceq_equiv :: Equivalence ceq;
  cadd_proper :: Proper (ceq ==> ceq ==> ceq) cadd;
  cscale_proper :: Proper (Qeq ==> ceq ==> ceq) cscale;
  cadd_assoc : forall x y z, ceq (cadd x (cadd y z)) (cadd (cadd x y) z);
  cadd_comm : forall x y, ceq (cadd x y) (cadd y x);
  cadd_zero : forall x, ceq (cadd x czero) x;
  cscale_add : forall w x y, ceq (cscale w (cadd x y)) (cadd (cscale w x) (cscale w y));
  cscale_mul : forall a b x, ceq (cscale a (cscale b x)) (cscale (a * b) x);
  cscale_zero : forall w, ceq (cscale w czero) czero
}.

Definition vec3 : Type := Q * Q * Q.

Definition vec3_add (a b : vec3) : vec3 :=
  let '(ax, ay, az) := a in
  let '(bx, by_, bz) := b in
  (ax + bx, ay + by_, az + bz).

Definition vec3_scale (w : Q) (a : vec3) : vec3 :=
  let '(ax, ay, az) := a in (ax * w, ay * w, az * w).

Definition vec3_eq (a b : vec3) : Prop :=
  let '(ax, ay, az) := a in
  let '(bx, by_, bz) := b in
  ax == bx /\ ay == by_ /\ az == bz.

Lemma vec3_eq_equiv : Equivalence vec3_eq.
Proof.
  split.
  - intros [[x y] z]; simpl; repeat split; reflexivity.
  - intros [[x y] z] [[x' y'] z']; simpl; intros (? & ? & ?); repeat split;
      symmetry; assumption.
  - intros [[x y] z] [[x' y'] z'] [[x'' y''] z'']; simpl;
      intros (? & ? & ?) (? & ? & ?); repeat split; etransitivity; eassumption.
Qed.

Lemma vec3_add_proper : Proper (vec3_eq ==> vec3_eq ==> vec3_eq) vec3_add.
Proof.
  intros [[x y] z] [[x' y'] z'] (Hx & Hy & Hz) [[a b] c] [[a' b'] c'] (Ha & Hb & Hc).
  simpl; rewrite Hx, Hy, Hz, Ha, Hb, Hc; repeat split; reflexivity.
Qed.

Lemma vec3_scale_proper : Proper (Qeq ==> vec3_eq ==> vec3_eq) vec3_scale.
Proof.
  intros w w' Hw [[x y] z] [[x' y'] z'] (Hx & Hy & Hz).
  simpl; rewrite Hx, Hy, Hz, Hw; repeat split; reflexivity.
Qed.

(** 1-D arrays of floats: a cell is a float. *)
#[export] Instance Q_cell : Cell Q.
Proof.
  refine {| cadd := Qplus; cscale := fun w x => x * w; czero := 0; ceq := Qeq |}.
  - intros w w' Hw x x' Hx. rewrite Hw, Hx. reflexivity.
  - intros; ring.
  - intros; ring.
  - intros; ring.
  - intros; ring.
  - intros; ring.
  - intros; ring.
Defined.

(** [N x 3] arrays of positions: a cell is a row of three floats. *)
#[export] Instance vec3_cell : Cell vec3.
Proof.
  refine {| cadd := vec3_add; cscale := vec3_scale; czero := (0, 0, 0); ceq := vec3_eq;
            ceq_equiv := vec3_eq_equiv; cadd_proper := vec3_add_proper;
            cscale_proper := vec3_scale_proper |}.
  - intros [[x y] z] [[x' y'] z'] [[x'' y''] z'']; simpl; repeat split; ring.
  - intros [[x y] z] [[x' y'] z']; simpl; repeat split; ring.
  - intros [[x y] z]; simpl; repeat split; ring.
  - intros w [[x y] z] [[x' y'] z']; simpl; repeat split; ring.
  - intros a b [[x y] z]; simpl; repeat split; ring.
  - intros w; simpl; repeat split; ring.
Defined.

(** [arr[idx]] with an index array: [IndexError] on an index that is out of
    bounds. *)
Fixpoint np_take {V : Type} (arr : list V) (idx : list Z) : result (list V) :=
  match idx with
  | [] => Ok []
  | i :: idx' =>
      do x <- from_option IndexError (arr !! Z.to_nat i);
      do xs <- np_take arr idx';
      Ok (x :: xs)
  end.

(** [a * w] for a weights array [w] of the rank of [a], with one weight per
    cell of the first axis: a flat array against a 1-D [a], a column
    ([reshape(-1, 1)]) against an [N x 3] array, which are the shapes lines
    262 and 250 give the weights.  numpy then broadcasts the first axes
    against each other: equal lengths pair up, a length of one is stretched,
    anything else is a [ValueError].  The list [w] holds the weights in
    order in both cases.  (A flat [w] against an [N x 3] array would be
    aligned with the three columns instead; that product is not this one,
    and no matrix is applied that way here.) *)
Definition np_mul {V : Type} `{Cell V} (a : list V) (w : list Q) : result (list V) :=
  if Nat.eqb (length a) (length w) then Ok (zip_with (fun x wi => cscale wi x) a w)
  else match a, w with
       | _, [w0] => Ok (map (cscale w0) a)
       | [x0], _ => Ok (map (fun wi => cscale wi x0) w)
       | _, _ => Err ValueError
       end.

Definition csum {V : Type} `{Cell V} (l : list V) : V := foldr cadd czero l.

(** [numpy.add.reduceat(a, indices)] along the first axis.  Every index must
    be below [len(a)].  Entry [i] sums [a[indices[i]:indices[i+1]]] when
    [indices[i] < indices[i+1]], is [a[indices[i]]] alone otherwise, and the
    last entry sums [a[indices[-1]:]]. *)
Fixpoint np_add_reduceat {V : Type} `{Cell V} (a : list V) (indices : list Z)
  : result (list V) :=
  match indices with
  | [] => Ok []
  | i :: rest =>
      if negb (Z.leb 0 i && Z.ltb i (Z.of_nat (length a))) then Err IndexError
      else
        let seg :=
          match rest with
          | [] => drop (Z.to_nat i) a
          | j :: _ =>
              if Z.ltb i j then take (Z.to_nat j - Z.to_nat i) (drop (Z.to_nat i) a)
              else take 1 (drop (Z.to_nat i) a)
          end in
        do r <- np_add_reduceat a rest;
        Ok (csum seg :: r)
  end.

(** [a.repeat(repeats)]: cell [i] is repeated [repeats[i]] times; a single
    repeat count is broadcast. *)
Definition np_repeat {V : Type} (a : list V) (repeats : list Z) : result (list V) :=
  if Nat.eqb (length a) (length repeats)
  then Ok (concat (zip_with (fun x c => replicate (Z.to_nat c) x) a repeats))
  else match repeats with
       | [c] => Ok (concat (map (replicate (Z.to_nat c)) a))
       | _ => Err ValueError
       end.

(** A float64 cell after a numpy division: numpy does not raise on a zero
    divisor, it leaves [inf] or [nan] in the cell. *)
Inductive cell64 : Type :=
  | Finite (q : Q)
  | NonFinite.

Definition np_true_divide (x y : Q) : cell64 :=
  if Qeq_bool y 0 then NonFinite else Finite (x / y).

(** [a /= b]: [b] must broadcast to the shape of [a]. *)
Definition np_idiv (a b : list Q) : result (list cell64) :=
  if Nat.eqb (length a) (length b) then Ok (zip_with np_true_divide a b)
  else match b with
       | [b0] => Ok (map (fun x => np_true_divide x b0) a)
       | _ => Err ValueError
       end.

(** ** Sparse weight matrices *)

(** [(positions, idx, wresult)]: row-start offsets, flattened target vertex
    indices, flattened weights.  The list of weights stands for the flat
    array [weights_convert] returns and for the column
    [_calc_weights_internal] makes of it ([reshape(-1, 1)]) alike: the cells
    are the same, in the same order. *)
Definition weight_matrix : Type := list Z * list Z * list Q.

(** [calc_fit(arr, weights)], for a matrix whose weights array has the rank
    of [arr]: flat when [arr] is 1-D, as [_transfer_weights_iter_arrays]
    reshapes it before the call (line 262), a column when [arr] is [N x 3],
    as [_calc_weights_internal] returns it (line 250). *)
Definition calc_fit {V : Type} `{Cell V} (arr : list V) (weights : weight_matrix)
  : result (list V) :=
  let '(positions, idx, wresult) := weights in
  do picked <- np_take arr idx;
  do prod <- np_mul picked wresult;
  np_add_reduceat prod positions.

(** The loop of [weights_convert], with the Python lists [idx] and [wresult]
    and the filled prefix of [positions] as accumulators. *)
Fixpoint weights_convert_loop (cut : bool) (weights : list wdict)
    (positions : list Z) (idx : list nat) (wresult : list Q)
  : result (list Z * list nat * list Q) :=
  match weights with
  | [] => Ok (positions, idx, wresult)
  | d :: rest =>
      do thresh <- (if cut
                    then do m <- py_max_list (Dict.values d); Ok (m / 32)
                    else Ok 0);
      let kept := List.filter (fun kv => Qgeb (snd kv) thresh) d in
      weights_convert_loop cut rest
        (positions ++ [u32 (Z.of_nat (length idx))])
        (idx ++ map fst kept)
        (wresult ++ map snd kept)
  end.

(** [weights_convert(weights, cut)] *)
Definition weights_convert (weights : list wdict) (cut : bool) : result weight_matrix :=
  do r <- weights_convert_loop cut weights [] [] [];
  let '(positions, idx, wresult) := r in
  Ok (positions, map (fun k => u32 (Z.of_nat k)) idx, wresult).

(** The array [cnt] of [weights_normalize]: the differences of consecutive
    offsets, then what is left of [wresult] after the last offset. *)
Definition row_counts (positions : list Z) (len_wresult : nat) : result (list Z) :=
  match last positions with
  | None => Err IndexError
  | Some p =>
      Ok (zip_with (fun a b => u32 (b - a)) positions (drop 1 positions)
          ++ [u32 (Z.of_nat len_wresult - p)])
  end.

(** [weights_normalize(positions, wresult)], returning the array it divides
    in place. *)
Definition weights_normalize (positions : list Z) (wresult : list Q)
  : result (list cell64) :=
  do cnt <- row_counts positions (length wresult);
  do sums <- np_add_reduceat wresult positions;
  do divisor <- np_repeat sums cnt;
  np_idiv wresult divisor.

(** ** Constants of the module *)

Definition dist_thresh : Q := 1 # 10.
Definition epsilon : Q := 1 # (10 ^ 30).
Definition repsilon : Q := 1 # (10 ^ 5).
(** The literal [1e-15] of [calc_weights_reverse]. *)
Definition reverse_epsilon : Q := 1 # (10 ^ 15).

(** ** Geometry *)

(** [Geometry] and its subclass [SubsetGeometry]; [subset] is [None] for the
    base class. *)
Record Geometry : Type := {
  verts : list vec3;
  faces : list (list nat);
  subset : option (list nat)
}.

(** [Geometry(verts, faces)]: the constructor stores its arguments. *)
Definition Geometry_init (verts : list vec3) (faces : list (list nat)) : result Geometry :=
  Ok {| verts := verts; faces := faces; subset := None |}.

(** [SubsetGeometry(verts, faces, subset)] *)
Definition SubsetGeometry_init (verts : list vec3) (faces : list (list nat))
    (subset : list nat) : result Geometry :=
  Ok {| verts := verts; faces := faces; subset := Some subset |}.

Definition enumerate {A : Type} (l : list A) : list (nat * A) :=
  zip (seq 0 (length l)) l.

Definition verts_cnt (g : Geometry) : nat :=
  match subset g with
  | None => length (verts g)
  | Some s => length s
  end.

(** [verts_enum()]: pairs of a vertex id and its position.  The subclass
    yields [(i, self.verts[i])] lazily, so an id of the subset that is out of
    range raises only when the iteration reaches it: such an item carries
    [None]. *)
Definition verts_enum (g : Geometry) : list (nat * option vec3) :=
  match subset g with
  | None => map (fun iv => (fst iv, Some (snd iv))) (enumerate (verts g))
  | Some s => map (fun i => (i, verts g !! i)) s
  end.

(** ** The host library [mathutils]

    [mathutils] is Blender's, not this repository's.  Its nearest-surface
    index and its barycentric interpolation are taken as an interface; a
    [BVHTree] is built from vertices and polygons, or refused (the library
    raises [ValueError]).  [distance a b] is the Euclidean distance between
    two points as the nearest-vertex index reports it. *)
Class Mathutils : Type := {
  distance : vec3 -> vec3 -> Q;
  BVHTree : Type;
  FromPolygons : list vec3 -> list (list nat) -> option BVHTree;
  (** [find_nearest(co, radius)]: [(location, index, distance)] of the
      nearest point on the surface, [None] when nothing lies in the radius. *)
  find_nearest : BVHTree -> vec3 -> Q -> option (vec3 * nat * Q);
  (** [mathutils.interpolate.poly_3d_calc(veclist, pt)] *)
  poly_3d_calc : list vec3 -> vec3 -> list Q
}.

(** A [KDTree] holds the inserted points with their indices. *)
Definition kdtree : Type := list (vec3 * nat).

(** An item of [find_n]: [(co, index, dist)]. *)
Definition kd_item : Type := vec3 * nat * Q.
Definition kd_index (p : kd_item) : nat := snd (fst p).
Definition kd_dist (p : kd_item) : Q := snd p.

Fixpoint insert_by_dist (p : kd_item) (l : list kd_item) : list kd_item :=
  match l with
  | [] => [p]
  | x :: l' =>
      if Qle_bool (kd_dist p) (kd_dist x) then p :: l else x :: insert_by_dist p l'
  end.

Definition sort_by_dist (l : list kd_item) : list kd_item :=
  foldr insert_by_dist [] l.

(** The items of a tree, with their distance to [co]. *)
Definition kd_items `{Mathutils} (kd : kdtree) (co : vec3) : list kd_item :=
  map (fun p => (fst p, snd p, distance co (fst p))) kd.

(** [kd.find_n(co, n)]: the [n] points nearest to [co], nearest first; all
    the points when the tree holds fewer than [n]. *)
Definition find_n `{Mathutils} (kd : kdtree) (co : vec3) (n : nat) : list kd_item :=
  take n (sort_by_dist (kd_items kd co)).

(** Modelled from the spec: the insertions of [utils.kdtree_from_verts_enum],
    of the missing module [utils]: every enumerated [(index, vertex)] pair
    goes into the nearest-vertex index of section 4.1.  Consuming the
    enumeration is what raises the [IndexError] of an item of [verts_enum]
    that names a missing vertex. *)
Fixpoint kdtree_insert_enum (enum : list (nat * option vec3)) : result kdtree :=
  match enum with
  | [] => Ok []
  | (i, ov) :: rest =>
      do v <- from_option IndexError ov;
      do kd <- kdtree_insert_enum rest;
      Ok ((v, i) :: kd)
  end.

(** Modelled from the spec: [utils.kdtree_from_verts_enum], of the missing
    module [utils].  It builds the nearest-vertex index of section 4.1 over
    [cnt] vertices.  Section 4.1 has the request fail with [GeometryError]
    when there is no vertex to index ("verts is empty and a spatial index is
    requested"); otherwise every enumerated pair is inserted. *)
Definition kdtree_from_verts_enum (enum : list (nat * option vec3)) (cnt : nat)
  : result kdtree :=
  if Nat.eqb cnt 0 then Err GeometryError else kdtree_insert_enum enum.

(** Modelled from the spec: [utils.kdtree_from_verts], of the missing module
    [utils]: the same index over a plain vertex array, indexed by
    position. *)
Definition kdtree_from_verts (verts : list vec3) : kdtree :=
  map (fun iv => (snd iv, fst iv)) (enumerate verts).

(** The lazy property [Geometry.kd]. *)
Definition Geometry_kd (g : Geometry) : result kdtree :=
  kdtree_from_verts_enum (verts_enum g) (verts_cnt g).

(** The lazy property [Geometry.bvh]. *)
Definition Geometry_bvh `{Mathutils} (g : Geometry) : result BVHTree :=
  from_option ValueError (FromPolygons (verts g) (faces g)).

(** ** The store of per-row dicts *)

Abbreviation store := (list wdict).

(** A computation that reads and writes the rows and may raise. *)
Definition M (A : Type) : Type := store -> store * result A.

Definition mret {A : Type} (a : A) : M A := fun s => (s, Ok a).

Definition mbind {A B : Type} (m : M A) (k : A -> M B) : M B :=
  fun s =>
    match m s with
    | (s', Ok a) => k a s'
    | (s', Err e) => (s', Err e)
    end.

Definition lift {A : Type} (r : result A) : M A := fun s => (s, r).

Notation "'let*' x := m 'in' k" := (mbind m (fun x => k))
  (at level 10, x pattern, m at level 100, k at level 200).

(** [for x in l: body(x)] *)
Fixpoint for_each {X : Type} (l : list X) (body : X -> M unit) : M unit :=
  match l with
  | [] => mret tt
  | x :: l' => let* _ := body x in for_each l' body
  end.

(** [d = weights[row]] *)
Definition row_get (row : nat) : M wdict :=
  fun s => (s, from_option IndexError (s !! row)).

(** [d = weights[row]; d[key] = f(d.get(key, 0))] *)
Definition accumulate (row key : nat) (f : Q -> result Q) : M unit :=
  fun s =>
    match s !! row with
    | None => (s, Err IndexError)
    | Some d =>
        match f (Dict.get d key 0) with
        | Err e => (s, Err e)
        | Ok v => (<[row := Dict.setitem d key v]> s, Ok tt)
        end
    end.

(** ** The weight passes *)

Section Passes.
Context `{Mathutils}.

(** The scale factor [(1 - fdist / dist_thresh) / max(fdist, eps)] of the two
    surface passes. *)
Definition surface_factor (fdist eps : Q) : result Q :=
  py_div (1 - fdist / dist_thresh) (py_max fdist eps).

(** The body of the loop of [calc_weights_direct], for the asset vertex [v]
    of index [i]. *)
Definition direct_vertex (bvh : BVHTree) (char_geom : Geometry) (iv : nat * vec3) : M unit :=
  match find_nearest bvh (snd iv) dist_thresh with
  | None => mret tt
  | Some (loc, idx, fdist) =>
      let* face := lift (from_option IndexError (faces char_geom !! idx)) in
      let* _ := row_get (fst iv) in
      let* f := lift (surface_factor fdist epsilon) in
      let* pts := lift (np_take (verts char_geom) (map Z.of_nat face)) in
      for_each (zip face (poly_3d_calc pts loc)) (fun vb =>
        accumulate (fst iv) (fst vb) (fun old => Ok (py_max old (snd vb * f))))
  end.

(** [calc_weights_direct(weights, char_geom, asset_verts)] *)
Definition calc_weights_direct (char_geom : Geometry) (asset_verts : list vec3) : M unit :=
  let* bvh := lift (Geometry_bvh char_geom) in
  for_each (enumerate asset_verts) (direct_vertex bvh char_geom).

(** What [calc_weights_reverse] may be handed as [char_geom]: a [Geometry],
    or a numpy array of vertices. *)
Inductive pyobj : Type :=
  | PyGeometry (g : Geometry)
  | PyNdarray (a : list vec3).

(** [char_geom.verts_enum()]: an array has no such attribute. *)
Definition py_verts_enum (o : pyobj) : result (list (nat * option vec3)) :=
  match o with
  | PyGeometry g => Ok (verts_enum g)
  | PyNdarray _ => Err AttributeError
  end.

(** The body of the loop of [calc_weights_reverse], for the character vertex
    [cvert] of index [i]. *)
Definition reverse_vertex (bvh : BVHTree) (asset_geom : Geometry)
    (reduce_func : Q -> Q -> Q) (ic : nat * option vec3) : M unit :=
  let* cvert := lift (from_option IndexError (snd ic)) in
  match find_nearest bvh cvert dist_thresh with
  | None => mret tt
  | Some (loc, idx, fdist) =>
      let* face := lift (from_option IndexError (faces asset_geom !! idx)) in
      let* f := lift (surface_factor fdist reverse_epsilon) in
      let* pts := lift (np_take (verts asset_geom) (map Z.of_nat face)) in
      for_each (zip face (poly_3d_calc pts loc)) (fun vb =>
        accumulate (fst vb) (fst ic) (fun old => Ok (reduce_func old (snd vb * f))))
  end.

(** [calc_weights_reverse(weights, char_geom, asset_geom, reduce_func)] *)
Definition calc_weights_reverse (char_geom : pyobj) (asset_geom : Geometry)
    (reduce_func : Q -> Q -> Q) : M unit :=
  let* bvh := lift (Geometry_bvh asset_geom) in
  let* enum := lift (py_verts_enum char_geom) in
  for_each enum (reverse_vertex bvh asset_geom reduce_func).

(** The items of the dict comprehension of [calc_weights_kd]:
    [idx: (1 - dist / maxdist) / max(dist, _epsilon)]. *)
Fixpoint kd_row_items (pdata : list kd_item) (maxdist _epsilon : Q)
  : result (list (nat * Q)) :=
  match pdata with
  | [] => Ok []
  | p :: rest =>
      do ratio <- py_div (kd_dist p) maxdist;
      do w <- py_div (1 - ratio) (py_max (kd_dist p) _epsilon);
      do items <- kd_row_items rest maxdist _epsilon;
      Ok ((kd_index p, w) :: items)
  end.

(** One row of [calc_weights_kd], for the query point [v]. *)
Definition kd_row (kd : kdtree) (v : vec3) (_epsilon : Q) (n : nat) : result wdict :=
  let pdata := find_n kd v n in
  do maxdist <- py_max_list (map kd_dist pdata);
  do items <- kd_row_items pdata maxdist _epsilon;
  Ok (Dict.of_items items).

(** [calc_weights_kd(kd, verts, _epsilon, n)] *)
Fixpoint calc_weights_kd (kd : kdtree) (verts : list vec3) (_epsilon : Q) (n : nat)
  : result (list wdict) :=
  match verts with
  | [] => Ok []
  | v :: vs =>
      do row <- kd_row kd v _epsilon n;
      do rows <- calc_weights_kd kd vs _epsilon n;
      Ok (row :: rows)
  end.

(** The inverse-square weight [1 / max(dist**2, repsilon)]. *)
Definition inverse_square (dist : Q) : result Q :=
  py_div 1 (py_max (dist * dist) repsilon).

(** The body of the outer loop of [_calc_weights_kd_reverse], for the
    character vertex [vert] of index [i]. *)
Definition kd_reverse_vertex (kd : kdtree) (iv : nat * option vec3) : M unit :=
  let* vert := lift (from_option IndexError (snd iv)) in
  for_each (find_n kd vert 4) (fun p =>
    accumulate (kd_index p) (fst iv) (fun old =>
      do c <- inverse_square (kd_dist p);
      Ok (old + c))).

End Passes.

(** ** Fit calculators *)

(** A [bpy] mesh: its identity as a Python object, its name, the custom
    property [charmorph_fit_id] when it is set, the vertices
    [charlib.get_basis] reads from it and its polygons. *)
Record Mesh : Type := {
  mesh_id : nat;
  mesh_name : string;
  charmorph_fit_id : option string;
  mesh_basis : list vec3;
  mesh_polygons : list (list nat)
}.

Record AssetFitData : Type := {
  afd_obj : Mesh;          (* [afd.obj.data] *)
  afd_geom : Geometry
}.

(** What [get_mesh] accepts: an [AssetFitData], an object (given by its mesh)
    or a mesh. *)
Inductive fit_source : Type :=
  | OfAssetFitData (afd : AssetFitData)
  | OfObject (data : Mesh)
  | OfMesh (mesh : Mesh).

Definition get_mesh (data : fit_source) : Mesh :=
  match data with
  | OfAssetFitData afd => afd_obj afd
  | OfObject m => m
  | OfMesh m => m
  end.

(** [geom_mesh(mesh)] *)
Definition geom_mesh (mesh : Mesh) : Geometry :=
  {| verts := mesh_basis mesh; faces := mesh_polygons mesh; subset := None |}.

(** A key of [geom_cache]: a string, or a mesh object (by identity). *)
Definition cache_key : Type := string + nat.

(** The state a [FitCalculator] shares with its parent: the cache, and how
    many [Geometry] objects [geom_mesh] has built so far. *)
Record session : Type := {
  geom_cache : gmap cache_key Geometry;
  geoms_built : nat
}.

Definition new_session : session := {| geom_cache := ∅; geoms_built := 0 |}.

(** Running a pass on the rows, keeping the rows only when it returns. *)
Definition run_pass (m : M unit) (weights : store) : result store :=
  match m weights with
  | (weights', Ok _) => Ok weights'
  | (_, Err e) => Err e
  end.

Module FitCalculator.

(** [FitCalculator._get_asset_geom(data)] *)
Definition _get_asset_geom (st : session) (data : fit_source) : session * Geometry :=
  let data := get_mesh data in
  let key : cache_key := inl (default (mesh_name data) (charmorph_fit_id data)) in
  match geom_cache st !! key with
  | Some result => (st, result)
  | None =>
      let result := geom_mesh data in
      ({| geom_cache := <[inr (mesh_id data) := result]> (geom_cache st);
          geoms_built := S (geoms_built st) |}, result)
  end.

(** The three passes of [_calc_weights_internal], up to the call of
    [weights_convert]; [cg] is what [self.get_char_geom(afd)] returns. *)
Definition fit_passes {H : Mathutils} (st : session) (cg : Geometry)
    (asset_verts : list vec3) (afd : option AssetFitData)
  : session * result store :=
  match (do kd <- Geometry_kd cg;
         do weights <- calc_weights_kd kd asset_verts epsilon 16;
         run_pass (calc_weights_direct cg asset_verts) weights) with
  | Err e => (st, Err e)
  | Ok weights =>
      match afd with
      | None => (st, Ok weights)
      | Some a =>
          let '(st', ag) := _get_asset_geom st (OfAssetFitData a) in
          (st', run_pass (calc_weights_reverse (PyGeometry cg) ag py_max) weights)
      end
  end.

(** The end of [_calc_weights_internal]: [weights_convert], then
    [weights_normalize] on its arrays; the normalized weights are returned
    as a column, [wresult.reshape(-1, 1)], the shape that fits an [N x 3]
    array. *)
Definition convert_normalize (weights : store)
  : result (list Z * list Z * list cell64) :=
  do m <- weights_convert weights true;
  let '(positions, idx, wresult) := m in
  do wresult <- weights_normalize positions wresult;
  Ok (positions, idx, wresult).

(** [FitCalculator._calc_weights_internal(asset_verts, afd)] *)
Definition _calc_weights_internal {H : Mathutils} (st : session) (cg : Geometry)
    (asset_verts : list vec3) (afd : option AssetFitData)
  : session * result (list Z * list Z * list cell64) :=
  let '(st', r) := fit_passes st cg asset_verts afd in
  (st', do weights <- r; convert_normalize weights).

(** [FitCalculator.get_weights(afd)] *)
Definition get_weights {H : Mathutils} (st : session) (cg : Geometry) (afd : AssetFitData)
  : session * result (list Z * list Z * list cell64) :=
  let '(st, ag) := _get_asset_geom st (OfAssetFitData afd) in
  _calc_weights_internal st cg (verts ag) (Some afd).

End FitCalculator.

Module RiggerFitCalculator.

(** [RiggerFitCalculator._calc_weights_kd_reverse(weights, asset_verts)];
    [geom] is [self.geom]. *)
Definition _calc_weights_kd_reverse {H : Mathutils} (geom : Geometry)
    (asset_verts : list vec3) : M unit :=
  let kd := kdtree_from_verts asset_verts in
  for_each (verts_enum geom) (kd_reverse_vertex kd).

(** [RiggerFitCalculator.get_weights(afd)]; [geom] is [self.geom], which the
    inherited [get_char_geom] returns as [cg]. *)
Definition get_weights {H : Mathutils} (geom : Geometry) (afd : AssetFitData)
  : result weight_matrix :=
  let cg := geom in
  let verts_ := verts (afd_geom afd) in
  do kd <- Geometry_kd cg;
  do weights <- calc_weights_kd kd verts_ repsilon 16;
  do weights <- run_pass (_calc_weights_kd_reverse geom verts_) weights;
  do weights <- run_pass (calc_weights_reverse (PyNdarray (verts cg)) (afd_geom afd) Qplus) weights;
  weights_convert weights false.

End RiggerFitCalculator.

(** ** Reading a weight matrix and comparing stores *)

(** Row [i] of the flattened array [w]: from its offset to the next row's
    offset, to the end of [w] for the last row. *)
Definition matrix_row {A : Type} (positions : list Z) (w : list A) (i : nat) : list A :=
  match positions !! i with
  | None => []
  | Some p =>
      let stop := match positions !! S i with
                  | Some q => Z.to_nat q
                  | None => length w
                  end in
      take (stop - Z.to_nat p) (drop (Z.to_nat p) w)
  end.

(** What [weights_convert] keeps of one row. *)
Definition prune (cut : bool) (d : wdict) : result wdict :=
  do thresh <- (if cut
                then do m <- py_max_list (Dict.values d); Ok (m / 32)
                else Ok 0);
  Ok (List.filter (fun kv => Qgeb (snd kv) thresh) d).

Fixpoint rmapM {A B : Type} (f : A -> result B) (l : list A) : result (list B) :=
  match l with
  | [] => Ok []
  | x :: l' =>
      do y <- f x;
      do ys <- rmapM f l';
      Ok (y :: ys)
  end.

(** The row offsets [weights_convert] stores for rows laid out one after the
    other, the first one starting at [start]. *)
Fixpoint offsets {A : Type} (start : nat) (rows : list (list A)) : list Z :=
  match rows with
  | [] => []
  | r :: rs => u32 (Z.of_nat start) :: offsets (start + length r) rs
  end.

(** [m] is the greatest element of [l]. *)
Definition is_max (m : Q) (l : list Q) : Prop :=
  In m l /\ forall v, In v l -> v <= m.

(** The entry of the row [row] for the target vertex [key], when the row has
    one. *)
Definition entry (s : store) (row key : nat) : option Q :=
  match s !! row with
  | Some d => if Dict.contains d key then Some (Dict.get d key 0) else None
  | None => None
  end.

(** What [d.get(key, 0)] reads in the row [row]. *)
Definition entry_or_zero (s : store) (row key : nat) : Q :=
  default 0 (entry s row key).

(** No entry of [s] is missing from [s'], and none has a smaller value
    there. *)
Definition store_le (s s' : store) : Prop :=
  length s = length s' /\
  forall row key v, entry s row key = Some v ->
    exists v', entry s' row key = Some v' /\ v <= v'.

(** A computation that never lowers nor removes an entry. *)
Definition grows {A : Type} (m : M A) : Prop :=
  forall s, store_le s (fst (m s)).

(** A computation that writes only at the places [P row key]: the number of
    rows stays, a row with no such place stays as it is, and so does every
    entry elsewhere. *)
Definition writes {A : Type} (P : nat -> nat -> Prop) (m : M A) : Prop :=
  forall s,
    length (fst (m s)) = length s /\
    (forall row, (forall key, ~ P row key) -> fst (m s) !! row = s !! row) /\
    (forall row key, ~ P row key -> entry (fst (m s)) row key = entry s row key).

(** Nearest first: every item is at most as far as the items after it. *)
Fixpoint nearest_first (l : list kd_item) : Prop :=
  match l with
  | [] => True
  | x :: l' => (forall y, In y l' -> kd_dist x <= kd_dist y) /\ nearest_first l'
  end.

(** [near] holds the [n] items of the tree nearest to [co] (all of them when
    the tree has fewer), nearest first. *)
Definition n_nearest `{Mathutils} (kd : kdtree) (co : vec3) (n : nat)
    (near : list kd_item) : Prop :=
  length near = Nat.min n (length kd) /\
  nearest_first near /\
  exists rest,
    near ++ rest ≡ₚ kd_items kd co /\
    forall p q, In p near -> In q rest -> kd_dist p <= kd_dist q.

(** The weight [calc_weights_kd] gives an item of [find_n]:
    [(1 - dist / maxdist) / max(dist, _epsilon)]. *)
Definition kd_weight (maxdist _epsilon : Q) (p : kd_item) : Q :=
  (1 - kd_dist p / maxdist) / py_max (kd_dist p) _epsilon.

(** No entry of the cache is stored under a string. *)
Definition no_string_keys (st : session) : Prop :=
  forall key : string, geom_cache st !! (inl key : cache_key) = None.

Definition result_eq {A : Type} (R : A -> A -> Prop) (r r' : result A) : Prop :=
  match r, r' with
  | Ok a, Ok a' => R a a'
  | Err e, Err e' => e = e'
  | _, _ => False
  end.

(** ** A scripted [mathutils] for running the passes on small scenes

    Distances are Euclidean, with a fixed-point square root (exact on the
    squares of multiples of [2^-20]).  The nearest-surface index answers from
    a table of hits, and refuses polygons that name a missing vertex; the
    barycentric weights are read from a list. *)

Definition Qsqrt_fixed (x : Q) : Q :=
  Z.sqrt (Qnum x * 4 ^ 20 / Z.pos (Qden x)) # (2 ^ 20).

Definition euclid (a b : vec3) : Q :=
  let '(ax, ay, az) := a in
  let '(bx, by_, bz) := b in
  Qsqrt_fixed ((ax - bx) * (ax - bx) + (ay - by_) * (ay - by_) + (az - bz) * (az - bz)).

Definition vec3_eqb (a b : vec3) : bool :=
  let '(ax, ay, az) := a in
  let '(bx, by_, bz) := b in
  Qeq_bool ax bx && Qeq_bool ay by_ && Qeq_bool az bz.

Definition faces_in_range (n : nat) (faces : list (list nat)) : bool :=
  forallb (forallb (fun i => Nat.ltb i n)) faces.

Definition scripted_mathutils (hits : list (vec3 * (vec3 * nat * Q))) (bary : list Q)
  : Mathutils :=
  {| distance := euclid;
     BVHTree := unit;
     FromPolygons := fun verts faces =>
       if faces_in_range (length verts) faces then Some tt else None;
     find_nearest := fun _ co radius =>
       match List.find (fun h => vec3_eqb (fst h) co) hits with
       | Some (_, (loc, idx, d)) =>
           if Qle_bool d radius then Some (loc, idx, d) else None
       | None => None
       end;
     poly_3d_calc := fun pts _ => take (length pts) bary |}.

(** ** Small scenes for running the passes *)

(** A character made of one triangle. *)
Definition triangle : Geometry :=
  {| verts := [(0, 0, 0); (1, 0, 0); (0, 1, 0)];
     faces := [[0; 1; 2]%nat];
     subset := None |}.

(** The scripted host library of the runs: the point [(1/4, 1/4, 0)] lies on
    face 0 of the triangle, with barycentric weights [1/2, 1/4, 1/4]. *)
Definition triangle_mathutils : Mathutils :=
  scripted_mathutils
    [((1 # 4, 1 # 4, 0), ((1 # 4, 1 # 4, 0), 0%nat, 0))]
    [1 # 2; 1 # 4; 1 # 4].

(** A character of one vertex lying on the triangle, to run the reverse pass
    against the triangle as the asset. *)
Definition probe : Geometry :=
  {| verts := [(1 # 4, 1 # 4, 0)]; faces := []; subset := None |}.

(** A malformed mesh: no vertex, and one polygon that names three. *)
Definition hollow_mesh : Mesh :=
  {| mesh_id := 1; mesh_name := "hollow"; charmorph_fit_id := None;
     mesh_basis := []; mesh_polygons := [[0; 1; 2]%nat] |}.

(** An asset: the triangle itself, as the mesh "shirt". *)
Definition shirt : AssetFitData :=
  {| afd_obj := {| mesh_id := 7; mesh_name := "shirt"; charmorph_fit_id := None;
                   mesh_basis := verts triangle; mesh_polygons := faces triangle |};
     afd_geom := triangle |}.

(** ** Further parts of the module: bounding box, subsets, weight transfer *)

(** [numpy.minimum] and [numpy.maximum] on floats. *)
Definition np_minimum (a b : Q) : Q := if Qle_bool a b then a else b.
Definition np_maximum (a b : Q) : Q := if Qle_bool a b then b else a.

Definition vec3_minimum (a b : vec3) : vec3 :=
  let '(ax, ay, az) := a in
  let '(bx, by_, bz) := b in
  (np_minimum ax bx, np_minimum ay by_, np_minimum az bz).

Definition vec3_maximum (a b : vec3) : vec3 :=
  let '(ax, ay, az) := a in
  let '(bx, by_, bz) := b in
  (np_maximum ax bx, np_maximum ay by_, np_maximum az bz).

(** [a.min(axis=0)] and [a.max(axis=0)] on an [N x 3] array: a reduction
    without identity, [ValueError] on an array of no rows. *)
Definition np_min_axis0 (a : list vec3) : result vec3 :=
  match a with
  | [] => Err ValueError
  | v :: vs => Ok (fold_left vec3_minimum vs v)
  end.

Definition np_max_axis0 (a : list vec3) : result vec3 :=
  match a with
  | [] => Err ValueError
  | v :: vs => Ok (fold_left vec3_maximum vs v)
  end.

(** The lazy property [Geometry.bbox]; [SubsetGeometry] inherits it, so it
    ranges over all the vertices. *)
Definition Geometry_bbox (g : Geometry) : result (vec3 * vec3) :=
  do lo <- np_min_axis0 (verts g);
  do hi <- np_max_axis0 (verts g);
  Ok (lo, hi).

Definition vec3_le (a b : vec3) : Prop :=
  let '(ax, ay, az) := a in
  let '(bx, by_, bz) := b in
  ax <= bx /\ ay <= by_ /\ az <= bz.



(** *** Stores *)

(** A row a fit can use over [n] character vertices: it is not empty, every
    key names one of the vertices and no weight is negative. *)
Definition well_formed_row (n : nat) (d : wdict) : Prop :=
  d <> [] /\ Forall (fun kv => (fst kv < n)%nat /\ 0 <= snd kv) d.

(** A computation keeps [Inv] true of the rows, whether it returns or
    raises. *)
Definition preserves {A : Type} (Inv : store -> Prop) (m : M A) : Prop :=
  forall s, Inv s -> Inv (fst (m s)).

(** *** Weight matrices from rows *)

(** The matrix whose rows are the given lists of (target, weight) pairs, its
    weights in the shape of the array it is applied to. *)
Definition matrix_of_rows (rows : list wdict) : weight_matrix :=
  (offsets 0 rows,
   map Z.of_nat (concat (map Dict.keys rows)),
   concat (map Dict.values rows)).

(** The sum, over a row, of [values[target] * weight]. *)
Definition row_dot {V : Type} `{Cell V} (arr : list V) (row : wdict) : V :=
  csum (map (fun kw => cscale (snd kw) (default czero (arr !! fst kw))) row).

(** *** Transfer of vertex groups *)

(** [a.put(ind, v)] in the default mode: an index counts from the end when
    negative, and raises [IndexError] out of [-len(a), len(a)); the values
    are repeated when they are fewer than the indices; nothing is done when
    there is no value, and an empty array takes no index at all.  The cells
    written before an exception stay. *)
Fixpoint np_put_loop (a : list Q) (ind : list Z) (i : nat) (v : list Q)
  : list Q * option exn :=
  match ind with
  | [] => (a, None)
  | k :: ind' =>
      let n := Z.of_nat (length a) in
      if (Z.ltb k (- n) || Z.leb n k)%bool then (a, Some IndexError)
      else
        let k' := if Z.ltb k 0 then (k + n)%Z else k in
        match v !! (i mod length v)%nat with
        | Some x => np_put_loop (<[Z.to_nat k' := x]> a) ind' (S i) v
        | None => (a, None)
        end
  end.

Definition np_put (a : list Q) (ind : list Z) (v : list Q) : list Q * option exn :=
  match ind, a with
  | _ :: _, [] => (a, Some IndexError)
  | _, _ =>
      match v with
      | [] => (a, None)
      | _ => np_put_loop a ind 0 v
      end
  end.

(** An item of [utils.vg_read(vg_data)]: the name of a vertex group, the
    vertices it weighs and their weights. *)
Definition vg_item : Type := string * list Z * list Q.

(** The loop of [_transfer_weights_iter_arrays] on the buffer [tmp_buf]: the
    items yielded, the exception that ended the iteration if any, and the
    buffer it leaves. *)
Fixpoint transfer_weights_iter_loop (tmp_buf : list Q) (weights : weight_matrix)
    (groups : list vg_item)
  : list (string * list Q) * option exn * list Q :=
  match groups with
  | [] => ([], None, tmp_buf)
  | (name, vg_idx, vg_weights) :: rest =>
      let filled := replicate (length tmp_buf) 0 in
      match np_put filled vg_idx vg_weights with
      | (buf, Some e) => ([], Some e, buf)
      | (buf, None) =>
          match calc_fit buf weights with
          | Err e => ([], Some e, buf)
          | Ok arr =>
              let '(items, e, buf') := transfer_weights_iter_loop buf weights rest in
              ((name, arr) :: items, e, buf')
          end
      end
  end.

(** [FitCalculator._transfer_weights_iter_arrays(weights, vg_data)].
    [tmp_buf] is [self.tmp_buf] ([None] before the first call), [uninit]
    gives what [numpy.empty] finds in memory, [nverts] is
    [len(self.geom.verts)] and [groups] is what [utils.vg_read(vg_data)]
    yields.  The weights are flattened first ([weights[2].reshape(-1)]),
    the shape that fits the 1-D buffer. *)
Definition _transfer_weights_iter_arrays (tmp_buf : option (list Q)) (uninit : nat -> Q)
    (nverts : nat) (weights : weight_matrix) (groups : list vg_item)
  : list (string * list Q) * option exn * list Q :=
  let buf := match tmp_buf with
             | None => map uninit (seq 0 nverts)
             | Some b => b
             end in
  transfer_weights_iter_loop buf weights groups.

(** [(vg_weights > cutoff).nonzero()[0]], counting positions from [i]. *)
Fixpoint nonzero_gt (cutoff : Q) (i : nat) (vg_weights : list Q) : list Z :=
  match vg_weights with
  | [] => []
  | w :: ws =>
      if Qltb cutoff w then Z.of_nat i :: nonzero_gt cutoff (S i) ws
      else nonzero_gt cutoff (S i) ws
  end.

(** The loop of [_transfer_weights_get] over the items of
    [_transfer_weights_iter_arrays]. *)
Fixpoint transfer_weights_get_loop (cutoff : Q) (items : list (string * list Q))
  : list (string * list Z * list Q) * option exn :=
  match items with
  | [] => ([], None)
  | (name, vg_weights) :: rest =>
      let idx := nonzero_gt cutoff 0 vg_weights in
      if Nat.ltb 0 (length idx) then
        match np_take vg_weights idx with
        | Err e => ([], Some e)
        | Ok picked =>
            let '(out, e) := transfer_weights_get_loop cutoff rest in
            ((name, idx, picked) :: out, e)
        end
      else transfer_weights_get_loop cutoff rest
  end.

(** [FitCalculator._transfer_weights_get(weights, vg_data, cutoff)]: what it
    yields, and the exception that ends it if any. *)
Definition _transfer_weights_get (tmp_buf : option (list Q)) (uninit : nat -> Q)
    (nverts : nat) (weights : weight_matrix) (groups : list vg_item) (cutoff : Q)
  : list (string * list Z * list Q) * option exn :=
  let '(items, e, _) := _transfer_weights_iter_arrays tmp_buf uninit nverts weights groups in
  let '(out, e') := transfer_weights_get_loop cutoff items in
  (out, match e' with Some x => Some x | None => e end).

(** Strictly increasing indices. *)
Definition increasing (l : list Z) : Prop :=
  forall i j a b, (i < j)%nat -> l !! i = Some a -> l !! j = Some b -> (a < b)%Z.

(** The default [cutoff] of [_transfer_weights_get]. *)
Definition transfer_cutoff : Q := 1 # 10000.

(** The dense array of a vertex group over [nverts] vertices: zeros, then
    the group's weights put at its vertices. *)
Definition vg_dense (nverts : nat) (vg_idx : list Z) (vg_weights : list Q)
  : list Q * option exn :=
  np_put (replicate nverts 0) vg_idx vg_weights.

(** One group of [_transfer_weights_iter_arrays], on its own. *)
Definition transfer_group (nverts : nat) (weights : weight_matrix) (g : vg_item)
  : result (string * list Q) :=
  let '(name, vg_idx, vg_weights) := g in
  match vg_dense nverts vg_idx vg_weights with
  | (_, Some e) => Err e
  | (buf, None) => do arr <- calc_fit buf weights; Ok (name, arr)
  end.

(** The results up to the first exception. *)
Fixpoint until_error {A : Type} (l : list (result A)) : list A * option exn :=
  match l with
  | [] => ([], None)
  | Ok a :: l' => let '(xs, e) := until_error l' in (a :: xs, e)
  | Err e :: _ => ([], Some e)
  end.

(** *** Asset data *)

(** [FitCalculator._get_asset_data(obj)], for the base class, whose
    [_add_asset_data] does nothing: the [AssetFitData] it returns, with the
    weights it stores in it.  [cg] is the character geometry
    [get_char_geom] returns. *)
Definition _get_asset_data {H : Mathutils} (st : session) (cg : Geometry) (obj : Mesh)
  : session * result (AssetFitData * (list Z * list Z * list cell64)) :=
  let '(st, geom) := FitCalculator._get_asset_geom st (OfObject obj) in
  let afd := {| afd_obj := obj; afd_geom := geom |} in
  let '(st, weights) := FitCalculator.get_weights st cg afd in
  (st, do weights <- weights; Ok (afd, weights)).

(** * Facts *)

(** ** Floats *)

Lemma Qltb_spec (a b : Q) : Qltb a b = true <-> a < b.
Proof.
  unfold Qltb. rewrite negb_true_iff. split.
  - intros Hb. apply Qnot_le_lt. intros Hle.
    apply Qle_bool_iff in Hle. congruence.
  - intros Hlt. destruct (Qle_bool b a) eqn:E; [|reflexivity].
    apply Qle_bool_iff in E. lra.
Qed.

Lemma Qgeb_spec (a b : Q) : Qgeb a b = true <-> b <= a.
Proof. unfold Qgeb. apply Qle_bool_iff. Qed.

Lemma py_max_cases (a b : Q) :
  (py_max a b = a /\ b <= a) \/ (py_max a b = b /\ a < b).
Proof.
  unfold py_max. destruct (Qltb a b) eqn:E.
  - right. split; [reflexivity|]. now apply Qltb_spec.
  - left. split; [reflexivity|].
    destruct (Qlt_le_dec a b) as [Hlt|Hle]; [|exact Hle].
    apply Qltb_spec in Hlt. congruence.
Qed.

Lemma py_max_ge_l (a b : Q) : a <= py_max a b.
Proof. destruct (py_max_cases a b) as [[-> ?]|[-> ?]]; lra. Qed.

Lemma py_max_ge_r (a b : Q) : b <= py_max a b.
Proof. destruct (py_max_cases a b) as [[-> ?]|[-> ?]]; lra. Qed.

Lemma py_max_Qmax (a b : Q) : py_max a b == Qmax a b.
Proof.
  destruct (py_max_cases a b) as [[-> ?]|[-> ?]].
  - symmetry. now apply Q.max_l.
  - symmetry. apply Q.max_r. lra.
Qed.

Lemma fold_py_max_spec (l : list Q) (x : Q) :
  let m := fold_left py_max l x in
  (m = x \/ In m l) /\ x <= m /\ forall v, In v l -> v <= m.
Proof.
  revert x. induction l as [|y l IH]; intros x; simpl.
  - split; [now left|]. split; [lra|]. intros v [].
  - destruct (IH (py_max x y)) as (Hin & Hge & Hall).
    split; [|split].
    + destruct Hin as [Heq|Hin]; [|now right; right].
      rewrite Heq. destruct (py_max_cases x y) as [[-> ?]|[-> ?]]; auto.
    + pose proof (py_max_ge_l x y). lra.
    + intros v [<-|Hv]; [|now apply Hall].
      pose proof (py_max_ge_r x y). lra.
Qed.

Lemma py_max_list_is_max (l : list Q) (m : Q) :
  py_max_list l = Ok m -> is_max m l.
Proof.
  destruct l as [|x l]; simpl; [discriminate|].
  intros [= <-]. destruct (fold_py_max_spec l x) as (Hin & Hge & Hall).
  split.
  - destruct Hin as [->|Hin]; [now left|now right].
  - intros v [<-|Hv]; [exact Hge|now apply Hall].
Qed.

Lemma py_max_list_nonempty (l : list Q) :
  l <> [] -> exists m, py_max_list l = Ok m.
Proof. destruct l; [congruence|]. intros _. eexists. reflexivity. Qed.

Lemma py_div_ok (a b : Q) : ~ b == 0 -> py_div a b = Ok (a / b).
Proof.
  intros Hb. unfold py_div. destruct (Qeq_bool b 0) eqn:E; [|reflexivity].
  apply Qeq_bool_iff in E. contradiction.
Qed.

Lemma py_div_zero (a b : Q) : b == 0 -> py_div a b = Err ZeroDivisionError.
Proof.
  intros Hb. unfold py_div. apply Qeq_bool_iff in Hb. now rewrite Hb.
Qed.

(** ** [weights_convert] *)

Lemma length_offsets {A : Type} (rows : list (list A)) (start : nat) :
  length (offsets start rows) = length rows.
Proof. revert start. induction rows; intros; simpl; auto. Qed.

Lemma weights_convert_loop_spec (cut : bool) (ws : list wdict)
    (pos : list Z) (idx : list nat) (w : list Q) :
  weights_convert_loop cut ws pos idx w =
  do rows <- rmapM (prune cut) ws;
  Ok (pos ++ offsets (length idx) rows,
      idx ++ concat (map Dict.keys rows),
      w ++ concat (map Dict.values rows)).
Proof.
  revert pos idx w. induction ws as [|d ws IH]; intros pos idx w; simpl.
  - now rewrite !app_nil_r.
  - unfold prune at 1.
    destruct (if cut then _ else _) as [thresh|e]; simpl; [|reflexivity].
    rewrite IH. destruct (rmapM (prune cut) ws) as [rows|e]; simpl; [|reflexivity].
    rewrite <- !app_assoc, length_app, length_map. reflexivity.
Qed.

Lemma weights_convert_spec (ws : list wdict) (cut : bool) :
  weights_convert ws cut =
  do rows <- rmapM (prune cut) ws;
  Ok (offsets 0 rows,
      map (fun k => u32 (Z.of_nat k)) (concat (map Dict.keys rows)),
      concat (map Dict.values rows)).
Proof.
  unfold weights_convert. rewrite weights_convert_loop_spec.
  destruct (rmapM (prune cut) ws); reflexivity.
Qed.

Lemma rmapM_Forall2 {A B : Type} (f : A -> result B) (l : list A) (l' : list B) :
  rmapM f l = Ok l' <-> Forall2 (fun x y => f x = Ok y) l l'.
Proof.
  revert l'. induction l as [|x l IH]; intros l'; simpl.
  - split; [intros [= <-]; constructor|intros HF; inversion HF; reflexivity].
  - split.
    + destruct (f x) as [y|] eqn:Ef; simpl; [|discriminate].
      destruct (rmapM f l) as [ys|] eqn:Em; simpl; [|discriminate].
      intros [= <-]. constructor; [exact Ef|]. now apply IH.
    + intros HF. inversion HF as [|? y ? ys Hy Hys]; subst.
      rewrite Hy. simpl. apply IH in Hys. rewrite Hys. reflexivity.
Qed.

Lemma rmapM_total {A B : Type} (f : A -> result B) (l : list A) :
  Forall (fun x => exists y, f x = Ok y) l -> exists l', rmapM f l = Ok l'.
Proof.
  induction 1 as [|x l [y Hy] _ [l' Hl']]; simpl.
  - now exists [].
  - exists (y :: l'). now rewrite Hy, Hl'.
Qed.

Lemma prune_cut_spec (d row : wdict) :
  prune true d = Ok row ->
  exists m, py_max_list (Dict.values d) = Ok m /\
            row = List.filter (fun kv => Qgeb (snd kv) (m / 32)) d.
Proof.
  unfold prune. destruct (py_max_list (Dict.values d)) as [m|]; simpl; [|discriminate].
  intros [= <-]. now exists m.
Qed.

Lemma in_values_entry (d : wdict) (v : Q) :
  In v (Dict.values d) -> exists k, In (k, v) d.
Proof.
  unfold Dict.values. rewrite in_map_iff. intros ([k v'] & <- & Hin). now exists k.
Qed.

Lemma entry_in_values (d : wdict) (k : nat) (v : Q) :
  In (k, v) d -> In v (Dict.values d).
Proof. intros Hin. unfold Dict.values. apply in_map_iff. now exists (k, v). Qed.

(** The pruned row, entry by entry. *)
Lemma kept_entries (d : wdict) (m : Q) (kv : nat * Q) :
  In kv (List.filter (fun kv => Qgeb (snd kv) (m / 32)) d) <->
  In kv d /\ m / 32 <= snd kv.
Proof. rewrite List.filter_In, Qgeb_spec. reflexivity. Qed.

(** C2 (as amended): with [cut=True], [weights_convert] lays out, row after
    row and in the order of each dict, exactly the entries whose weight is at
    least a thirty-second of the row's maximum; no entry below that bound is
    kept, and when the maximum of a nonempty row is not negative the entry
    that carries it is kept, so the row stays nonempty. *)
Theorem weights_convert_cut_keeps (weights : list wdict) :
  Forall (fun d => d <> []) weights ->
  exists rows,
    weights_convert weights true =
      Ok (offsets 0 rows,
          map (fun k => u32 (Z.of_nat k)) (concat (map Dict.keys rows)),
          concat (map Dict.values rows))
    /\ Forall2 (fun d row =>
         exists m,
           is_max m (Dict.values d)
           /\ (forall kv, In kv row <-> In kv d /\ m / 32 <= snd kv)
           /\ (forall kv, In kv row -> ~ snd kv < m / 32)
           /\ (0 <= m -> exists k, In (k, m) row)
           /\ exists keep, row = List.filter keep d) weights rows.
Proof.
  intros Hne.
  assert (Htot : exists rows, rmapM (prune true) weights = Ok rows).
  { apply rmapM_total. eapply Forall_impl; [exact Hne|].
    intros d Hd. unfold prune.
    destruct (py_max_list_nonempty (Dict.values d)) as [m ->].
    - destruct d; [congruence|discriminate].
    - eexists. reflexivity. }
  destruct Htot as [rows Hrows]. exists rows. split.
  - rewrite weights_convert_spec, Hrows. reflexivity.
  - apply rmapM_Forall2 in Hrows.
    eapply Forall2_impl; [exact Hrows|].
    intros d row Hp. apply prune_cut_spec in Hp as (m & Hm & ->).
    apply py_max_list_is_max in Hm. exists m.
    split; [exact Hm|]. split; [apply kept_entries|].
    split; [|split].
    + intros kv Hin. apply kept_entries in Hin as [_ Hge]. lra.
    + intros Hpos. destruct Hm as [Hin _].
      apply in_values_entry in Hin as [k Hk]. exists k.
      apply kept_entries. split; [exact Hk|]. simpl.
      apply Qle_shift_div_r; lra.
    + eexists. reflexivity.
Qed.

(** A run of C2's theorem: one row with a strong and a weak entry. *)
Lemma weights_convert_cut_keeps_witness :
  exists rows,
    weights_convert [[(0%nat, 1); (3%nat, 1 # 64); (2%nat, 1 # 32)]] true =
      Ok (offsets 0 rows,
          map (fun k => u32 (Z.of_nat k)) (concat (map Dict.keys rows)),
          concat (map Dict.values rows)).
Proof.
  destruct (weights_convert_cut_keeps [[(0%nat, 1); (3%nat, 1 # 64); (2%nat, 1 # 32)]])
    as (rows & Hrows & _).
  - repeat constructor. discriminate.
  - exists rows. exact Hrows.
Defined.

(** C2 as first stated fails on a row whose weights are all negative: the
    bound [max / 32] then lies above the maximum itself, and the row loses
    every entry. *)
Lemma weights_convert_cut_drops_negative_row :
  Forall (fun d : wdict => d <> []) [[(0%nat, -1)]] /\
  weights_convert [[(0%nat, -1)]] true = Ok ([0%Z], [], []).
Proof. split; [repeat constructor; discriminate|reflexivity]. Qed.

(** ** Offsets and rows *)

Lemma u32_small (n : nat) : (Z.of_nat n < two32)%Z -> u32 (Z.of_nat n) = Z.of_nat n.
Proof. intros Hn. unfold u32. apply Z.mod_small. lia. Qed.

Lemma matrix_row_cons {A : Type} (p : Z) (ps : list Z) (w : list A) (i : nat) :
  matrix_row (p :: ps) w (S i) = matrix_row ps w i.
Proof. reflexivity. Qed.

(** Reading row [i] back from the offsets of rows laid out after [pre]. *)
Lemma matrix_row_offsets {A B : Type} (rows : list (list A)) (rows2 : list (list B))
    (pre : list B) (i : nat) (r2 : list B) :
  Forall2 (fun r r' => length r = length r') rows rows2 ->
  rows2 !! i = Some r2 ->
  (Z.of_nat (length pre + length (concat rows)) < two32)%Z ->
  matrix_row (offsets (length pre) rows) (pre ++ concat rows2) i = r2.
Proof.
  intros HF. revert pre i. induction HF as [|r r' rows rows2 Hlen HF IH];
    intros pre i Hi Hb; [discriminate|].
  simpl in Hb. rewrite length_app in Hb.
  destruct i as [|i]; simpl in Hi.
  - injection Hi as <-. simpl offsets. unfold matrix_row. simpl lookup.
    rewrite u32_small by lia. rewrite Nat2Z.id.
    assert (Hstop : match offsets (length pre + length r) rows !! 0%nat with
                    | Some q => Z.to_nat q
                    | None => length (pre ++ concat (r' :: rows2))
                    end = (length pre + length r')%nat).
    { destruct HF as [|r0 r0' rows0 rows0' Hlen0 HF0]; simpl.
      - rewrite length_app, length_app. simpl. lia.
      - rewrite u32_small by lia. rewrite Nat2Z.id. lia. }
    rewrite Hstop. simpl concat.
    rewrite drop_app_length.
    replace (length pre + length r' - length pre)%nat with (length r') by lia.
    apply take_app_length.
  - simpl offsets. rewrite matrix_row_cons. simpl concat.
    rewrite app_assoc.
    replace (length pre + length r)%nat with (length (pre ++ r')).
    + apply IH; [exact Hi|]. rewrite length_app. lia.
    + rewrite length_app. lia.
Qed.

(** [numpy.add.reduceat] over nonempty rows laid out one after the other, at
    their offsets, sums each row. *)
Lemma np_add_reduceat_rows {V : Type} `{Cell V} (rows : list (list V)) (pre : list V) :
  Forall (fun r => r <> []) rows ->
  (Z.of_nat (length pre + length (concat rows)) < two32)%Z ->
  np_add_reduceat (pre ++ concat rows) (offsets (length pre) rows) = Ok (map csum rows).
Proof.
  intros HF. revert pre. induction HF as [|r rows Hr HF IH]; intros pre Hb;
    [reflexivity|].
  simpl in Hb. rewrite length_app in Hb.
  simpl offsets. simpl concat. cbn [np_add_reduceat].
  rewrite u32_small by lia.
  assert (Hlenr : (0 < length r)%nat) by (destruct r; [congruence|simpl; lia]).
  assert (Hin : negb ((0 <=? Z.of_nat (length pre))%Z &&
     (Z.of_nat (length pre) <? Z.of_nat (length (pre ++ r ++ concat rows)))%Z) = false).
  { apply negb_false_iff, andb_true_iff. split.
    - apply Z.leb_le. lia.
    - apply Z.ltb_lt. rewrite !length_app. lia. }
  rewrite Hin. rewrite Nat2Z.id.
  assert (Hseg : match offsets (length pre + length r) rows with
     | [] => drop (length pre) (pre ++ r ++ concat rows)
     | j :: _ =>
         if (Z.of_nat (length pre) <? j)%Z
         then take (Z.to_nat j - length pre) (drop (length pre) (pre ++ r ++ concat rows))
         else take 1 (drop (length pre) (pre ++ r ++ concat rows))
     end = r).
  { rewrite drop_app_length. destruct rows as [|r0 rows0]; simpl.
    - apply app_nil_r.
    - simpl in Hb. rewrite length_app in Hb.
      rewrite u32_small by lia.
      assert (Hlt : (Z.of_nat (length pre) <? Z.of_nat (length pre + length r))%Z = true)
        by (apply Z.ltb_lt; lia).
      rewrite Hlt, Nat2Z.id.
      replace (length pre + length r - length pre)%nat with (length r) by lia.
      apply take_app_length. }
  rewrite Hseg.
  rewrite app_assoc.
  replace (length pre + length r)%nat with (length (pre ++ r)) by (rewrite length_app; lia).
  rewrite IH by (rewrite length_app; lia).
  reflexivity.
Qed.

Lemma row_counts_one (p : Z) (n : nat) :
  row_counts [p] n = Ok [u32 (Z.of_nat n - p)].
Proof. reflexivity. Qed.

Lemma row_counts_cons (p q : Z) (ps : list Z) (n : nat) :
  row_counts (p :: q :: ps) n =
  do cnt <- row_counts (q :: ps) n; Ok (u32 (q - p) :: cnt).
Proof.
  unfold row_counts. change (last (p :: q :: ps)) with (last (q :: ps)).
  destruct (last (q :: ps)); reflexivity.
Qed.

Lemma row_counts_offsets {A : Type} (rows : list (list A)) (start : nat) :
  rows <> [] ->
  (Z.of_nat (start + length (concat rows)) < two32)%Z ->
  row_counts (offsets start rows) (start + length (concat rows)) =
    Ok (map (fun r => Z.of_nat (length r)) rows).
Proof.
  revert start. induction rows as [|r rows IH]; intros start Hne Hb; [congruence|].
  simpl in Hb. rewrite length_app in Hb.
  destruct rows as [|r0 rows0].
  - simpl offsets. rewrite row_counts_one. simpl. rewrite length_app. simpl.
    rewrite u32_small by lia.
    f_equal. f_equal. unfold u32. rewrite Z.mod_small; lia.
  - assert (Hne' : r0 :: rows0 <> []) by discriminate.
    specialize (IH (start + length r)%nat Hne').
    simpl offsets in *. rewrite row_counts_cons.
    simpl concat in *. rewrite !length_app in *.
    replace (start + (length r + (length r0 + length (concat rows0))))%nat
      with (start + length r + (length r0 + length (concat rows0)))%nat by lia.
    rewrite IH by lia. simpl.
    rewrite !u32_small by lia.
    f_equal. f_equal. unfold u32. rewrite Z.mod_small; lia.
Qed.

(** ** [weights_normalize] *)

Lemma np_repeat_rows {A B : Type} (f : list A -> B) (rows : list (list A)) :
  np_repeat (map f rows) (map (fun r => Z.of_nat (length r)) rows) =
    Ok (concat (map (fun r => replicate (length r) (f r)) rows)).
Proof.
  unfold np_repeat. rewrite !length_map, Nat.eqb_refl. f_equal. f_equal.
  induction rows as [|r rows IH]; simpl; [reflexivity|].
  rewrite Nat2Z.id. f_equal. exact IH.
Qed.

Lemma zip_with_replicate_r {A B C : Type} (f : A -> B -> C) (l : list A) (y : B) :
  zip_with f l (replicate (length l) y) = map (fun x => f x y) l.
Proof. induction l; simpl; [reflexivity|]. now f_equal. Qed.

Lemma np_idiv_rows (rows : list (list Q)) :
  np_idiv (concat rows) (concat (map (fun r => replicate (length r) (Qsum r)) rows)) =
    Ok (concat (map (fun r => map (fun x => np_true_divide x (Qsum r)) r) rows)).
Proof.
  unfold np_idiv.
  assert (Hlen : length (concat rows) =
                 length (concat (map (fun r => replicate (length r) (Qsum r)) rows))).
  { induction rows as [|r rows IH]; simpl; [reflexivity|].
    rewrite !length_app, length_replicate. now f_equal. }
  rewrite Hlen, Nat.eqb_refl. f_equal.
  clear Hlen. induction rows as [|r rows IH]; simpl; [reflexivity|].
  rewrite zip_with_app by (now rewrite length_replicate).
  rewrite zip_with_replicate_r. now f_equal.
Qed.

Lemma Qsum_scale (l : list Q) (s : Q) :
  Qsum (map (fun x => x / s) l) == Qsum l / s.
Proof.
  induction l as [|x l IH]; unfold Qsum in *; simpl.
  - unfold Qdiv. ring.
  - rewrite IH. unfold Qdiv. ring.
Qed.

Lemma Qsum_nonpos (l : list Q) : (forall v, In v l -> v <= 0) -> Qsum l <= 0.
Proof.
  induction l as [|x l IH]; unfold Qsum in *; simpl; intros Hall; [lra|].
  pose proof (Hall x (or_introl eq_refl)).
  assert (foldr Qplus 0 l <= 0) by (apply IH; intros; apply Hall; now right).
  lra.
Qed.

Lemma Qsum_pos (l : list Q) : l <> [] -> (forall v, In v l -> 0 < v) -> 0 < Qsum l.
Proof.
  induction l as [|x l IH]; unfold Qsum in *; simpl; intros Hne Hall; [congruence|].
  pose proof (Hall x (or_introl eq_refl)).
  destruct l as [|y l]; [simpl; lra|].
  assert (0 < foldr Qplus 0 (y :: l)).
  { apply IH; [discriminate|]. intros; apply Hall; now right. }
  lra.
Qed.

Lemma Qsum_normalized (r : list Q) : 0 < Qsum r -> Qsum (map (fun x => x / Qsum r) r) == 1.
Proof. intros Hpos. rewrite Qsum_scale. field. lra. Qed.

(** A row with a positive sum keeps, after pruning, a nonempty part whose
    sum is positive: it holds its maximum, which is positive, and only
    positive entries beside it. *)
Lemma prune_positive (d row : wdict) :
  0 < Qsum (Dict.values d) ->
  prune true d = Ok row ->
  Dict.values row <> [] /\ 0 < Qsum (Dict.values row).
Proof.
  intros Hpos Hp. apply prune_cut_spec in Hp as (m & Hm & ->).
  apply py_max_list_is_max in Hm. destruct Hm as [Hin Hmax].
  assert (Hm : 0 < m).
  { destruct (Qlt_le_dec 0 m) as [?|Hle]; [assumption|].
    assert (Qsum (Dict.values d) <= 0); [|lra].
    apply Qsum_nonpos. intros v Hv. specialize (Hmax v Hv). lra. }
  assert (Hall : forall v, In v (Dict.values (List.filter (fun kv => Qgeb (snd kv) (m / 32)) d))
                      -> 0 < v).
  { intros v Hv. apply in_values_entry in Hv as [k Hk].
    apply kept_entries in Hk as [_ Hge]. simpl in Hge.
    assert (0 < m / 32) by (apply Qlt_shift_div_l; lra). lra. }
  assert (Hne : Dict.values (List.filter (fun kv => Qgeb (snd kv) (m / 32)) d) <> []).
  { apply in_values_entry in Hin as [k Hk].
    assert (Hkept : In (k, m) (List.filter (fun kv => Qgeb (snd kv) (m / 32)) d)).
    { apply kept_entries. split; [exact Hk|]. simpl. apply Qle_shift_div_r; lra. }
    apply entry_in_values in Hkept. intros E. rewrite E in Hkept. destruct Hkept. }
  split; [exact Hne|]. now apply Qsum_pos.
Qed.

Lemma prune_length (cut : bool) (d row : wdict) :
  prune cut d = Ok row -> (length row <= length d)%nat.
Proof.
  unfold prune. destruct (if cut then _ else _); simpl; [|discriminate].
  intros [= <-]. apply List.filter_length_le.
Qed.

Lemma pruned_total_length (cut : bool) (ws rows : list wdict) :
  Forall2 (fun d row => prune cut d = Ok row) ws rows ->
  (length (concat (map Dict.values rows)) <= length (concat ws))%nat.
Proof.
  induction 1 as [|d row ws rows Hp _ IH]; simpl; [lia|].
  rewrite !length_app. apply prune_length in Hp.
  unfold Dict.values at 1. rewrite length_map. lia.
Qed.

Lemma weights_normalize_rows (rows : list (list Q)) :
  rows <> [] ->
  Forall (fun r => r <> []) rows ->
  (Z.of_nat (length (concat rows)) < two32)%Z ->
  weights_normalize (offsets 0 rows) (concat rows) =
    Ok (concat (map (fun r => map (fun x => np_true_divide x (Qsum r)) r) rows)).
Proof.
  intros Hne HF Hb. unfold weights_normalize.
  pose proof (row_counts_offsets rows 0 Hne Hb) as Hcnt. simpl in Hcnt.
  rewrite Hcnt. simpl rbind.
  pose proof (np_add_reduceat_rows rows [] HF Hb) as Hred. simpl in Hred.
  rewrite Hred. simpl rbind.
  change (map csum rows) with (map Qsum rows).
  rewrite np_repeat_rows. simpl rbind. apply np_idiv_rows.
Qed.

Lemma np_true_divide_finite (x s : Q) : 0 < s -> np_true_divide x s = Finite (x / s).
Proof.
  intros Hs. unfold np_true_divide. destruct (Qeq_bool s 0) eqn:E; [|reflexivity].
  apply Qeq_bool_iff in E. lra.
Qed.

Lemma normalized_cells_finite (rows : list (list Q)) :
  Forall (fun r => 0 < Qsum r) rows ->
  concat (map (fun r => map (fun x => np_true_divide x (Qsum r)) r) rows) =
  map Finite (concat (map (fun r => map (fun x => x / Qsum r) r) rows)).
Proof.
  induction 1 as [|r rows Hr _ IH]; simpl; [reflexivity|].
  rewrite map_app, IH. f_equal.
  rewrite map_map. apply map_ext. intros x. now apply np_true_divide_finite.
Qed.

(** [FitCalculator.convert_normalize] on nonempty rows whose kept part has a
    positive sum. *)
Lemma convert_normalize_spec (weights : store) :
  weights <> [] ->
  Forall (fun d => d <> [] /\
                   forall row, prune true d = Ok row -> 0 < Qsum (Dict.values row)) weights ->
  (Z.of_nat (length (concat weights)) < two32)%Z ->
  exists rows : list (list Q),
    length rows = length weights /\
    Forall (fun r => r <> [] /\ 0 < Qsum r) rows /\
    (Z.of_nat (length (concat rows)) < two32)%Z /\
    exists idx,
      FitCalculator.convert_normalize weights =
        Ok (offsets 0 rows, idx,
            map Finite (concat (map (fun r => map (fun x => x / Qsum r) r) rows))).
Proof.
  intros Hne HF Hb.
  destruct (rmapM_total (prune true) weights) as [prows Hprows].
  { eapply Forall_impl; [exact HF|]. intros d [Hd _]. unfold prune.
    destruct (py_max_list_nonempty (Dict.values d)) as [m ->].
    - destruct d; [congruence|discriminate].
    - eexists. reflexivity. }
  pose proof Hprows as HF2. apply rmapM_Forall2 in HF2.
  exists (map Dict.values prows).
  assert (Hrows : Forall (fun r => r <> [] /\ 0 < Qsum r) (map Dict.values prows)).
  { apply Forall_map. clear Hprows Hb Hne.
    induction HF2 as [|d row ws rows Hp _ IH]; [constructor|].
    inversion HF as [|? ? [_ Hpos] HF']; subst.
    constructor; [|now apply IH]. simpl.
    specialize (Hpos row Hp). split; [|exact Hpos].
    intros E. rewrite E in Hpos. unfold Qsum in Hpos. simpl in Hpos. lra. }
  assert (Hb' : (Z.of_nat (length (concat (map Dict.values prows))) < two32)%Z).
  { pose proof (pruned_total_length true weights prows HF2). lia. }
  split; [rewrite length_map; symmetry; eapply Forall2_length; exact HF2|].
  split; [exact Hrows|]. split; [exact Hb'|].
  eexists. unfold FitCalculator.convert_normalize.
  rewrite weights_convert_spec, Hprows. simpl rbind.
  assert (Hoff : offsets 0 prows = offsets 0 (map Dict.values prows)).
  { generalize 0%nat. clear. induction prows as [|r rows IH]; intros n; simpl; [reflexivity|].
    unfold Dict.values. rewrite length_map. f_equal. apply IH. }
  rewrite Hoff.
  rewrite weights_normalize_rows.
  - simpl rbind. rewrite normalized_cells_finite; [reflexivity|].
    eapply Forall_impl; [exact Hrows|]. now intros r [_ ?].
  - destruct weights; [congruence|]. inversion HF2; subst. discriminate.
  - eapply Forall_impl; [exact Hrows|]. now intros r [? _].
  - exact Hb'.
Qed.

(** ** [calc_fit] *)

Section CalcFit.
Context {V : Type} `{Cell V}.

Local Abbreviation cells_eq := (Forall2 (@ceq V _)).

Lemma csum_proper (l l' : list V) : cells_eq l l' -> ceq (csum l) (csum l').
Proof.
  induction 1 as [|x y l l' Hxy _ IH]; simpl; [reflexivity|].
  unfold csum in *. simpl. now rewrite Hxy, IH.
Qed.

Lemma csum_scale (k : Q) (l : list V) :
  ceq (csum (map (cscale k) l)) (cscale k (csum l)).
Proof.
  induction l as [|x l IH]; unfold csum in *; simpl.
  - symmetry. apply cscale_zero.
  - rewrite IH. symmetry. apply cscale_add.
Qed.

Lemma csum_add (l l' : list V) :
  length l = length l' ->
  ceq (csum (zip_with cadd l l')) (cadd (csum l) (csum l')).
Proof.
  revert l'. induction l as [|x l IH]; intros [|y l'] Hlen; try discriminate;
    unfold csum in *; simpl.
  - symmetry. apply cadd_zero.
  - injection Hlen as Hlen. rewrite (IH l' Hlen).
    set (a := foldr cadd czero l). set (b := foldr cadd czero l').
    rewrite <- !cadd_assoc. apply cadd_proper; [reflexivity|].
    rewrite !cadd_assoc. apply cadd_proper; [|reflexivity]. apply cadd_comm.
Qed.

Lemma np_take_length (arr : list V) (idx : list Z) (a : list V) :
  np_take arr idx = Ok a -> length a = length idx.
Proof.
  revert a. induction idx as [|i idx IH]; intros a; simpl.
  - now intros [= <-].
  - destruct (arr !! Z.to_nat i); simpl; [|discriminate].
    destruct (np_take arr idx) as [xs|]; simpl; [|discriminate].
    intros [= <-]. simpl. f_equal. now apply IH.
Qed.

Lemma np_take_map (f : V -> V) (arr : list V) (idx : list Z) :
  np_take (map f arr) idx = rmap (map f) (np_take arr idx).
Proof.
  induction idx as [|i idx IH]; simpl; [reflexivity|].
  rewrite list_lookup_fmap. destruct (arr !! Z.to_nat i); simpl; [|reflexivity].
  rewrite IH. destruct (np_take arr idx); reflexivity.
Qed.

(** Picking cells from two arrays of one length, and from their sum. *)
Lemma np_take_zip (X Y : list V) (idx : list Z) :
  length X = length Y ->
  (exists a b, np_take X idx = Ok a /\ np_take Y idx = Ok b /\
               np_take (zip_with cadd X Y) idx = Ok (zip_with cadd a b)) \/
  (np_take X idx = Err IndexError /\ np_take Y idx = Err IndexError /\
   np_take (zip_with cadd X Y) idx = Err IndexError).
Proof.
  intros Hlen. induction idx as [|i idx IH]; simpl.
  - left. exists [], []. auto.
  - rewrite lookup_zip_with.
    destruct (X !! Z.to_nat i) as [x|] eqn:Ex.
    + destruct (Y !! Z.to_nat i) as [y|] eqn:Ey.
      * simpl. destruct IH as [(a & b & -> & -> & ->)|(-> & -> & ->)]; simpl.
        -- left. exists (x :: a), (y :: b). auto.
        -- right. auto.
      * apply lookup_lt_Some in Ex. apply lookup_ge_None in Ey. lia.
    + destruct (Y !! Z.to_nat i) as [y|] eqn:Ey.
      * apply lookup_lt_Some in Ey. apply lookup_ge_None in Ex. lia.
      * simpl. right. auto.
Qed.

Lemma np_mul_scale (k : Q) (a : list V) (w : list Q) :
  result_eq cells_eq (np_mul (map (cscale k) a) w) (rmap (map (cscale k)) (np_mul a w)).
Proof.
  unfold np_mul. rewrite length_map.
  assert (Hcomm : forall wi x, ceq (cscale wi (cscale k x)) (cscale k (cscale wi x))).
  { intros wi x. rewrite !cscale_mul. apply cscale_proper; [ring|reflexivity]. }
  assert (Hmap : forall wi l,
             cells_eq (map (cscale wi) (map (cscale k) l)) (map (cscale k) (map (cscale wi) l))).
  { intros wi l. induction l; simpl; constructor; [apply Hcomm|assumption]. }
  assert (Hmap' : forall x l,
             cells_eq (map (fun wi => cscale wi (cscale k x)) l)
                      (map (cscale k) (map (fun wi => cscale wi x) l))).
  { intros x l. induction l; simpl; constructor; [apply Hcomm|assumption]. }
  destruct (Nat.eqb (length a) (length w)).
  - unfold rmap, rbind, result_eq. clear -Hcomm. revert w.
    induction a as [|x a IH]; intros [|wi w]; simpl;
      constructor; [apply Hcomm|apply IH].
  - destruct w as [|w0 [|w1 w]].
    + destruct a as [|x0 [|x1 a]]; unfold rmap, rbind, result_eq; simpl;
        [reflexivity|constructor|reflexivity].
    + destruct a as [|x0 [|x1 a]]; unfold rmap, rbind, result_eq;
        [apply (Hmap w0 [])|apply (Hmap w0 [x0])|apply (Hmap w0 (x0 :: x1 :: a))].
    + destruct a as [|x0 [|x1 a]]; unfold rmap, rbind, result_eq;
        [reflexivity| |reflexivity].
      apply (Hmap' x0 (w0 :: w1 :: w)).
Qed.

(** Multiplying two arrays of one length, and their sum, by the weights. *)
Lemma np_mul_zip (a b : list V) (w : list Q) :
  length a = length b ->
  (exists x y z, np_mul a w = Ok x /\ np_mul b w = Ok y /\ length x = length y /\
                 np_mul (zip_with cadd a b) w = Ok z /\
                 cells_eq z (zip_with cadd x y)) \/
  (np_mul a w = Err ValueError /\ np_mul b w = Err ValueError /\
   np_mul (zip_with cadd a b) w = Err ValueError).
Proof.
  intros Hlen. unfold np_mul. rewrite length_zip_with, <- Hlen, Nat.min_id.
  destruct (Nat.eqb (length a) (length w)) eqn:E.
  - left. do 3 eexists. split; [reflexivity|]. split; [reflexivity|].
    apply Nat.eqb_eq in E.
    split; [rewrite !length_zip_with; lia|]. split; [reflexivity|].
    clear E. revert b w Hlen. induction a as [|x a IH]; intros [|y b] w Hlen;
      try discriminate; simpl; [constructor|].
    destruct w as [|wi w]; simpl; constructor; [apply cscale_add|].
    apply IH. now injection Hlen.
  - assert (Hone : forall (x0 y0 : V) (l : list Q),
              cells_eq (map (fun wi => cscale wi (cadd x0 y0)) l)
                       (zip_with cadd (map (fun wi => cscale wi x0) l)
                                      (map (fun wi => cscale wi y0) l))).
    { intros x0 y0 l. induction l; simpl; constructor; [apply cscale_add|assumption]. }
    assert (Hall : forall (w0 : Q) (l l' : list V), length l = length l' ->
              cells_eq (map (cscale w0) (zip_with cadd l l'))
                       (zip_with cadd (map (cscale w0) l) (map (cscale w0) l'))).
    { intros w0 l. induction l as [|x l IH]; intros [|y l'] Hl; try discriminate;
        simpl; constructor; [apply cscale_add|]. apply IH. now injection Hl. }
    destruct w as [|w0 [|w1 w]].
    + destruct a as [|x0 [|x1 a]]; destruct b as [|y0 [|y1 b]]; try discriminate; simpl.
      * left. exists [], [], []. repeat split; constructor.
      * right. auto.
    + left. exists (map (cscale w0) a), (map (cscale w0) b),
        (map (cscale w0) (zip_with cadd a b)).
      split; [destruct a as [|? [|? ?]]; reflexivity|].
      split; [destruct b as [|? [|? ?]]; reflexivity|].
      split; [rewrite !length_map; exact Hlen|].
      split; [destruct a as [|? [|? ?]]; destruct b as [|? [|? ?]];
              try discriminate; reflexivity|].
      now apply Hall.
    + destruct a as [|x0 [|x1 a]]; destruct b as [|y0 [|y1 b]]; try discriminate; simpl.
      * right. auto.
      * left. do 3 eexists. split; [reflexivity|]. split; [reflexivity|].
        split; [simpl; rewrite !length_map; reflexivity|]. split; [reflexivity|].
        apply (Hone x0 y0 (w0 :: w1 :: w)).
      * right. auto.
Qed.

Lemma np_add_reduceat_proper (a a' : list V) (indices : list Z) :
  cells_eq a a' ->
  result_eq cells_eq (np_add_reduceat a indices) (np_add_reduceat a' indices).
Proof.
  intros Ha. pose proof (Forall2_length _ _ _ Ha) as Hlen.
  induction indices as [|i rest IH]; simpl; [constructor|].
  rewrite <- Hlen.
  destruct (negb _); simpl; [reflexivity|].
  destruct (np_add_reduceat a rest) as [r|e], (np_add_reduceat a' rest) as [r'|e'];
    simpl in *; try contradiction; [|exact IH].
  constructor; [|exact IH].
  apply csum_proper.
  destruct rest as [|j rest']; [now apply Forall2_drop|].
  destruct (Z.ltb i j); now apply Forall2_take, Forall2_drop.
Qed.

Lemma np_add_reduceat_scale (k : Q) (a : list V) (indices : list Z) :
  result_eq cells_eq (np_add_reduceat (map (cscale k) a) indices)
            (rmap (map (cscale k)) (np_add_reduceat a indices)).
Proof.
  induction indices as [|i rest IH]; simpl; [constructor|].
  rewrite length_map.
  destruct (negb _); simpl; [reflexivity|].
  destruct (np_add_reduceat (map (cscale k) a) rest) as [r|e],
           (np_add_reduceat a rest) as [r'|e'];
    simpl in *; try contradiction; [|exact IH].
  constructor; [|exact IH].
  destruct rest as [|j rest'].
  - rewrite <- fmap_drop. apply csum_scale.
  - destruct (Z.ltb i j); rewrite <- fmap_drop, <- fmap_take; apply csum_scale.
Qed.

Lemma np_add_reduceat_zip (a b : list V) (indices : list Z) :
  length a = length b ->
  result_eq cells_eq (np_add_reduceat (zip_with cadd a b) indices)
    (do x <- np_add_reduceat a indices;
     do y <- np_add_reduceat b indices;
     Ok (zip_with cadd x y)).
Proof.
  intros Hlen. induction indices as [|i rest IH]; simpl; [constructor|].
  rewrite length_zip_with, <- Hlen, Nat.min_id.
  destruct (negb _); simpl; [reflexivity|].
  destruct (np_add_reduceat (zip_with cadd a b) rest) as [r|e],
           (np_add_reduceat a rest) as [x|ex],
           (np_add_reduceat b rest) as [y|ey]; cbn [rbind result_eq zip_with] in *;
    try contradiction; try exact IH.
  constructor; [|exact IH].
  destruct rest as [|j rest'].
  - rewrite zip_with_drop. apply csum_add. rewrite !length_drop. lia.
  - destruct (Z.ltb i j); rewrite zip_with_drop, zip_with_take;
      apply csum_add; rewrite !length_take, !length_drop; lia.
Qed.

Lemma result_eq_trans (r1 r2 r3 : result (list V)) :
  result_eq cells_eq r1 r2 -> result_eq cells_eq r2 r3 -> result_eq cells_eq r1 r3.
Proof.
  destruct r1, r2, r3; simpl; try contradiction; try congruence.
  intros H12 H23. etransitivity; eassumption.
Qed.

(** C9: [calc_fit] is linear in the value array.  Scaling every cell of [X]
    by [k] scales every cell of the result by [k], and the fit of the sum of
    two arrays of one shape is the sum of their fits; when a fit raises, the
    other side raises the same exception. *)
Theorem calc_fit_linear (W : weight_matrix) (X Y : list V) (k : Q) :
  length X = length Y ->
  result_eq cells_eq (calc_fit (map (cscale k) X) W)
                     (rmap (map (cscale k)) (calc_fit X W)) /\
  result_eq cells_eq (calc_fit (zip_with cadd X Y) W)
                     (do fx <- calc_fit X W;
                      do fy <- calc_fit Y W;
                      Ok (zip_with cadd fx fy)).
Proof.
  intros Hlen. destruct W as [[positions idx] wresult]. unfold calc_fit. split.
  - rewrite np_take_map. destruct (np_take X idx) as [a|e]; simpl; [|reflexivity].
    pose proof (np_mul_scale k a wresult) as Hmul.
    destruct (np_mul (map (cscale k) a) wresult) as [p'|e'],
             (np_mul a wresult) as [p|e]; simpl in *; try contradiction;
      [|congruence].
    eapply result_eq_trans; [apply np_add_reduceat_proper; exact Hmul|].
    apply np_add_reduceat_scale.
  - destruct (np_take_zip X Y idx Hlen) as [(a & b & Ha & Hb & ->)|(-> & -> & ->)];
      simpl; [|reflexivity].
    rewrite Ha, Hb. simpl.
    assert (Hab : length a = length b).
    { apply np_take_length in Ha, Hb. congruence. }
    destruct (np_mul_zip a b wresult Hab)
      as [(x & y & z & -> & -> & Hxy & -> & Hz)|(-> & -> & ->)]; simpl;
      [|reflexivity].
    eapply result_eq_trans; [apply np_add_reduceat_proper; exact Hz|].
    now apply np_add_reduceat_zip.
Qed.

End CalcFit.

(** A run of C9's theorem on positions: two arrays of three vertices. *)
Lemma calc_fit_linear_witness :
  let W : weight_matrix := ([0; 2]%Z, [0; 1; 2]%Z, [1 # 2; 1 # 2; 1]) in
  let X : list vec3 := [(1, 0, 0); (0, 2, 0); (0, 0, 3)] in
  let Y : list vec3 := [(1, 1, 1); (2, 2, 2); (3, 3, 3)] in
  result_eq (Forall2 ceq) (calc_fit (zip_with cadd X Y) W)
            (do fx <- calc_fit X W; do fy <- calc_fit Y W; Ok (zip_with cadd fx fy)).
Proof.
  apply (calc_fit_linear ([0; 2]%Z, [0; 1; 2]%Z, [1 # 2; 1 # 2; 1])
           [(1, 0, 0); (0, 2, 0); (0, 0, 3)] [(1, 1, 1); (2, 2, 2); (3, 3, 3)] 2).
  reflexivity.
Defined.

(** ** Dicts and stores *)

Lemma contains_setitem_same (d : wdict) (k : nat) (v : Q) :
  Dict.contains (Dict.setitem d k v) k = true.
Proof.
  induction d as [|[k' v'] d IH]; simpl.
  - now rewrite Nat.eqb_refl.
  - destruct (Nat.eqb k' k) eqn:E; simpl.
    + now rewrite Nat.eqb_refl.
    + now rewrite E.
Qed.

Lemma get_setitem_same (d : wdict) (k : nat) (v def : Q) :
  Dict.get (Dict.setitem d k v) k def = v.
Proof.
  induction d as [|[k' v'] d IH]; simpl.
  - now rewrite Nat.eqb_refl.
  - destruct (Nat.eqb k' k) eqn:E; simpl.
    + now rewrite Nat.eqb_refl.
    + now rewrite E.
Qed.

Lemma contains_setitem_other (d : wdict) (k k' : nat) (v : Q) :
  k <> k' -> Dict.contains (Dict.setitem d k v) k' = Dict.contains d k'.
Proof.
  intros Hne. induction d as [|[k0 v0] d IH]; simpl.
  - apply Nat.eqb_neq in Hne. now rewrite Hne.
  - destruct (Nat.eqb k0 k) eqn:E; simpl.
    + apply Nat.eqb_eq in E. subst k0. reflexivity.
    + now rewrite IH.
Qed.

Lemma get_setitem_other (d : wdict) (k k' : nat) (v def : Q) :
  k <> k' -> Dict.get (Dict.setitem d k v) k' def = Dict.get d k' def.
Proof.
  intros Hne. apply Nat.eqb_neq in Hne.
  induction d as [|[k0 v0] d IH]; simpl.
  - now rewrite Hne.
  - destruct (Nat.eqb k0 k) eqn:E; simpl.
    + apply Nat.eqb_eq in E. subst k0. now rewrite Hne.
    + now rewrite IH.
Qed.

Lemma get_absent (d : wdict) (k : nat) (def : Q) :
  Dict.contains d k = false -> Dict.get d k def = def.
Proof.
  induction d as [|[k' v'] d IH]; simpl; [reflexivity|].
  destruct (Nat.eqb k' k); [discriminate|exact IH].
Qed.

Lemma entry_or_zero_get (s : store) (row key : nat) (d : wdict) :
  s !! row = Some d -> entry_or_zero s row key = Dict.get d key 0.
Proof.
  intros Hd. unfold entry_or_zero, entry. rewrite Hd.
  destruct (Dict.contains d key) eqn:E; simpl; [reflexivity|].
  symmetry. now apply get_absent.
Qed.

Lemma entry_insert_same (s : store) (row key : nat) (d : wdict) (v : Q) :
  (row < length s)%nat ->
  entry (<[row := Dict.setitem d key v]> s) row key = Some v.
Proof.
  intros Hlt. unfold entry. rewrite list_lookup_insert_eq by exact Hlt.
  now rewrite contains_setitem_same, get_setitem_same.
Qed.

Lemma entry_insert_other (s : store) (row key row' key' : nat) (d : wdict) (v : Q) :
  s !! row = Some d ->
  ~ (row' = row /\ key' = key) ->
  entry (<[row := Dict.setitem d key v]> s) row' key' = entry s row' key'.
Proof.
  intros Hd Hne. unfold entry.
  destruct (Nat.eq_dec row' row) as [->|Hrow].
  - rewrite list_lookup_insert_eq by (now apply lookup_lt_Some in Hd). rewrite Hd.
    assert (key <> key') by (intros ->; now apply Hne).
    now rewrite contains_setitem_other, get_setitem_other.
  - now rewrite list_lookup_insert_ne by congruence.
Qed.

Lemma store_le_refl (s : store) : store_le s s.
Proof.
  split; [reflexivity|]. intros row key v Hv. exists v. split; [exact Hv|lra].
Qed.

Lemma store_le_trans (s1 s2 s3 : store) :
  store_le s1 s2 -> store_le s2 s3 -> store_le s1 s3.
Proof.
  intros [Hl12 H12] [Hl23 H23]. split; [congruence|].
  intros row key v Hv. destruct (H12 row key v Hv) as (v' & Hv' & Hle).
  destruct (H23 row key v' Hv') as (v'' & Hv'' & Hle').
  exists v''. split; [exact Hv''|lra].
Qed.

(** What one [accumulate] does. *)
Lemma accumulate_spec (row key : nat) (f : Q -> result Q) (s : store) :
  (exists d v, s !! row = Some d /\ f (Dict.get d key 0) = Ok v /\
               accumulate row key f s = (<[row := Dict.setitem d key v]> s, Ok tt)) \/
  (exists e, accumulate row key f s = (s, Err e)).
Proof.
  unfold accumulate. destruct (s !! row) as [d|] eqn:Hd.
  - destruct (f (Dict.get d key 0)) as [v|e] eqn:Hf.
    + left. exists d, v. auto.
    + right. now exists e.
  - right. now exists IndexError.
Qed.

Lemma accumulate_writes (row key : nat) (f : Q -> result Q) (P : nat -> nat -> Prop) :
  P row key -> writes P (accumulate row key f).
Proof.
  intros HP s.
  destruct (accumulate_spec row key f s) as [(d & v & Hd & _ & ->)|[e ->]]; simpl.
  - split; [apply length_insert|]. split.
    + intros row' Hrow'. apply list_lookup_insert_ne. intros ->. now apply (Hrow' key).
    + intros row' key' Hn. apply entry_insert_other; [exact Hd|].
      intros [-> ->]. contradiction.
  - auto.
Qed.

Lemma accumulate_grows (row key : nat) (f : Q -> result Q) :
  (forall old v, f old = Ok v -> old <= v) -> grows (accumulate row key f).
Proof.
  intros Hf s.
  destruct (accumulate_spec row key f s) as [(d & v & Hd & Hv & ->)|[e ->]]; simpl;
    [|apply store_le_refl].
  split; [symmetry; apply length_insert|].
  intros row' key' v' Hv'.
  destruct (Nat.eq_dec row' row) as [->|Hrow];
    [destruct (Nat.eq_dec key' key) as [->|Hkey]|].
  - exists v. split; [apply entry_insert_same; now apply lookup_lt_Some in Hd|].
    apply Hf in Hv. unfold entry in Hv'. rewrite Hd in Hv'.
    destruct (Dict.contains d key); [|discriminate]. injection Hv' as <-. exact Hv.
  - exists v'. split; [|lra]. rewrite entry_insert_other; [exact Hv'|exact Hd|].
    intros [_ ?]. contradiction.
  - exists v'. split; [|lra]. rewrite entry_insert_other; [exact Hv'|exact Hd|].
    intros [? _]. contradiction.
Qed.

Lemma mret_writes {A : Type} (a : A) (P : nat -> nat -> Prop) : writes P (mret a).
Proof. intros s. simpl. auto. Qed.

Lemma lift_writes {A : Type} (r : result A) (P : nat -> nat -> Prop) : writes P (lift r).
Proof. intros s. simpl. auto. Qed.

Lemma row_get_writes (row : nat) (P : nat -> nat -> Prop) : writes P (row_get row).
Proof. intros s. simpl. auto. Qed.

Lemma mbind_writes {A B : Type} (m : M A) (k : A -> M B) (P : nat -> nat -> Prop) :
  writes P m -> (forall a, writes P (k a)) -> writes P (mbind m k).
Proof.
  intros Hm Hk s. unfold mbind. specialize (Hm s).
  destruct (m s) as [s1 [a|e]]; simpl in *; [|exact Hm].
  specialize (Hk a s1). destruct Hm as (Hl & Hr & He), Hk as (Hl' & Hr' & He').
  split; [congruence|]. split.
  - intros row Hrow. rewrite Hr', Hr; auto.
  - intros row key Hn. rewrite He', He; auto.
Qed.

Lemma for_each_writes {X : Type} (l : list X) (body : X -> M unit)
    (P : nat -> nat -> Prop) :
  (forall x, In x l -> writes P (body x)) -> writes P (for_each l body).
Proof.
  induction l as [|x l IH]; intros Hb; simpl.
  - apply mret_writes.
  - apply mbind_writes; [apply Hb; now left|].
    intros _. apply IH. intros y Hy. apply Hb. now right.
Qed.

Lemma mret_grows {A : Type} (a : A) : grows (mret a).
Proof. intros s. apply store_le_refl. Qed.

Lemma lift_grows {A : Type} (r : result A) : grows (lift r).
Proof. intros s. apply store_le_refl. Qed.

Lemma row_get_grows (row : nat) : grows (row_get row).
Proof. intros s. apply store_le_refl. Qed.

Lemma mbind_grows {A B : Type} (m : M A) (k : A -> M B) :
  grows m -> (forall a, grows (k a)) -> grows (mbind m k).
Proof.
  intros Hm Hk s. unfold mbind. specialize (Hm s).
  destruct (m s) as [s1 [a|e]]; simpl in *; [|exact Hm].
  eapply store_le_trans; [exact Hm|apply Hk].
Qed.

Lemma for_each_grows {X : Type} (l : list X) (body : X -> M unit) :
  (forall x, In x l -> grows (body x)) -> grows (for_each l body).
Proof.
  induction l as [|x l IH]; intros Hb; simpl.
  - apply mret_grows.
  - apply mbind_grows; [apply Hb; now left|].
    intros _. apply IH. intros y Hy. apply Hb. now right.
Qed.

Lemma mbind_ok {A B : Type} (m : M A) (k : A -> M B) (s s' : store) (b : B) :
  mbind m k s = (s', Ok b) ->
  exists s1 a, m s = (s1, Ok a) /\ k a s1 = (s', Ok b).
Proof.
  unfold mbind. destruct (m s) as [s1 [a|e]]; [|discriminate].
  intros Hk. now exists s1, a.
Qed.

(** ** The surface passes never lower an entry *)

Lemma epsilon_pos : 0 < epsilon.
Proof. reflexivity. Qed.

Lemma reverse_epsilon_pos : 0 < reverse_epsilon.
Proof. reflexivity. Qed.

Lemma repsilon_pos : 0 < repsilon.
Proof. reflexivity. Qed.

(** The scale factor is defined whenever [eps] is positive, with the value
    the specification gives. *)
Lemma surface_factor_ok (fdist eps : Q) :
  0 < eps ->
  exists f, surface_factor fdist eps = Ok f /\
            f == (1 - fdist / dist_thresh) / Qmax fdist eps.
Proof.
  intros Heps. unfold surface_factor.
  pose proof (py_max_ge_r fdist eps).
  rewrite py_div_ok by lra.
  eexists. split; [reflexivity|]. now rewrite py_max_Qmax.
Qed.

Lemma surface_factor_nonneg (fdist eps f : Q) :
  0 < eps -> fdist <= dist_thresh -> surface_factor fdist eps = Ok f -> 0 <= f.
Proof.
  intros Heps Hd. destruct (surface_factor_ok fdist eps Heps) as (f' & -> & Hf).
  intros [= <-]. rewrite Hf.
  pose proof (Q.le_max_r fdist eps).
  apply Qle_shift_div_l; [lra|].
  assert (fdist / dist_thresh <= 1); [|lra].
  apply Qle_shift_div_r; [reflexivity|]. lra.
Qed.

Section Monotone.
Context `{Mathutils}.

Lemma direct_vertex_grows (bvh : BVHTree) (cg : Geometry) (iv : nat * vec3) :
  grows (direct_vertex bvh cg iv).
Proof.
  unfold direct_vertex.
  destruct (find_nearest bvh (snd iv) dist_thresh) as [[[loc idx] fdist]|];
    [|apply mret_grows].
  apply mbind_grows; [apply lift_grows|]. intros face.
  apply mbind_grows; [apply row_get_grows|]. intros _.
  apply mbind_grows; [apply lift_grows|]. intros f.
  apply mbind_grows; [apply lift_grows|]. intros pts.
  apply for_each_grows. intros vb _. apply accumulate_grows.
  intros old v [= <-]. apply py_max_ge_l.
Qed.

Lemma calc_weights_direct_grows (cg : Geometry) (asset_verts : list vec3) :
  grows (calc_weights_direct cg asset_verts).
Proof.
  unfold calc_weights_direct. apply mbind_grows; [apply lift_grows|].
  intros bvh. apply for_each_grows. intros iv _. apply direct_vertex_grows.
Qed.

(** The reverse pass, for a reduction that never returns less than the entry
    it is given whenever the contribution has the property [good]. *)
Lemma calc_weights_reverse_grows (char_geom : pyobj) (asset_geom : Geometry)
    (reduce_func : Q -> Q -> Q) (good : Q -> Prop) :
  (forall old c, good c -> old <= reduce_func old c) ->
  (forall bvh co loc idx fdist f pts bw,
     find_nearest bvh co dist_thresh = Some (loc, idx, fdist) ->
     surface_factor fdist reverse_epsilon = Ok f ->
     In bw (poly_3d_calc pts loc) ->
     good (bw * f)) ->
  grows (calc_weights_reverse char_geom asset_geom reduce_func).
Proof.
  intros Hred Hgood. unfold calc_weights_reverse.
  apply mbind_grows; [apply lift_grows|]. intros bvh.
  apply mbind_grows; [apply lift_grows|]. intros enum.
  apply for_each_grows. intros ic _. unfold reverse_vertex.
  apply mbind_grows; [apply lift_grows|]. intros cvert.
  destruct (find_nearest bvh cvert dist_thresh) as [[[loc idx] fdist]|] eqn:Hhit;
    [|apply mret_grows].
  apply mbind_grows; [apply lift_grows|]. intros face.
  intros s. unfold mbind at 1, lift at 1.
  destruct (surface_factor fdist reverse_epsilon) as [f|e] eqn:Hf;
    [|apply store_le_refl].
  revert s. change (grows (let* pts := lift (np_take (verts asset_geom) (map Z.of_nat face)) in
    for_each (zip face (poly_3d_calc pts loc)) (fun vb =>
      accumulate (fst vb) (fst ic) (fun old => Ok (reduce_func old (snd vb * f)))))).
  apply mbind_grows; [apply lift_grows|]. intros pts.
  apply for_each_grows. intros vb Hvb. apply accumulate_grows.
  intros old v [= <-]. apply Hred. eapply Hgood; [exact Hhit|exact Hf|].
  apply list_elem_of_In. apply list_elem_of_In in Hvb.
  apply elem_of_zip_with in Hvb as (vi & bw & -> & _ & Hbw). exact Hbw.
Qed.

(** C10: [calc_weights_direct] and [calc_weights_reverse] never lower nor
    remove an entry of the rows, whether they return or raise on the way: the
    direct pass and the reverse pass with the default [max] always, the
    reverse pass with an additive reduction when the contributions it adds
    are not negative, that is when a hit lies within the search radius and
    the barycentric weights are not negative. *)
Theorem accumulation_passes_never_decrease
    (cg asset_geom : Geometry) (char_geom : pyobj) (asset_verts : list vec3)
    (s : store) :
  store_le s (fst (calc_weights_direct cg asset_verts s)) /\
  store_le s (fst (calc_weights_reverse char_geom asset_geom py_max s)) /\
  ((forall bvh co loc idx fdist,
      find_nearest bvh co dist_thresh = Some (loc, idx, fdist) -> fdist <= dist_thresh) ->
   (forall pts loc bw, In bw (poly_3d_calc pts loc) -> 0 <= bw) ->
   store_le s (fst (calc_weights_reverse char_geom asset_geom Qplus s))).
Proof.
  split; [apply calc_weights_direct_grows|]. split.
  - apply (calc_weights_reverse_grows char_geom asset_geom py_max (fun _ => True)).
    + intros old c _. apply py_max_ge_l.
    + auto.
  - intros Hradius Hbary.
    apply (calc_weights_reverse_grows char_geom asset_geom Qplus (fun c => 0 <= c)).
    + intros old c Hc. lra.
    + intros bvh co loc idx fdist f pts bw Hhit Hf Hbw.
      apply Qmult_le_0_compat; [eapply Hbary; exact Hbw|].
      eapply surface_factor_nonneg; [apply reverse_epsilon_pos| |exact Hf].
      eapply Hradius. exact Hhit.
Qed.

End Monotone.

(** ** Loops whose iterations write at different places *)

Lemma writes_weaken {A : Type} (P P' : nat -> nat -> Prop) (m : M A) :
  (forall row key, P row key -> P' row key) -> writes P m -> writes P' m.
Proof.
  intros HPP Hm s. destruct (Hm s) as (Hl & Hr & He).
  split; [exact Hl|]. split.
  - intros row Hrow. apply Hr. intros key HP. apply (Hrow key). now apply HPP.
  - intros row key Hn. apply He. intros HP. apply Hn. now apply HPP.
Qed.

Lemma writes_length {A : Type} (P : nat -> nat -> Prop) (m : M A) (s s' : store) (r : result A) :
  writes P m -> m s = (s', r) -> length s' = length s.
Proof. intros Hm Hs. destruct (Hm s) as (Hl & _). now rewrite Hs in Hl. Qed.

(** A loop of [accumulate] over pairwise different places applies each update
    once, to what [d.get(key, 0)] read before the loop. *)
Lemma for_each_accumulate_once {X : Type} (row_of key_of : X -> nat)
    (upd : X -> Q -> result Q) (l : list X) (s s' : store) :
  NoDup (map (fun x => (row_of x, key_of x)) l) ->
  for_each l (fun x => accumulate (row_of x) (key_of x) (upd x)) s = (s', Ok tt) ->
  forall x, In x l ->
    exists v, upd x (entry_or_zero s (row_of x) (key_of x)) = Ok v /\
              entry s' (row_of x) (key_of x) = Some v.
Proof.
  revert s. induction l as [|x0 l IH]; intros s Hnd Hrun x Hx; [destruct Hx|].
  simpl in Hrun. apply mbind_ok in Hrun as (s1 & [] & Hacc & Hrest).
  apply NoDup_cons in Hnd as [Hnotin Hnd].
  destruct (accumulate_spec (row_of x0) (key_of x0) (upd x0) s)
    as [(d & v & Hd & Hv & Hacc')|[e Hacc']]; [|congruence].
  rewrite Hacc' in Hacc. injection Hacc as <-.
  assert (Hw : writes (fun row key => exists y, In y l /\ row = row_of y /\ key = key_of y)
                 (for_each l (fun x => accumulate (row_of x) (key_of x) (upd x)))).
  { apply for_each_writes. intros y Hy. apply accumulate_writes. now exists y. }
  destruct Hx as [<-|Hx].
  - exists v. split; [now rewrite (entry_or_zero_get s _ _ d Hd)|].
    destruct (Hw (<[row_of x0 := Dict.setitem d (key_of x0) v]> s)) as (_ & _ & He).
    rewrite Hrest in He. simpl in He. rewrite He.
    + apply entry_insert_same. now apply lookup_lt_Some in Hd.
    + intros (y & Hy & Hr & Hk). apply Hnotin. apply list_elem_of_In, in_map_iff.
      exists y. split; [congruence|exact Hy].
  - destruct (IH _ Hnd Hrest x Hx) as (v' & Hv' & He'). exists v'.
    split; [|exact He'].
    unfold entry_or_zero in *. rewrite entry_insert_other in Hv'; [exact Hv'|exact Hd|].
    intros [Hr Hk]. apply Hnotin. apply list_elem_of_In, in_map_iff.
    exists x. split; [congruence|exact Hx].
Qed.

(** A loop of [accumulate] returns when every row exists and every update
    is defined. *)
Lemma for_each_accumulate_ok {X : Type} (row_of key_of : X -> nat)
    (upd : X -> Q -> result Q) (l : list X) (s : store) :
  (forall x, In x l -> (row_of x < length s)%nat) ->
  (forall x old, In x l -> exists v, upd x old = Ok v) ->
  exists s', for_each l (fun x => accumulate (row_of x) (key_of x) (upd x)) s = (s', Ok tt).
Proof.
  revert s. induction l as [|x l IH]; intros s Hrow Hupd; simpl.
  - now exists s.
  - unfold mbind.
    destruct (lookup_lt_is_Some_2 s (row_of x) (Hrow x (or_introl eq_refl))) as [d Hd].
    destruct (Hupd x (Dict.get d (key_of x) 0) (or_introl eq_refl)) as [v Hv].
    unfold accumulate at 1. rewrite Hd, Hv.
    apply IH.
    + intros y Hy. rewrite length_insert. apply Hrow. now right.
    + intros y old Hy. apply Hupd. now right.
Qed.

(** In a loop whose iterations write at pairwise disjoint places, every
    iteration runs on the entries the loop started with at its own places,
    and what it leaves there is what the loop ends with. *)
Lemma for_each_independent {X : Type} (P : X -> nat -> nat -> Prop)
    (body : X -> M unit) (l : list X) (s s' : store) :
  (forall x, In x l -> writes (P x) (body x)) ->
  (forall n m x y row key, n <> m -> l !! n = Some x -> l !! m = Some y ->
     P x row key -> P y row key -> False) ->
  for_each l body s = (s', Ok tt) ->
  forall n x, l !! n = Some x ->
    exists s1 s2,
      body x s1 = (s2, Ok tt) /\
      (forall row key, P x row key ->
         entry s1 row key = entry s row key /\ entry s' row key = entry s2 row key) /\
      (forall row, (forall m y key, m <> n -> l !! m = Some y -> ~ P y row key) ->
         s1 !! row = s !! row /\ s' !! row = s2 !! row).
Proof.
  revert s. induction l as [|x0 l IH]; intros s Hw Hdisj Hrun n x Hx; [discriminate|].
  simpl in Hrun. apply mbind_ok in Hrun as (sa & [] & Hbody & Hrest).
  assert (Hwrest : writes (fun row key => exists m y, l !! m = Some y /\ P y row key)
                     (for_each l body)).
  { apply for_each_writes. intros y Hy.
    apply (writes_weaken (P y)); [|apply Hw; now right].
    intros row key HP. apply list_elem_of_In, list_elem_of_lookup in Hy as [m Hm].
    now exists m, y. }
  destruct n as [|n]; simpl in Hx.
  - injection Hx as <-. exists s, sa. split; [exact Hbody|].
    destruct (Hwrest sa) as (_ & Hr & He). rewrite Hrest in Hr, He. simpl in Hr, He.
    split.
    + intros row key HP. split; [reflexivity|]. apply He.
      intros (m & y & Hm & HPy). apply (Hdisj 0%nat (S m) x0 y row key); auto.
    + intros row Hrow. split; [reflexivity|]. apply Hr.
      intros key (m & y & Hm & HPy). apply (Hrow (S m) y key); auto.
  - destruct (IH sa) with (n := n) (x := x) as (s1 & s2 & Hb & He & Hr); auto.
    + intros y Hy. apply Hw. now right.
    + intros n' m' x' y' row key Hne Hn' Hm'. apply (Hdisj (S n') (S m')); auto.
    + exists s1, s2. split; [exact Hb|].
      destruct (Hw x0 (or_introl eq_refl) s) as (_ & Hr0 & He0).
      rewrite Hbody in Hr0, He0. simpl in Hr0, He0. split.
      * intros row key HP. destruct (He row key HP) as [E1 E2].
        split; [|exact E2]. rewrite E1. apply He0.
        intros HP0. apply (Hdisj 0%nat (S n) x0 x row key); auto.
      * intros row Hrow. destruct (Hr row) as [E1 E2].
        { intros m y key Hne Hm. apply (Hrow (S m) y key); auto. }
        split; [|exact E2]. rewrite E1. apply Hr0.
        intros key HP0. apply (Hrow 0%nat x0 key); auto.
Qed.

(** A loop returns when every iteration does, on any store of the same
    number of rows. *)
Lemma for_each_ok {X : Type} (P : nat -> nat -> Prop) (body : X -> M unit)
    (l : list X) (s : store) :
  (forall x, In x l -> writes P (body x)) ->
  (forall x s1, In x l -> length s1 = length s -> exists s2, body x s1 = (s2, Ok tt)) ->
  exists s', for_each l body s = (s', Ok tt).
Proof.
  revert s. induction l as [|x l IH]; intros s Hw Hok; simpl.
  - now exists s.
  - destruct (Hok x s (or_introl eq_refl) eq_refl) as [s2 Hs2].
    unfold mbind. rewrite Hs2.
    assert (Hlen : length s2 = length s).
    { eapply writes_length; [apply Hw; now left|exact Hs2]. }
    apply IH.
    + intros y Hy. apply Hw. now right.
    + intros y s1 Hy Hl. apply Hok; [now right|congruence].
Qed.

Lemma lookup_enumerate {A : Type} (l : list A) (n : nat) (x : nat * A) :
  enumerate l !! n = Some x <-> fst x = n /\ l !! n = Some (snd x).
Proof.
  unfold enumerate. split.
  - intros Hz. apply lookup_zip_with_Some in Hz as (i & v & -> & Hi & Hv).
    apply lookup_seq in Hi as [-> _]. simpl. auto.
  - intros [<- Hv]. apply lookup_zip_with_Some. exists (fst x), (snd x).
    split; [now destruct x|].
    split; [|exact Hv]. apply lookup_seq. split; [reflexivity|].
    now apply lookup_lt_Some in Hv.
Qed.

(** ** The direct pass, row by row *)

Section Direct.
Context `{Mathutils}.

Lemma direct_vertex_writes (bvh : BVHTree) (cg : Geometry) (iv : nat * vec3) :
  writes (fun row _ => row = fst iv) (direct_vertex bvh cg iv).
Proof.
  unfold direct_vertex.
  destruct (find_nearest bvh (snd iv) dist_thresh) as [[[loc idx] fdist]|];
    [|apply mret_writes].
  apply mbind_writes; [apply lift_writes|]. intros face.
  apply mbind_writes; [apply row_get_writes|]. intros _.
  apply mbind_writes; [apply lift_writes|]. intros f.
  apply mbind_writes; [apply lift_writes|]. intros pts.
  apply for_each_writes. intros vb _. now apply accumulate_writes.
Qed.

Lemma lift_ok {A : Type} (r : result A) (s s' : store) (a : A) :
  lift r s = (s', Ok a) -> r = Ok a /\ s' = s.
Proof. unfold lift. intros [= <- ->]. auto. Qed.

(** One iteration of the direct pass that found a face. *)
Lemma direct_vertex_hit (bvh : BVHTree) (cg : Geometry) (i : nat) (v : vec3)
    (loc : vec3) (idx : nat) (fdist : Q) (s1 s2 : store) :
  find_nearest bvh v dist_thresh = Some (loc, idx, fdist) ->
  direct_vertex bvh cg (i, v) s1 = (s2, Ok tt) ->
  exists face pts f,
    faces cg !! idx = Some face /\
    np_take (verts cg) (map Z.of_nat face) = Ok pts /\
    surface_factor fdist epsilon = Ok f /\
    (NoDup face ->
     forall n vi bw, face !! n = Some vi -> poly_3d_calc pts loc !! n = Some bw ->
       entry s2 i vi = Some (py_max (entry_or_zero s1 i vi) (bw * f))).
Proof.
  intros Hhit Hrun. unfold direct_vertex in Hrun. simpl in Hrun. rewrite Hhit in Hrun.
  apply mbind_ok in Hrun as (sa & face & Hface & Hrun).
  apply lift_ok in Hface as [Hface ->].
  apply mbind_ok in Hrun as (sa & d & Hrow & Hrun).
  unfold row_get in Hrow. injection Hrow as <- Hrow.
  apply mbind_ok in Hrun as (sa & f & Hf & Hrun).
  apply lift_ok in Hf as [Hf ->].
  apply mbind_ok in Hrun as (sa & pts & Hpts & Hrun).
  apply lift_ok in Hpts as [Hpts ->].
  exists face, pts, f.
  split; [destruct (faces cg !! idx); [now injection Hface as ->|discriminate]|].
  split; [exact Hpts|]. split; [exact Hf|].
  intros Hnd n vi bw Hvi Hbw.
  pose proof (for_each_accumulate_once (fun _ : nat * Q => i) fst
                (fun vb old => Ok (py_max old (snd vb * f)))
                (zip face (poly_3d_calc pts loc)) s1 s2) as Honce.
  destruct (Honce) with (x := (vi, bw)) as (w & Hw & He).
  - assert (Heq : map (fun x : nat * Q => (i, fst x)) (zip face (poly_3d_calc pts loc))
                  = pair i <$> (fst <$> zip face (poly_3d_calc pts loc))).
    { now rewrite <- list_fmap_compose. }
    simpl. rewrite Heq.
    apply (NoDup_fmap_2 (pair i)).
    assert (Hsub : sublist (fst <$> zip face (poly_3d_calc pts loc)) face).
    { clear. generalize (poly_3d_calc pts loc). induction face as [|a face IH];
        intros [|b l]; simpl; try constructor.
      - apply sublist_nil_l.
      - apply IH. }
    apply (sublist_NoDup _ _ Hnd Hsub).
  - exact Hrun.
  - apply list_elem_of_In, list_elem_of_lookup. exists n.
    apply lookup_zip_with_Some. now exists vi, bw.
  - simpl in Hw, He. injection Hw as <-. exact He.
Qed.

(** C5: after [calc_weights_direct], the row of an asset vertex with no
    surface point within [dist_thresh] (0.1) is the row it was; the row of a
    vertex that found one holds, for each vertex of the hit face, the
    maximum of the entry it had (0 when it had none) and
    [bw * (1 - fdist / 0.1) / max(fdist, 1e-30)], and no entry of the row has
    a smaller value than before. *)
Theorem calc_weights_direct_rows (cg : Geometry) (asset_verts : list vec3)
    (bvh : BVHTree) (s s' : store) :
  Geometry_bvh cg = Ok bvh ->
  calc_weights_direct cg asset_verts s = (s', Ok tt) ->
  forall i v, asset_verts !! i = Some v ->
    match find_nearest bvh v dist_thresh with
    | None => s' !! i = s !! i
    | Some (loc, idx, fdist) =>
        exists face pts f,
          faces cg !! idx = Some face /\
          np_take (verts cg) (map Z.of_nat face) = Ok pts /\
          f == (1 - fdist / dist_thresh) / Qmax fdist epsilon /\
          (NoDup face ->
           forall n vi bw, face !! n = Some vi -> poly_3d_calc pts loc !! n = Some bw ->
             entry s' i vi = Some (py_max (entry_or_zero s i vi) (bw * f))) /\
          (forall key old, entry s i key = Some old ->
             exists new, entry s' i key = Some new /\ old <= new)
    end.
Proof.
  intros Hbvh Hrun i v Hv.
  pose proof (calc_weights_direct_grows cg asset_verts s) as Hgrow.
  rewrite Hrun in Hgrow. simpl in Hgrow.
  unfold calc_weights_direct in Hrun.
  apply mbind_ok in Hrun as (sa & bvh' & Hb & Hrun).
  apply lift_ok in Hb as [Hb ->]. rewrite Hbvh in Hb. injection Hb as <-.
  destruct (for_each_independent (fun iv row _ => row = fst iv)
              (direct_vertex bvh cg) (enumerate asset_verts) s s')
    with (n := i) (x := (i, v)) as (s1 & s2 & Hbody & _ & Hrows).
  - intros x _. apply direct_vertex_writes.
  - intros n m x y row key key' Hx Hy -> E.
    apply lookup_enumerate in Hx as [Hx _], Hy as [Hy _]. congruence.
  - exact Hrun.
  - now apply lookup_enumerate.
  - destruct (Hrows i) as [E1 E2].
    { intros m y key Hne Hy E. apply lookup_enumerate in Hy as [Hy _]. simpl in E. congruence. }
    destruct (find_nearest bvh v dist_thresh) as [[[loc idx] fdist]|] eqn:Hhit.
    + destruct (direct_vertex_hit bvh cg i v loc idx fdist s1 s2 Hhit Hbody)
        as (face & pts & f & Hface & Hpts & Hf & Hent).
      exists face, pts, f. split; [exact Hface|]. split; [exact Hpts|].
      destruct (surface_factor_ok fdist epsilon epsilon_pos) as (f' & Hf' & Hval).
      rewrite Hf in Hf'. injection Hf' as <-.
      split; [exact Hval|]. split.
      * intros Hnd n vi bw Hvi Hbw.
        specialize (Hent Hnd n vi bw Hvi Hbw).
        unfold entry_or_zero, entry in *. rewrite E2. rewrite <- E1. exact Hent.
      * intros key old Hold. apply Hgrow. exact Hold.
    + unfold direct_vertex in Hbody. simpl in Hbody. rewrite Hhit in Hbody.
      injection Hbody as <-. congruence.
Qed.

End Direct.

(** ** The reverse pass, entry by entry *)

Section Reverse.
Context `{Mathutils}.

Lemma reverse_vertex_writes (bvh : BVHTree) (asset_geom : Geometry)
    (reduce_func : Q -> Q -> Q) (ic : nat * option vec3) :
  writes (fun _ key => key = fst ic) (reverse_vertex bvh asset_geom reduce_func ic).
Proof.
  unfold reverse_vertex.
  apply mbind_writes; [apply lift_writes|]. intros cvert.
  destruct (find_nearest bvh cvert dist_thresh) as [[[loc idx] fdist]|];
    [|apply mret_writes].
  apply mbind_writes; [apply lift_writes|]. intros face.
  apply mbind_writes; [apply lift_writes|]. intros f.
  apply mbind_writes; [apply lift_writes|]. intros pts.
  apply for_each_writes. intros vb _. now apply accumulate_writes.
Qed.

(** One iteration of the reverse pass that found a face: the entry for the
    character vertex [i] in the row of each vertex of the face is
    [reduce_func] of what [d.get(i, 0)] read and the scaled barycentric
    weight; with the rigger's [lambda a, b: a + b], their sum. *)
Lemma reverse_vertex_hit (bvh : BVHTree) (asset_geom : Geometry)
    (reduce_func : Q -> Q -> Q) (i : nat) (cvert loc : vec3) (idx : nat) (fdist : Q)
    (s1 s2 : store) :
  find_nearest bvh cvert dist_thresh = Some (loc, idx, fdist) ->
  reverse_vertex bvh asset_geom reduce_func (i, Some cvert) s1 = (s2, Ok tt) ->
  exists face pts f,
    faces asset_geom !! idx = Some face /\
    np_take (verts asset_geom) (map Z.of_nat face) = Ok pts /\
    surface_factor fdist reverse_epsilon = Ok f /\
    (NoDup face ->
     forall n vi bw, face !! n = Some vi -> poly_3d_calc pts loc !! n = Some bw ->
       entry s2 vi i = Some (reduce_func (entry_or_zero s1 vi i) (bw * f))).
Proof.
  intros Hhit Hrun. unfold reverse_vertex in Hrun. simpl in Hrun.
  unfold mbind at 1, lift at 1 in Hrun. rewrite Hhit in Hrun.
  apply mbind_ok in Hrun as (sa & face & Hface & Hrun).
  apply lift_ok in Hface as [Hface ->].
  apply mbind_ok in Hrun as (sa & f & Hf & Hrun).
  apply lift_ok in Hf as [Hf ->].
  apply mbind_ok in Hrun as (sa & pts & Hpts & Hrun).
  apply lift_ok in Hpts as [Hpts ->].
  exists face, pts, f.
  split; [destruct (faces asset_geom !! idx); [now injection Hface as ->|discriminate]|].
  split; [exact Hpts|]. split; [exact Hf|].
  intros Hnd n vi bw Hvi Hbw.
  destruct (for_each_accumulate_once fst (fun _ : nat * Q => i)
              (fun vb old => Ok (reduce_func old (snd vb * f)))
              (zip face (poly_3d_calc pts loc)) s1 s2)
    with (x := (vi, bw)) as (w & Hw & He).
  - assert (Heq : map (fun x : nat * Q => (fst x, i)) (zip face (poly_3d_calc pts loc))
                  = (fun k => (k, i)) <$> (fst <$> zip face (poly_3d_calc pts loc))).
    { now rewrite <- list_fmap_compose. }
    rewrite Heq. apply NoDup_fmap_2; [intros a b [=]; assumption|].
    assert (Hsub : sublist (fst <$> zip face (poly_3d_calc pts loc)) face).
    { clear. generalize (poly_3d_calc pts loc). induction face as [|a face IH];
        intros [|b l]; simpl; try constructor.
      - apply sublist_nil_l.
      - apply IH. }
    apply (sublist_NoDup _ _ Hnd Hsub).
  - exact Hrun.
  - apply list_elem_of_In, list_elem_of_lookup. exists n.
    apply lookup_zip_with_Some. now exists vi, bw.
  - simpl in Hw, He. injection Hw as <-. exact He.
Qed.

End Reverse.

(** With [cut=False] the rows are laid out with their values as they are:
    no entry is divided, and only a negative one would be left out. *)
Lemma weights_convert_uncut (weights : list wdict) :
  let rows := map (List.filter (fun kv => Qgeb (snd kv) 0)) weights in
  weights_convert weights false =
    Ok (offsets 0 rows,
        map (fun k => u32 (Z.of_nat k)) (concat (map Dict.keys rows)),
        concat (map Dict.values rows)).
Proof.
  intros rows. rewrite weights_convert_spec.
  assert (Hrows : rmapM (prune false) weights = Ok rows).
  { apply rmapM_Forall2. unfold rows. clear.
    induction weights; simpl; constructor; [reflexivity|assumption]. }
  now rewrite Hrows.
Qed.

(** ** Runs of the surface passes on the triangle *)

Lemma scripted_hit_in_radius (hits : list (vec3 * (vec3 * nat * Q))) (bary : list Q)
    (bvh : BVHTree (Mathutils := scripted_mathutils hits bary))
    (co loc : vec3) (idx : nat) (radius fdist : Q) :
  find_nearest (Mathutils := scripted_mathutils hits bary) bvh co radius
    = Some (loc, idx, fdist) ->
  fdist <= radius.
Proof.
  simpl. destruct (List.find _ hits) as [[? [[loc' idx'] d]]|]; [|discriminate].
  destruct (Qle_bool d radius) eqn:E; [|discriminate].
  intros [= _ _ <-]. now apply Qle_bool_iff.
Qed.

Lemma scripted_bary_nonneg (hits : list (vec3 * (vec3 * nat * Q))) (bary : list Q)
    (pts : list vec3) (loc : vec3) (bw : Q) :
  Forall (Qle 0) bary ->
  In bw (poly_3d_calc (Mathutils := scripted_mathutils hits bary) pts loc) ->
  0 <= bw.
Proof.
  simpl. intros Hall Hin. rewrite Forall_forall in Hall. apply Hall.
  apply list_elem_of_In in Hin.
  apply elem_of_take in Hin as (i & Hi & _). eapply list_elem_of_lookup_2. exact Hi.
Qed.

(** A run of C5's theorem: the asset vertex on the face gets the maximum of
    its entry and the scaled barycentric weight; the row of the vertex three
    units away stays. *)
Lemma calc_weights_direct_rows_witness :
  exists s',
    calc_weights_direct (H := triangle_mathutils) triangle
      [(1 # 4, 1 # 4, 0); (3, 0, 0)] [[(0%nat, 1)]; [(1%nat, 2)]] = (s', Ok tt) /\
    s' !! 1%nat = Some [(1%nat, 2)] /\
    exists f, f == (1 - 0 / dist_thresh) / Qmax 0 epsilon /\
              entry s' 0 0 = Some (py_max 1 ((1 # 2) * f)).
Proof.
  eassert (Hrun : calc_weights_direct (H := triangle_mathutils) triangle
                    [(1 # 4, 1 # 4, 0); (3, 0, 0)] [[(0%nat, 1)]; [(1%nat, 2)]]
                  = (_, Ok tt)) by (vm_compute; reflexivity).
  eexists. split; [exact Hrun|]. split.
  - exact (calc_weights_direct_rows (H := triangle_mathutils) triangle _ tt _ _
             eq_refl Hrun 1%nat (3, 0, 0) eq_refl).
  - destruct (calc_weights_direct_rows (H := triangle_mathutils) triangle _ tt _ _
                eq_refl Hrun 0%nat (1 # 4, 1 # 4, 0) eq_refl)
      as (face & pts & f & Hface & Hpts & Hf & Hent & _).
    injection Hface as <-. injection Hpts as <-.
    exists f. split; [exact Hf|].
    apply (Hent (NoDup_seq 0 3) 0%nat 0%nat (1 # 2)); reflexivity.
Defined.

(** A run of C10's theorem: the reverse pass with the additive reduction, the
    probe as the character and the triangle as the asset. *)
Lemma accumulation_passes_never_decrease_witness :
  store_le [[(0%nat, 1)]; []; []]
    (fst (calc_weights_reverse (H := triangle_mathutils) (PyGeometry probe) triangle
            Qplus [[(0%nat, 1)]; []; []])).
Proof.
  apply (accumulation_passes_never_decrease (H := triangle_mathutils)
           triangle triangle (PyGeometry probe) []).
  - intros bvh co loc idx fdist. apply scripted_hit_in_radius.
  - intros pts loc bw. apply scripted_bary_nonneg.
    repeat constructor; discriminate.
Defined.

(** ** The nearest-vertex index *)

Lemma insert_by_dist_perm (p : kd_item) (l : list kd_item) :
  insert_by_dist p l ≡ₚ p :: l.
Proof.
  induction l as [|x l IH]; simpl; [reflexivity|].
  destruct (Qle_bool (kd_dist p) (kd_dist x)); [reflexivity|].
  rewrite IH. apply Permutation_swap.
Qed.

Lemma sort_by_dist_perm (l : list kd_item) : sort_by_dist l ≡ₚ l.
Proof.
  induction l as [|x l IH]; simpl; [reflexivity|].
  rewrite insert_by_dist_perm. now rewrite IH.
Qed.

Lemma insert_by_dist_sorted (p : kd_item) (l : list kd_item) :
  nearest_first l -> nearest_first (insert_by_dist p l).
Proof.
  induction l as [|x l IH]; simpl; intros Hs.
  - split; [intros y []|exact I].
  - destruct Hs as [Hx Hl].
    destruct (Qle_bool (kd_dist p) (kd_dist x)) eqn:E; simpl.
    + apply Qle_bool_iff in E. split; [|split; assumption].
      intros y [<-|Hy]; [exact E|]. specialize (Hx y Hy). lra.
    + assert (Hlt : kd_dist x <= kd_dist p).
      { destruct (Qlt_le_dec (kd_dist x) (kd_dist p)) as [?|Hle]; [lra|].
        apply Qle_bool_iff in Hle. congruence. }
      split; [|now apply IH].
      intros y Hy. apply list_elem_of_In in Hy.
      rewrite insert_by_dist_perm in Hy. apply list_elem_of_In in Hy.
      destruct Hy as [<-|Hy]; [exact Hlt|now apply Hx].
Qed.

Lemma sort_by_dist_sorted (l : list kd_item) : nearest_first (sort_by_dist l).
Proof.
  induction l as [|x l IH]; simpl; [exact I|]. now apply insert_by_dist_sorted.
Qed.

Lemma nearest_first_split (l : list kd_item) (n : nat) :
  nearest_first l ->
  forall p q, In p (take n l) -> In q (drop n l) -> kd_dist p <= kd_dist q.
Proof.
  revert n. induction l as [|x l IH]; intros [|n] Hs p q Hp Hq; simpl in *;
    try contradiction.
  destruct Hs as [Hx Hl]. destruct Hp as [<-|Hp].
  - apply Hx. apply list_elem_of_In in Hq. apply list_elem_of_In.
    eapply elem_of_sublist; [exact Hq|]. apply sublist_drop.
  - now apply (IH n).
Qed.

Lemma nearest_first_take (l : list kd_item) (n : nat) :
  nearest_first l -> nearest_first (take n l).
Proof.
  revert n. induction l as [|x l IH]; intros [|n] Hs; simpl in *; auto.
  destruct Hs as [Hx Hl]. split; [|now apply IH].
  intros y Hy. apply Hx. apply list_elem_of_In in Hy. apply list_elem_of_In.
  eapply elem_of_sublist; [exact Hy|]. apply sublist_take.
Qed.

Section KDTree.
Context `{Mathutils}.

Lemma find_n_nearest (kd : kdtree) (co : vec3) (n : nat) :
  n_nearest kd co n (find_n kd co n).
Proof.
  unfold n_nearest, find_n. fold (kd_items kd co).
  pose proof (sort_by_dist_perm (kd_items kd co)) as Hperm.
  split; [|split].
  - rewrite length_take. apply Permutation_length in Hperm.
    unfold kd_items in Hperm at 2. rewrite length_map in Hperm. lia.
  - apply nearest_first_take, sort_by_dist_sorted.
  - exists (drop n (sort_by_dist (kd_items kd co))). split.
    + now rewrite take_drop.
    + apply nearest_first_split, sort_by_dist_sorted.
Qed.

Lemma find_n_indices (kd : kdtree) (co : vec3) (n : nat) :
  sublist (take n (sort_by_dist (kd_items kd co))) (sort_by_dist (kd_items kd co)) /\
  map kd_index (sort_by_dist (kd_items kd co)) ≡ₚ map snd kd.
Proof.
  split; [apply sublist_take|].
  rewrite (sort_by_dist_perm (kd_items kd co)). unfold kd_items.
  rewrite map_map. reflexivity.
Qed.

Lemma find_n_NoDup (kd : kdtree) (co : vec3) (n : nat) :
  NoDup (map snd kd) -> NoDup (map kd_index (find_n kd co n)).
Proof.
  intros Hnd. destruct (find_n_indices kd co n) as [Hsub Hperm].
  unfold find_n. fold (kd_items kd co).
  eapply sublist_NoDup; [|apply (fmap_sublist kd_index); exact Hsub].
  change (NoDup (map kd_index (sort_by_dist (kd_items kd co)))).
  now rewrite Hperm.
Qed.

Lemma find_n_index_in (kd : kdtree) (co : vec3) (n : nat) (p : kd_item) :
  In p (find_n kd co n) -> In (kd_index p) (map snd kd).
Proof.
  intros Hp. destruct (find_n_indices kd co n) as [Hsub Hperm].
  apply list_elem_of_In. rewrite <- Hperm. apply list_elem_of_In, in_map.
  apply list_elem_of_In. eapply elem_of_sublist; [|exact Hsub].
  apply list_elem_of_In. exact Hp.
Qed.

Lemma kdtree_from_verts_indices (verts : list vec3) :
  map snd (kdtree_from_verts verts) = seq 0 (length verts).
Proof.
  unfold kdtree_from_verts, enumerate. rewrite map_map. simpl.
  change (map (fun x : nat * vec3 => fst x) (zip (seq 0 (length verts)) verts))
    with (fst <$> zip (seq 0 (length verts)) verts).
  apply fst_zip. rewrite length_seq. lia.
Qed.

Lemma length_kdtree_from_verts (verts : list vec3) :
  length (kdtree_from_verts verts) = length verts.
Proof.
  unfold kdtree_from_verts, enumerate. rewrite length_map, length_zip_with, length_seq. lia.
Qed.

End KDTree.

(** ** [calc_weights_kd] *)

Lemma setitem_fresh (d : wdict) (k : nat) (v : Q) :
  ~ In k (Dict.keys d) -> Dict.setitem d k v = d ++ [(k, v)].
Proof.
  induction d as [|[k' v'] d IH]; simpl; intros Hk; [reflexivity|].
  destruct (Nat.eqb k' k) eqn:E.
  - apply Nat.eqb_eq in E. tauto.
  - f_equal. apply IH. tauto.
Qed.

Lemma of_items_NoDup (items : list (nat * Q)) :
  NoDup (map fst items) -> Dict.of_items items = items.
Proof.
  unfold Dict.of_items.
  assert (Hgen : forall d, NoDup (map fst (d ++ items)) ->
            fold_left (fun d kv => Dict.setitem d (fst kv) (snd kv)) items d = d ++ items).
  { induction items as [|[k v] items IH]; intros d Hnd; simpl.
    - now rewrite app_nil_r.
    - rewrite setitem_fresh.
      + rewrite IH; rewrite <- app_assoc; [reflexivity|exact Hnd].
      + rewrite map_app in Hnd. simpl in Hnd. apply NoDup_app in Hnd as (_ & Hd & _).
        intros Hin. apply (Hd k); [now apply list_elem_of_In|]. apply list_elem_of_here. }
  intros Hnd. now apply (Hgen []).
Qed.

Section KDWeights.
Context `{Mathutils}.

Lemma kd_row_items_ok (pdata : list kd_item) (maxdist _epsilon : Q) :
  ~ maxdist == 0 -> 0 < _epsilon ->
  kd_row_items pdata maxdist _epsilon =
    Ok (map (fun p => (kd_index p, kd_weight maxdist _epsilon p)) pdata).
Proof.
  intros Hm Heps. induction pdata as [|p pdata IH]; simpl; [reflexivity|].
  rewrite py_div_ok by exact Hm. simpl.
  pose proof (py_max_ge_r (kd_dist p) _epsilon).
  rewrite py_div_ok by lra. simpl. rewrite IH. reflexivity.
Qed.

(** Where the largest of the [n] distances is not zero, the row holds the
    [n] nearest vertices, each with the weight
    [(1 - dist / maxdist) / max(dist, _epsilon)]. *)
Lemma kd_row_spec (kd : kdtree) (v : vec3) (_epsilon : Q) (n : nat) (maxdist : Q) :
  0 < _epsilon ->
  NoDup (map snd kd) ->
  py_max_list (map kd_dist (find_n kd v n)) = Ok maxdist ->
  ~ maxdist == 0 ->
  n_nearest kd v n (find_n kd v n) /\
  is_max maxdist (map kd_dist (find_n kd v n)) /\
  kd_row kd v _epsilon n =
    Ok (map (fun p => (kd_index p, kd_weight maxdist _epsilon p)) (find_n kd v n)).
Proof.
  intros Heps Hnd Hmax Hm.
  split; [apply find_n_nearest|]. split; [now apply py_max_list_is_max|].
  unfold kd_row. rewrite Hmax. simpl.
  rewrite kd_row_items_ok by assumption. simpl. f_equal.
  apply of_items_NoDup. rewrite map_map. simpl. now apply find_n_NoDup.
Qed.

(** C6 fails where the code divides by the largest distance: when the [n]
    nearest character vertices all lie on the query point, [dist / maxdist]
    is [0 / 0], and no row is returned for the query. *)
Theorem calc_weights_kd_raises_on_coincident_vertices
    (kd : kdtree) (v : vec3) (vs : list vec3) (_epsilon : Q) (n : nat) :
  (0 < n)%nat ->
  (n <= length kd)%nat ->
  (forall p, In p (find_n kd v n) -> kd_dist p == 0) ->
  calc_weights_kd kd (v :: vs) _epsilon n = Err ZeroDivisionError.
Proof.
  intros Hn Hkd Hzero. simpl. unfold kd_row.
  destruct (find_n_nearest kd v n) as (Hlen & _).
  destruct (find_n kd v n) as [|p pdata] eqn:Hfind; [simpl in Hlen; lia|].
  destruct (py_max_list (map kd_dist (p :: pdata))) as [maxdist|e] eqn:Hmax;
    [|discriminate].
  apply py_max_list_is_max in Hmax as [Hin _].
  apply in_map_iff in Hin as (q & <- & Hq).
  simpl. rewrite py_div_zero; [reflexivity|]. now apply Hzero.
Qed.

End KDWeights.

(** The failing input of C6: sixteen character vertices on one point, and a
    query on that point. *)
Lemma calc_weights_kd_raises_on_coincident_vertices_witness :
  calc_weights_kd (H := triangle_mathutils)
    (kdtree_from_verts (replicate 16 (0, 0, 0))) [(0, 0, 0)] epsilon 16
  = Err ZeroDivisionError.
Proof.
  apply (calc_weights_kd_raises_on_coincident_vertices (H := triangle_mathutils)).
  - lia.
  - vm_compute. lia.
  - intros p Hp. vm_compute in Hp.
    repeat (destruct Hp as [<-|Hp]; [reflexivity|]). destruct Hp.
Defined.

(** ** The coverage pass of the rigger *)

Lemma inverse_square_ok (dist : Q) :
  exists w, inverse_square dist = Ok w /\
            w == 1 / Qmax (dist * dist) repsilon /\ 0 < w.
Proof.
  unfold inverse_square.
  pose proof (py_max_ge_r (dist * dist) repsilon) as Hge.
  pose proof repsilon_pos.
  rewrite py_div_ok by lra. eexists. split; [reflexivity|]. split.
  - now rewrite py_max_Qmax.
  - apply Qlt_shift_div_l; lra.
Qed.

Section Coverage.
Context `{Mathutils}.

Lemma kd_reverse_vertex_writes (kd : kdtree) (iv : nat * option vec3) :
  writes (fun _ key => key = fst iv) (kd_reverse_vertex kd iv).
Proof.
  unfold kd_reverse_vertex.
  apply mbind_writes; [apply lift_writes|]. intros vert.
  apply for_each_writes. intros p _. now apply accumulate_writes.
Qed.

Lemma verts_enum_base (geom : Geometry) (n : nat) (x : nat * option vec3) :
  subset geom = None ->
  verts_enum geom !! n = Some x <->
  fst x = n /\ exists vert, snd x = Some vert /\ verts geom !! n = Some vert.
Proof.
  intros Hs. unfold verts_enum. rewrite Hs. rewrite list_lookup_fmap. split.
  - destruct (enumerate (verts geom) !! n) as [[i v]|] eqn:E; [|discriminate].
    intros [= <-]. apply lookup_enumerate in E as [E1 E2]. simpl in *.
    split; [exact E1|]. now exists v.
  - intros (Hi & vert & Hv & Hvert).
    assert (E : enumerate (verts geom) !! n = Some (n, vert)) by now apply lookup_enumerate.
    rewrite E. simpl. destruct x as [i o]. simpl in *. congruence.
Qed.

Lemma kd_reverse_vertex_ok (asset_verts : list vec3) (i : nat) (vert : vec3) (s1 : store) :
  length s1 = length asset_verts ->
  exists s2, kd_reverse_vertex (kdtree_from_verts asset_verts) (i, Some vert) s1 = (s2, Ok tt).
Proof.
  intros Hlen. unfold kd_reverse_vertex. simpl. unfold mbind, lift.
  apply (for_each_accumulate_ok kd_index (fun _ => i)
           (fun p old => do c <- inverse_square (kd_dist p); Ok (old + c))).
  - intros p Hp. apply find_n_index_in in Hp.
    rewrite kdtree_from_verts_indices in Hp. apply in_seq in Hp. lia.
  - intros p old _. destruct (inverse_square_ok (kd_dist p)) as (w & -> & _).
    eexists. reflexivity.
Qed.

(** C4: on rows that number the asset vertices, [_calc_weights_kd_reverse]
    returns, and for every character vertex [i] and each of the (up to) four
    asset vertices nearest to it, the row of that asset vertex holds an entry
    for [i]: what [d.get(i, 0)] read before the pass plus the positive weight
    [1 / max(dist**2, 1e-5)].  With at least one asset vertex, every
    character vertex is thus a target of some row; with at least four, of
    four rows. *)
Theorem calc_weights_kd_reverse_covers (geom : Geometry) (asset_verts : list vec3)
    (s : store) :
  subset geom = None ->
  length s = length asset_verts ->
  exists s',
    RiggerFitCalculator._calc_weights_kd_reverse geom asset_verts s = (s', Ok tt) /\
    forall i vert, verts geom !! i = Some vert ->
      let near := find_n (kdtree_from_verts asset_verts) vert 4 in
      n_nearest (kdtree_from_verts asset_verts) vert 4 near /\
      length near = Nat.min 4 (length asset_verts) /\
      NoDup (map kd_index near) /\
      (forall p, In p near ->
         (kd_index p < length asset_verts)%nat /\
         exists w, inverse_square (kd_dist p) = Ok w /\
                   w == 1 / Qmax (kd_dist p * kd_dist p) repsilon /\
                   0 < w /\
                   entry s' (kd_index p) i = Some (entry_or_zero s (kd_index p) i + w)) /\
      (asset_verts <> [] -> exists row w, entry s' row i = Some w).
Proof.
  intros Hbase Hlen.
  set (kd := kdtree_from_verts asset_verts).
  assert (Hok : exists s', RiggerFitCalculator._calc_weights_kd_reverse geom asset_verts s = (s', Ok tt)).
  { unfold RiggerFitCalculator._calc_weights_kd_reverse.
    apply (for_each_ok (fun _ _ => True)).
    - intros x _. eapply writes_weaken; [|apply kd_reverse_vertex_writes]. auto.
    - intros x s1 Hx Hl. apply list_elem_of_In, list_elem_of_lookup in Hx as [n Hx].
      apply (verts_enum_base geom n x Hbase) in Hx as (Hi & vert & Hv & _).
      destruct x as [i o]. simpl in *. subst o.
      apply kd_reverse_vertex_ok. congruence. }
  destruct Hok as [s' Hrun]. exists s'. split; [exact Hrun|].
  intros i vert Hvert near.
  assert (Hnd : NoDup (map kd_index near)).
  { apply find_n_NoDup. unfold kd. rewrite kdtree_from_verts_indices. apply NoDup_seq. }
  assert (Hnear : n_nearest kd vert 4 near) by apply find_n_nearest.
  assert (Hlen_near : length near = Nat.min 4 (length asset_verts)).
  { destruct Hnear as [Hl _]. unfold kd in Hl. now rewrite length_kdtree_from_verts in Hl. }
  assert (Hcells : forall p, In p near ->
     (kd_index p < length asset_verts)%nat /\
     exists w, inverse_square (kd_dist p) = Ok w /\
               w == 1 / Qmax (kd_dist p * kd_dist p) repsilon /\
               0 < w /\
               entry s' (kd_index p) i = Some (entry_or_zero s (kd_index p) i + w)).
  { unfold RiggerFitCalculator._calc_weights_kd_reverse in Hrun. fold kd in Hrun.
    destruct (for_each_independent (fun x _ key => key = fst x)
                (kd_reverse_vertex kd) (verts_enum geom) s s')
      with (n := i) (x := (i, Some vert)) as (s1 & s2 & Hbody & Hent & _).
    - intros x _. apply kd_reverse_vertex_writes.
    - intros n m x y row key Hne Hx Hy -> E.
      apply (verts_enum_base geom n x Hbase) in Hx as [Hx _].
      apply (verts_enum_base geom m y Hbase) in Hy as [Hy _]. congruence.
    - exact Hrun.
    - apply (verts_enum_base geom i _ Hbase). simpl. split; [reflexivity|]. now exists vert.
    - unfold kd_reverse_vertex in Hbody. simpl in Hbody.
      unfold mbind, lift in Hbody. fold near in Hbody.
      intros p Hp. split.
      { apply find_n_index_in in Hp. unfold kd in Hp.
        rewrite kdtree_from_verts_indices in Hp. apply in_seq in Hp. lia. }
      destruct (for_each_accumulate_once kd_index (fun _ => i)
                  (fun p old => do c <- inverse_square (kd_dist p); Ok (old + c))
                  near s1 s2) with (x := p) as (v & Hv & He).
      + assert (Heq : map (fun x : kd_item => (kd_index x, i)) near
                      = (fun k => (k, i)) <$> (kd_index <$> near)).
        { now rewrite <- list_fmap_compose. }
        rewrite Heq. apply NoDup_fmap_2; [|exact Hnd].
        intros a b [=]. assumption.
      + exact Hbody.
      + exact Hp.
      + destruct (inverse_square_ok (kd_dist p)) as (w & Hw & Hval & Hpos).
        rewrite Hw in Hv. simpl in Hv. injection Hv as <-.
        exists w. split; [exact Hw|]. split; [exact Hval|]. split; [exact Hpos|].
        destruct (Hent (kd_index p) i eq_refl) as [E1 E2].
        rewrite E2, He. unfold entry_or_zero. now rewrite E1. }
  split; [exact Hnear|]. split; [exact Hlen_near|]. split; [exact Hnd|].
  split; [exact Hcells|].
  intros Hne. destruct near as [|p near'] eqn:Enear.
  - destruct asset_verts; [congruence|]. simpl in Hlen_near. lia.
  - destruct (Hcells p (or_introl eq_refl)) as (_ & w & _ & _ & _ & He).
    eauto.
Qed.

End Coverage.

(** A run of C4's theorem: the triangle as the character, an asset of four
    vertices, on empty rows. *)
Lemma calc_weights_kd_reverse_covers_witness :
  exists s',
    RiggerFitCalculator._calc_weights_kd_reverse (H := triangle_mathutils) triangle
      [(0, 0, 0); (1, 0, 0); (0, 1, 0); (0, 0, 1)] [[]; []; []; []] = (s', Ok tt) /\
    exists row w, entry s' row 2 = Some w.
Proof.
  destruct (calc_weights_kd_reverse_covers (H := triangle_mathutils) triangle
              [(0, 0, 0); (1, 0, 0); (0, 1, 0); (0, 0, 1)] [[]; []; []; []]
              eq_refl eq_refl) as (s' & Hrun & Hcov).
  exists s'. split; [exact Hrun|].
  destruct (Hcov 2%nat (0, 1, 0) eq_refl) as (_ & _ & _ & _ & Hex).
  apply Hex. discriminate.
Defined.

(** ** The rigger's [get_weights] *)

Section Rigger.
Context `{Mathutils}.

Lemma calc_weights_reverse_ndarray (a : list vec3) (asset_geom : Geometry)
    (reduce_func : Q -> Q -> Q) (bvh : BVHTree) (s : store) :
  Geometry_bvh asset_geom = Ok bvh ->
  calc_weights_reverse (PyNdarray a) asset_geom reduce_func s = (s, Err AttributeError).
Proof.
  intros Hbvh. unfold calc_weights_reverse, mbind, lift. now rewrite Hbvh.
Qed.

Lemma calc_weights_reverse_ndarray_raises (a : list vec3) (asset_geom : Geometry)
    (reduce_func : Q -> Q -> Q) (s : store) :
  exists e, run_pass (calc_weights_reverse (PyNdarray a) asset_geom reduce_func) s = Err e.
Proof.
  unfold run_pass, calc_weights_reverse, mbind, lift.
  destruct (Geometry_bvh asset_geom); simpl; eexists; reflexivity.
Qed.

(** C3 fails on the code: [RiggerFitCalculator.get_weights] hands the vertex
    array [cg.verts] to [calc_weights_reverse] where a [Geometry] is expected,
    so the call raises [AttributeError] at [char_geom.verts_enum()] and no
    rows are returned, summed or not.  Whatever the input, [get_weights]
    raises; when the earlier passes go through, with [AttributeError]. *)
Theorem rigger_get_weights_raises (geom : Geometry) (afd : AssetFitData) :
  (exists e, RiggerFitCalculator.get_weights geom afd = Err e) /\
  forall kd w1 w2 bvh,
    Geometry_kd geom = Ok kd ->
    calc_weights_kd kd (verts (afd_geom afd)) repsilon 16 = Ok w1 ->
    run_pass (RiggerFitCalculator._calc_weights_kd_reverse geom (verts (afd_geom afd))) w1 = Ok w2 ->
    Geometry_bvh (afd_geom afd) = Ok bvh ->
    RiggerFitCalculator.get_weights geom afd = Err AttributeError.
Proof.
  unfold RiggerFitCalculator.get_weights. cbv zeta. split.
  - destruct (Geometry_kd geom) as [kd|e]; simpl; [|now exists e].
    destruct (calc_weights_kd kd _ repsilon 16) as [w1|e]; simpl; [|now exists e].
    destruct (run_pass (RiggerFitCalculator._calc_weights_kd_reverse geom _) w1) as [w2|e]; simpl;
      [|now exists e].
    destruct (calc_weights_reverse_ndarray_raises (verts geom) (afd_geom afd) Qplus w2)
      as [e ->].
    now exists e.
  - intros kd w1 w2 bvh Hkd Hw1 Hw2 Hbvh.
    rewrite Hkd. simpl. rewrite Hw1. simpl. rewrite Hw2. simpl.
    unfold run_pass. now rewrite (calc_weights_reverse_ndarray _ _ _ bvh).
Qed.

End Rigger.

(** The failing input of C3: the triangle as the character and as the
    asset. *)
Lemma rigger_get_weights_raises_witness :
  RiggerFitCalculator.get_weights (H := triangle_mathutils) triangle shirt = Err AttributeError.
Proof.
  eapply (rigger_get_weights_raises (H := triangle_mathutils) triangle shirt).
  - reflexivity.
  - vm_compute. reflexivity.
  - vm_compute. reflexivity.
  - reflexivity.
Defined.

(** ** The cache of geometries *)

Lemma get_asset_geom_builds (st : session) (data : fit_source) :
  no_string_keys st ->
  FitCalculator._get_asset_geom st data =
    ({| geom_cache := <[inr (mesh_id (get_mesh data)) := geom_mesh (get_mesh data)]>
                        (geom_cache st);
        geoms_built := S (geoms_built st) |},
     geom_mesh (get_mesh data)).
Proof.
  intros Hno. unfold FitCalculator._get_asset_geom. now rewrite Hno.
Qed.

Lemma get_asset_geom_no_string_keys (st : session) (data : fit_source) :
  no_string_keys st -> no_string_keys (fst (FitCalculator._get_asset_geom st data)).
Proof.
  intros Hno. rewrite get_asset_geom_builds by exact Hno. simpl.
  intros key. simpl. rewrite lookup_insert_ne by discriminate. apply Hno.
Qed.

(** C7 fails on the code: [_get_asset_geom] looks the cache up under the
    string [key] and stores the new [Geometry] under the mesh object [data].
    A cache that starts without string keys (as the empty cache of a new
    calculator does) never gets one, every lookup misses, and a second call
    with the same mesh builds a second [Geometry]. *)
Theorem get_asset_geom_rebuilds (st : session) (data : fit_source) :
  no_string_keys st ->
  let st1 := fst (FitCalculator._get_asset_geom st data) in
  let st2 := fst (FitCalculator._get_asset_geom st1 data) in
  geoms_built st1 = S (geoms_built st) /\
  geoms_built st2 = S (S (geoms_built st)) /\
  geom_cache st1 !! (inl (default (mesh_name (get_mesh data))
                            (charmorph_fit_id (get_mesh data))) : cache_key) = None /\
  no_string_keys st2.
Proof.
  intros Hno st1 st2.
  pose proof (get_asset_geom_no_string_keys st data Hno) as Hno1. fold st1 in Hno1.
  pose proof (get_asset_geom_no_string_keys st1 data Hno1) as Hno2. fold st2 in Hno2.
  assert (E1 : geoms_built st1 = S (geoms_built st)).
  { unfold st1. now rewrite get_asset_geom_builds. }
  split; [exact E1|]. split.
  - unfold st2. rewrite get_asset_geom_builds by exact Hno1. simpl. now rewrite E1.
  - split; [apply Hno1|exact Hno2].
Qed.

(** The failing input of C7: two calls for the mesh "shirt" on a new
    session. *)
Lemma get_asset_geom_rebuilds_witness :
  geoms_built (fst (FitCalculator._get_asset_geom (fst (FitCalculator._get_asset_geom new_session (OfAssetFitData shirt)))
                      (OfAssetFitData shirt))) = 2%nat.
Proof.
  apply (get_asset_geom_rebuilds new_session (OfAssetFitData shirt)).
  intros key. apply lookup_empty.
Defined.

(** ** Construction of geometries *)

(** C8 (as amended): constructing a geometry validates nothing and never
    fails.  For any vertices and faces, out-of-range face indices and an
    empty vertex array included, [Geometry] and [SubsetGeometry] return an
    object that holds them as given; and [_get_asset_geom], on a calculator
    that starts empty, builds the geometry of any mesh and stores it in the
    cache at once, before any spatial index is requested.  What a later
    request of an index does with a malformed geometry is the business of
    the index builders, outside [fit_calc.py]: by then the geometry has been
    built and retained. *)
Theorem geometry_is_not_validated (verts_ : list vec3) (faces_ : list (list nat))
    (subset_ : list nat) (mesh : Mesh) :
  Geometry_init verts_ faces_ =
    Ok {| verts := verts_; faces := faces_; subset := None |} /\
  SubsetGeometry_init verts_ faces_ subset_ =
    Ok {| verts := verts_; faces := faces_; subset := Some subset_ |} /\
  let built := FitCalculator._get_asset_geom new_session (OfMesh mesh) in
  snd built = {| verts := mesh_basis mesh; faces := mesh_polygons mesh; subset := None |} /\
  geom_cache (fst built) !! (inr (mesh_id mesh) : cache_key) = Some (snd built) /\
  geoms_built (fst built) = 1%nat.
Proof.
  split; [reflexivity|]. split; [reflexivity|]. cbv zeta.
  rewrite get_asset_geom_builds by (intros key; apply lookup_empty).
  simpl. split; [reflexivity|]. split; [|reflexivity].
  apply lookup_insert_eq.
Qed.

(** C8 as first stated fails: a mesh without vertices whose one polygon
    names the vertices 0, 1 and 2 is made a geometry without any failure,
    and the geometry is in the cache before any index is requested.  So
    construction does not fail, and if the request of an index fails later,
    the malformed geometry has been retained all the same. *)
Lemma geometry_accepts_malformed_mesh :
  exists g st',
    Geometry_init (mesh_basis hollow_mesh) (mesh_polygons hollow_mesh) = Ok g /\
    FitCalculator._get_asset_geom new_session (OfMesh hollow_mesh) = (st', g) /\
    verts g = [] /\ faces g = [[0; 1; 2]%nat] /\
    geom_cache st' !! (inr (mesh_id hollow_mesh) : cache_key) = Some g.
Proof.
  eexists. eexists. split; [reflexivity|].
  split; [reflexivity|]. split; [reflexivity|]. split; [reflexivity|].
  apply lookup_insert_eq.
Qed.

(** ** The generic pipeline *)

Section Pipeline.
Context `{Mathutils}.

Lemma calc_weights_kd_length (kd : kdtree) (verts_ : list vec3) (_epsilon : Q) (n : nat)
    (rows : list wdict) :
  calc_weights_kd kd verts_ _epsilon n = Ok rows -> length rows = length verts_.
Proof.
  revert rows. induction verts_ as [|v vs IH]; intros rows; simpl.
  - now intros [= <-].
  - destruct (kd_row kd v _epsilon n); simpl; [|discriminate].
    destruct (calc_weights_kd kd vs _epsilon n) as [rs|]; simpl; [|discriminate].
    intros [= <-]. simpl. f_equal. now apply IH.
Qed.

Lemma run_pass_length (P : nat -> nat -> Prop) (m : M unit) (s s' : store) :
  writes P m -> run_pass m s = Ok s' -> length s' = length s.
Proof.
  intros Hw. unfold run_pass. destruct (m s) as [s1 [[]|e]] eqn:E; [|discriminate].
  intros [= <-]. eapply writes_length; [exact Hw|exact E].
Qed.

Lemma calc_weights_direct_writes (cg : Geometry) (asset_verts : list vec3) :
  writes (fun _ _ => True) (calc_weights_direct cg asset_verts).
Proof.
  unfold calc_weights_direct. apply mbind_writes; [apply lift_writes|]. intros bvh.
  apply for_each_writes. intros iv _.
  eapply writes_weaken; [|apply direct_vertex_writes]. auto.
Qed.

Lemma calc_weights_reverse_writes (char_geom : pyobj) (asset_geom : Geometry)
    (reduce_func : Q -> Q -> Q) :
  writes (fun _ _ => True) (calc_weights_reverse char_geom asset_geom reduce_func).
Proof.
  unfold calc_weights_reverse. apply mbind_writes; [apply lift_writes|]. intros bvh.
  apply mbind_writes; [apply lift_writes|]. intros enum.
  apply for_each_writes. intros ic _.
  eapply writes_weaken; [|apply reverse_vertex_writes]. auto.
Qed.

(** The passes leave one row per asset vertex. *)
Lemma fit_passes_length (st st' : session) (cg : Geometry) (asset_verts : list vec3)
    (afd : option AssetFitData) (weights : store) :
  FitCalculator.fit_passes st cg asset_verts afd = (st', Ok weights) ->
  length weights = length asset_verts.
Proof.
  unfold FitCalculator.fit_passes.
  destruct (Geometry_kd cg) as [kd|]; simpl; [|discriminate].
  destruct (calc_weights_kd kd asset_verts epsilon 16) as [w0|] eqn:Hkd; simpl;
    [|discriminate].
  apply calc_weights_kd_length in Hkd.
  destruct (run_pass (calc_weights_direct cg asset_verts) w0) as [w1|] eqn:Hd;
    [|discriminate].
  apply (run_pass_length _ _ _ _ (calc_weights_direct_writes cg asset_verts)) in Hd.
  destruct afd as [a|].
  - destruct (FitCalculator._get_asset_geom st (OfAssetFitData a)) as [st1 ag].
    intros [= _ Hr].
    apply (run_pass_length _ _ _ _ (calc_weights_reverse_writes _ _ _)) in Hr. congruence.
  - intros [= _ <-]. congruence.
Qed.

(** C1: when the three passes of [_calc_weights_internal] leave rows that are
    nonempty and whose entries kept by [weights_convert] have a positive sum
    (as they have when the whole row has, by [prune_positive]), and the
    flattened arrays fit the [uint32] offsets, [weights_convert] followed by
    [weights_normalize] returns a matrix with one row per asset vertex, every
    cell finite, and every row summing to 1: exactly in rational arithmetic,
    hence within [1e-6]. *)
Theorem calc_weights_internal_rows_sum_to_one
    (st : session) (cg : Geometry) (asset_verts : list vec3)
    (afd : option AssetFitData) (st' : session) (weights : store) :
  FitCalculator.fit_passes st cg asset_verts afd = (st', Ok weights) ->
  Forall (fun d => d <> [] /\
                   forall row, prune true d = Ok row -> 0 < Qsum (Dict.values row)) weights ->
  (Z.of_nat (length (concat weights)) < two32)%Z ->
  (asset_verts <> [] ->
   exists m, FitCalculator._calc_weights_internal st cg asset_verts afd = (st', Ok m)) /\
  forall positions idx cells,
    FitCalculator._calc_weights_internal st cg asset_verts afd = (st', Ok (positions, idx, cells)) ->
    exists ws,
      cells = map Finite ws /\
      length positions = length asset_verts /\
      forall i, (i < length asset_verts)%nat ->
        Qsum (matrix_row positions ws i) == 1 /\
        Qabs (Qsum (matrix_row positions ws i) - 1) <= 1 # 1000000.
Proof.
  intros Hpass Hrows Hb.
  pose proof (fit_passes_length _ _ _ _ _ _ Hpass) as Hlenw.
  unfold FitCalculator._calc_weights_internal. rewrite Hpass. simpl rbind.
  split.
  - intros Hne.
    assert (Hne' : weights <> []) by (destruct weights, asset_verts; simpl in *; congruence).
    destruct (convert_normalize_spec weights Hne' Hrows Hb)
      as (rows & _ & _ & _ & idx & ->).
    eexists. reflexivity.
  - intros positions idx cells Hret. rewrite <- Hlenw.
    destruct weights as [|d weights']; [discriminate|].
    set (ws0 := d :: weights') in *.
    assert (Hne : ws0 <> []) by discriminate.
    destruct (convert_normalize_spec ws0 Hne Hrows Hb)
      as (rows & Hlen & Hpos & Hb' & idx' & Hcn).
    rewrite Hcn in Hret. injection Hret as <- <- <-.
    eexists. split; [reflexivity|].
    split; [rewrite length_offsets; exact Hlen|].
    intros i Hi.
    assert (Hrow : exists r, rows !! i = Some r).
    { apply lookup_lt_is_Some. lia. }
    destruct Hrow as [r Hr].
    assert (Hsum : Qsum (matrix_row (offsets 0 rows)
              (concat (map (fun r => map (fun x => x / Qsum r) r) rows)) i) == 1).
    { pose proof (matrix_row_offsets rows (map (fun r => map (fun x => x / Qsum r) r) rows)
                 [] i (map (fun x => x / Qsum r) r)) as Hmr.
      simpl in Hmr. rewrite Hmr.
      - apply Qsum_normalized.
        apply (Forall_lookup_1 _ _ _ _ Hpos) in Hr. tauto.
      - clear. induction rows; simpl; constructor; [now rewrite length_map|assumption].
      - rewrite list_lookup_fmap, Hr. reflexivity.
      - exact Hb'. }
    split; [exact Hsum|]. rewrite Hsum. vm_compute. discriminate.
Qed.

End Pipeline.

(** A run of C1's theorem: the triangle, fitted to an asset of two vertices,
    one on the face and one three units away. *)
Lemma calc_weights_internal_rows_sum_to_one_witness :
  exists positions idx ws,
    FitCalculator._calc_weights_internal (H := triangle_mathutils) new_session triangle
      [(1 # 4, 1 # 4, 0); (3, 0, 0)] None
    = (new_session, Ok (positions, idx, map Finite ws)) /\
    Qsum (matrix_row positions ws 0) == 1 /\
    Qsum (matrix_row positions ws 1) == 1.
Proof.
  eassert (Hpass : FitCalculator.fit_passes (H := triangle_mathutils) new_session triangle
                     [(1 # 4, 1 # 4, 0); (3, 0, 0)] None = (_, Ok _))
    by (vm_compute; reflexivity).
  destruct (calc_weights_internal_rows_sum_to_one _ _ _ _ _ _ Hpass) as [Htot Hrows].
  - apply Forall_cons; split; [split; [discriminate|]|].
    + intros row Hrow. refine (proj2 (prune_positive _ row _ Hrow)); vm_compute; reflexivity.
    + apply Forall_cons; split; [split; [discriminate|]|apply Forall_nil; exact I].
      intros row Hrow. refine (proj2 (prune_positive _ row _ Hrow)); vm_compute; reflexivity.
  - vm_compute. reflexivity.
  - destruct Htot as [[[positions idx] cells] Hm]; [discriminate|].
    destruct (Hrows positions idx cells Hm) as (ws & -> & _ & Hsum).
    exists positions, idx, ws. split; [exact Hm|].
    split; apply Hsum; simpl; lia.
Defined.

(** ** Worked examples *)

(** [numpy.add.reduceat] where an index is not below the next one: the entry
    is the single cell at that index. *)
Example np_add_reduceat_crossing :
  np_add_reduceat [1; 2; 3] [2; 0]%Z = Ok [3 + 0; 1 + (2 + (3 + 0))].
Proof. reflexivity. Qed.

(** Pruning keeps [1] and [1/32] and drops [1/64]; the second row starts at
    offset 2. *)
Example weights_convert_prunes :
  weights_convert [[(0%nat, 1); (3%nat, 1 # 64); (2%nat, 1 # 32)]; [(5%nat, 2)]] true
  = Ok ([0; 2]%Z, [0; 2; 5]%Z, [1; 1 # 32; 2]).
Proof. reflexivity. Qed.

(** An empty matrix cannot be normalized: [positions[-1]] does not exist. *)
Example weights_normalize_no_rows : weights_normalize [] [] = Err IndexError.
Proof. reflexivity. Qed.

(** A row of zeros is divided by zero: numpy leaves non-finite cells. *)
Example weights_normalize_zero_row :
  weights_normalize [0%Z] [0; 0] = Ok [NonFinite; NonFinite].
Proof. reflexivity. Qed.

(** A subset geometry enumerates its own ids, in its own order; an id out of
    range fails the construction of the nearest-vertex index. *)
Example subset_kd :
  Geometry_kd {| verts := verts triangle; faces := []; subset := Some [2; 0]%nat |}
    = Ok [((0, 1, 0), 2%nat); ((0, 0, 0), 0%nat)] /\
  Geometry_kd {| verts := verts triangle; faces := []; subset := Some [2; 0; 5]%nat |}
    = Err IndexError.
Proof. split; reflexivity. Qed.

(** The scenario of section 8: a character made of one triangle and an asset
    of one point at its centroid give the normalized weights 1/3, 1/3, 1/3. *)
Example centroid_weights :
  exists ws,
    snd (FitCalculator._calc_weights_internal
           (H := scripted_mathutils
                   [((1 # 3, 1 # 3, 0), ((1 # 3, 1 # 3, 0), 0%nat, 0))]
                   [1 # 3; 1 # 3; 1 # 3])
           new_session triangle [(1 # 3, 1 # 3, 0)] None)
    = Ok ([0%Z], [0; 1; 2]%Z, map Finite ws) /\
    Forall (Qeq (1 # 3)) ws /\ length ws = 3%nat.
Proof.
  exists (replicate 3 (27000000000000000000000000000000 # 81000000000000000000000000000000)).
  split; [vm_compute; reflexivity|].
  split; [|reflexivity]. repeat (constructor; [reflexivity|]). constructor.
Qed.

(** A second call for the same mesh misses the cache: the only key stored is
    the mesh object. *)
Example cache_after_two_calls :
  let st := fst (FitCalculator._get_asset_geom
                   (fst (FitCalculator._get_asset_geom new_session (OfAssetFitData shirt)))
                   (OfAssetFitData shirt)) in
  map fst (map_to_list (geom_cache st)) = [inr 7%nat] /\ geoms_built st = 2%nat.
Proof. vm_compute. split; reflexivity. Qed.

(** * Further properties *)

(** ** [weights_convert]: errors and reading the matrix back *)

Lemma lookup_map_Some {A B : Type} (f : A -> B) (l : list A) (i : nat) (x : A) :
  l !! i = Some x -> map f l !! i = Some (f x).
Proof. intros Hl. rewrite list_lookup_fmap, Hl. reflexivity. Qed.

Lemma prune_uncut (d : wdict) :
  prune false d = Ok (List.filter (fun kv => Qgeb (snd kv) 0) d).
Proof. reflexivity. Qed.

Lemma prune_cut_empty (d : wdict) : prune true d = Err ValueError <-> d = [].
Proof.
  unfold prune. destruct d as [|[k v] d]; simpl; [tauto|].
  split; [discriminate|discriminate].
Qed.

Lemma prune_error (cut : bool) (d : wdict) (e : exn) :
  prune cut d = Err e -> cut = true /\ d = [] /\ e = ValueError.
Proof.
  unfold prune. destruct cut; simpl; [|discriminate].
  destruct d as [|[k v] d]; simpl; [|discriminate].
  intros [= <-]. auto.
Qed.

Lemma rmapM_error {A B : Type} (f : A -> result B) (l : list A) (e : exn) :
  rmapM f l = Err e -> exists x, In x l /\ f x = Err e.
Proof.
  induction l as [|x l IH]; simpl; [discriminate|].
  destruct (f x) as [y|e'] eqn:Ef; simpl.
  - destruct (rmapM f l) as [ys|e'']; simpl; [discriminate|].
    intros [= <-]. destruct (IH eq_refl) as (x' & Hin & Hx'). exists x'. auto.
  - intros [= <-]. exists x. auto.
Qed.

Lemma rmapM_first_error {A B : Type} (f : A -> result B) (l : list A) (x : A) (e : exn) :
  In x l -> f x = Err e -> (forall y e', f y = Err e' -> e' = e) ->
  rmapM f l = Err e.
Proof.
  intros Hin Hx Huniq. induction l as [|y l IH]; [destruct Hin|]. simpl.
  destruct (f y) as [b|e'] eqn:Ey; simpl.
  - destruct Hin as [->|Hin]; [congruence|].
    rewrite (IH Hin). reflexivity.
  - f_equal. eapply Huniq. exact Ey.
Qed.

(** X2: [weights_convert] raises only with [cut=True], only [ValueError],
    and exactly when some row is an empty dict ([max()] of no value); with
    [cut=False] it returns for every list of rows, empty rows included. *)
Theorem weights_convert_raises_iff_empty_row (weights : list wdict) :
  (weights_convert weights true = Err ValueError <-> In [] weights) /\
  (forall cut e, weights_convert weights cut = Err e -> cut = true /\ e = ValueError) /\
  (exists m, weights_convert weights false = Ok m).
Proof.
  split; [|split].
  - rewrite weights_convert_spec. split.
    + destruct (rmapM (prune true) weights) as [rows|e] eqn:E; simpl; [discriminate|].
      intros _. apply rmapM_error in E as (d & Hin & Hd).
      apply prune_error in Hd as (_ & -> & _). exact Hin.
    + intros Hin.
      rewrite (rmapM_first_error (prune true) weights [] ValueError Hin); [reflexivity| |].
      * reflexivity.
      * intros y e' Hy. now apply prune_error in Hy as (_ & _ & ->).
  - intros cut e. rewrite weights_convert_spec.
    destruct (rmapM (prune cut) weights) as [rows|e'] eqn:E; simpl; [discriminate|].
    intros [= <-]. apply rmapM_error in E as (d & _ & Hd).
    apply prune_error in Hd as (-> & _ & ->). auto.
  - rewrite weights_convert_spec.
    destruct (rmapM (prune false) weights) as [rows|e] eqn:E; simpl; [eexists; reflexivity|].
    apply rmapM_error in E as (d & _ & Hd). rewrite prune_uncut in Hd. discriminate.
Qed.

Lemma offsets_same_length {A B : Type} (rows : list (list A)) (rows' : list (list B))
    (start : nat) :
  Forall2 (fun r r' => length r = length r') rows rows' ->
  offsets start rows = offsets start rows'.
Proof.
  intros HF. revert start. induction HF as [|r r' rows rows' Hl _ IH]; intros start;
    simpl; [reflexivity|]. rewrite Hl. f_equal. apply IH.
Qed.

Lemma Forall2_map_same_length {A B : Type} (f : list A -> list B) (rows : list (list A)) :
  (forall r, length (f r) = length r) ->
  Forall2 (fun r r' => length r = length r') rows (map f rows).
Proof.
  intros Hf. induction rows; simpl; constructor; [now rewrite Hf|assumption].
Qed.

Lemma filter_total_length {A : Type} (keep : A -> bool) (rows : list (list A)) :
  (length (concat (map (List.filter keep) rows)) <= length (concat rows))%nat.
Proof.
  induction rows as [|r rows IH]; simpl; [lia|].
  rewrite !length_app. pose proof (List.filter_length_le keep r). lia.
Qed.

(** X1: with [cut=False], row [i] of the matrix [weights_convert] returns
    holds, in the order of the dict, the entries of [weights[i]] whose weight
    is not negative (a negative weight is dropped, without any division);
    a row without negative weights is read back whole. *)
Theorem weights_convert_uncut_reads_back (weights : list wdict) :
  (Z.of_nat (length (concat weights)) < two32)%Z ->
  exists positions idx wresult,
    weights_convert weights false = Ok (positions, idx, wresult) /\
    length positions = length weights /\
    length idx = length wresult /\
    forall i d, weights !! i = Some d ->
      let kept := List.filter (fun kv => Qgeb (snd kv) 0) d in
      matrix_row positions wresult i = Dict.values kept /\
      matrix_row positions idx i = map (fun k => u32 (Z.of_nat k)) (Dict.keys kept) /\
      (forall kv, In kv kept <-> In kv d /\ 0 <= snd kv) /\
      ((forall kv, In kv d -> 0 <= snd kv) -> kept = d).
Proof.
  intros Hb. set (rows := map (List.filter (fun kv => Qgeb (snd kv) 0)) weights).
  pose proof (weights_convert_uncut weights) as Hconv. fold rows in Hconv. simpl in Hconv.
  do 3 eexists. split; [exact Hconv|].
  assert (Hb' : (Z.of_nat (length (concat rows)) < two32)%Z).
  { pose proof (filter_total_length (fun kv => Qgeb (snd kv) 0) weights). unfold rows. lia. }
  split; [rewrite length_offsets; unfold rows; apply length_map|].
  split.
  { rewrite length_map. unfold rows. clear. induction weights as [|d ws IH]; simpl;
      [reflexivity|]. unfold Dict.keys, Dict.values in *.
    rewrite !length_app, !length_map. now f_equal. }
  intros i d Hd kept.
  assert (Hrow : rows !! i = Some kept).
  { apply (lookup_map_Some (List.filter (fun kv : nat * Q => Qgeb (snd kv) 0))), Hd. }
  split; [|split; [|split]].
  - pose proof (matrix_row_offsets rows (map Dict.values rows) [] i (Dict.values kept)) as Hmr.
    simpl in Hmr. apply Hmr.
    + apply Forall2_map_same_length. intros r. apply length_map.
    + apply (lookup_map_Some _ rows), Hrow.
    + exact Hb'.
  - assert (Hcat : map (fun k => u32 (Z.of_nat k)) (concat (map Dict.keys rows))
                   = concat (map (fun r => map (fun k => u32 (Z.of_nat k)) (Dict.keys r)) rows)).
    { clear. induction rows as [|r rows IH]; simpl; [reflexivity|].
      now rewrite map_app, IH. }
    rewrite Hcat.
    pose proof (matrix_row_offsets rows
                  (map (fun r => map (fun k => u32 (Z.of_nat k)) (Dict.keys r)) rows)
                  [] i (map (fun k => u32 (Z.of_nat k)) (Dict.keys kept))) as Hmr.
    simpl in Hmr. apply Hmr.
    + apply (Forall2_map_same_length
               (fun r : wdict => map (fun k => u32 (Z.of_nat k)) (Dict.keys r))).
      intros r. unfold Dict.keys. now rewrite !length_map.
    + apply (lookup_map_Some
               (fun r : wdict => map (fun k => u32 (Z.of_nat k)) (Dict.keys r)) rows), Hrow.
    + exact Hb'.
  - intros kv. unfold kept. rewrite List.filter_In, Qgeb_spec. reflexivity.
  - intros Hall. unfold kept. clear -Hall. induction d as [|kv d IH]; simpl; [reflexivity|].
    assert (Hkv : Qgeb (snd kv) 0 = true) by (apply Qgeb_spec, Hall; now left).
    rewrite Hkv. f_equal. apply IH. intros kv' Hin. apply Hall. now right.
Qed.

(** A run of X1: a negative weight is dropped, the other rows are read back
    as they are. *)
Lemma weights_convert_uncut_reads_back_witness :
  exists positions idx wresult,
    weights_convert [[(4%nat, 1 # 2); (1%nat, -1)]; [(0%nat, 3)]] false
      = Ok (positions, idx, wresult) /\
    matrix_row positions wresult 0 = [1 # 2] /\
    matrix_row positions wresult 1 = [3].
Proof.
  destruct (weights_convert_uncut_reads_back [[(4%nat, 1 # 2); (1%nat, -1)]; [(0%nat, 3)]])
    as (positions & idx & wresult & Hconv & _ & _ & Hrows); [reflexivity|].
  exists positions, idx, wresult. split; [exact Hconv|]. split.
  - exact (proj1 (Hrows 0%nat _ eq_refl)).
  - exact (proj1 (Hrows 1%nat _ eq_refl)).
Defined.

(** ** [weights_normalize], row by row *)

Lemma np_true_divide_nonzero (x s : Q) : ~ s == 0 -> np_true_divide x s = Finite (x / s).
Proof.
  intros Hs. unfold np_true_divide. destruct (Qeq_bool s 0) eqn:E; [|reflexivity].
  apply Qeq_bool_iff in E. contradiction.
Qed.

Lemma np_true_divide_zero (x s : Q) : s == 0 -> np_true_divide x s = NonFinite.
Proof.
  intros Hs. unfold np_true_divide. apply Qeq_bool_iff in Hs. now rewrite Hs.
Qed.

(** X3: [weights_normalize] works row by row.  On nonempty rows laid out one
    after the other, a row whose sum is not zero is divided by it and then
    sums to 1 (whatever the sign of the sum), and a row whose sum is zero is
    left with non-finite cells only; no row affects another. *)
Theorem weights_normalize_row_by_row (rows : list (list Q)) :
  rows <> [] ->
  Forall (fun r => r <> []) rows ->
  (Z.of_nat (length (concat rows)) < two32)%Z ->
  exists cells,
    weights_normalize (offsets 0 rows) (concat rows) = Ok cells /\
    length cells = length (concat rows) /\
    forall i r, rows !! i = Some r ->
      (~ Qsum r == 0 ->
         matrix_row (offsets 0 rows) cells i = map (fun x => Finite (x / Qsum r)) r /\
         Qsum (map (fun x => x / Qsum r) r) == 1) /\
      (Qsum r == 0 ->
         matrix_row (offsets 0 rows) cells i = map (fun _ => NonFinite) r).
Proof.
  intros Hne HF Hb. eexists. split; [now apply weights_normalize_rows|].
  split.
  { clear. induction rows as [|r rows IH]; simpl; [reflexivity|].
    rewrite !length_app, length_map. now f_equal. }
  intros i r Hr.
  assert (Hmr : matrix_row (offsets 0 rows)
            (concat (map (fun r => map (fun x => np_true_divide x (Qsum r)) r) rows)) i
          = map (fun x => np_true_divide x (Qsum r)) r).
  { pose proof (matrix_row_offsets rows
                  (map (fun r => map (fun x => np_true_divide x (Qsum r)) r) rows)
                  [] i (map (fun x => np_true_divide x (Qsum r)) r)) as H0.
    simpl in H0. apply H0.
    - apply (Forall2_map_same_length
               (fun r : list Q => map (fun x => np_true_divide x (Qsum r)) r)).
      intros r0. apply length_map.
    - apply (lookup_map_Some
               (fun r : list Q => map (fun x => np_true_divide x (Qsum r)) r) rows), Hr.
    - exact Hb. }
  rewrite Hmr. split.
  - intros Hs. split.
    + apply map_ext. intros x. now apply np_true_divide_nonzero.
    + rewrite Qsum_scale. field. exact Hs.
  - intros Hs. apply map_ext. intros x. now apply np_true_divide_zero.
Qed.

(** A run of X3: a row of sum -1, and a row of sum 0. *)
Lemma weights_normalize_row_by_row_witness :
  exists cells,
    weights_normalize (offsets 0 [[1; -2]; [1; -1]]) [1; -2; 1; -1] = Ok cells /\
    matrix_row (offsets 0 [[1; -2]; [1; -1]]) cells 0 = [Finite (1 / (1 + (-2 + 0))); Finite (-2 / (1 + (-2 + 0)))] /\
    matrix_row (offsets 0 [[1; -2]; [1; -1]]) cells 1 = [NonFinite; NonFinite].
Proof.
  destruct (weights_normalize_row_by_row [[1; -2]; [1; -1]])
    as (cells & Hn & _ & Hrows).
  - discriminate.
  - apply Forall_cons; split; [discriminate|].
    apply Forall_cons; split; [discriminate|apply Forall_nil; exact I].
  - reflexivity.
  - exists cells. split; [exact Hn|]. split.
    + apply (proj1 (Hrows 0%nat _ eq_refl)). vm_compute. discriminate.
    + apply (proj2 (Hrows 1%nat _ eq_refl)). reflexivity.
Defined.

(** ** [calc_fit] on a matrix laid out row after row *)

Lemma concat_keys (rows : list wdict) :
  concat (map Dict.keys rows) = map fst (concat rows).
Proof. unfold Dict.keys. symmetry. apply concat_map. Qed.

Lemma concat_values (rows : list wdict) :
  concat (map Dict.values rows) = map snd (concat rows).
Proof. unfold Dict.values. symmetry. apply concat_map. Qed.

Lemma Forall_concat_rows {A : Type} (P : A -> Prop) (rows : list (list A)) :
  Forall (Forall P) rows -> Forall P (concat rows).
Proof.
  induction 1 as [|r rows Hr _ IH]; simpl; [constructor|].
  apply Forall_app. split; assumption.
Qed.

Section CalcFitRows.
Context {V : Type} `{Cell V}.

Lemma np_take_in_range (arr : list V) (keys : list nat) :
  Forall (fun k => (k < length arr)%nat) keys ->
  np_take arr (map Z.of_nat keys) = Ok (map (fun k => default czero (arr !! k)) keys).
Proof.
  induction 1 as [|k keys Hk _ IH]; simpl; [reflexivity|].
  rewrite Nat2Z.id. destruct (lookup_lt_is_Some_2 arr k Hk) as [x Hx].
  rewrite Hx. simpl. rewrite IH. reflexivity.
Qed.

Lemma zip_with_entries (arr : list V) (l : wdict) :
  zip_with (fun x wi => cscale wi x)
           (map (fun k => default czero (arr !! k)) (map fst l)) (map snd l)
  = map (fun kw => cscale (snd kw) (default czero (arr !! fst kw))) l.
Proof. induction l as [|[k w] l IH]; simpl; [reflexivity|]. now rewrite IH. Qed.

(** On a matrix whose rows are laid out one after the other, [calc_fit]
    returns, for every row, the sum of the cells of [arr] the row names, each
    scaled by its weight. *)
Lemma calc_fit_matrix_of_rows (arr : list V) (rows : list wdict) :
  Forall (fun r => r <> []) rows ->
  Forall (Forall (fun kv => (fst kv < length arr)%nat)) rows ->
  (Z.of_nat (length (concat rows)) < two32)%Z ->
  calc_fit arr (matrix_of_rows rows) = Ok (map (row_dot arr) rows).
Proof.
  intros Hne Hkeys Hb. unfold calc_fit, matrix_of_rows.
  rewrite concat_keys, concat_values.
  rewrite np_take_in_range.
  2:{ apply Forall_fmap. apply Forall_concat_rows in Hkeys.
      eapply Forall_impl; [exact Hkeys|]. intros kv Hkv. exact Hkv. }
  simpl rbind. unfold np_mul. rewrite !length_map, Nat.eqb_refl. simpl rbind.
  rewrite zip_with_entries.
  set (g := fun kw : nat * Q => cscale (snd kw) (default czero (arr !! fst kw))).
  rewrite (concat_map g rows).
  rewrite (offsets_same_length rows (map (map g) rows) 0).
  2:{ apply (Forall2_map_same_length (map g)). intros r. apply length_map. }
  pose proof (np_add_reduceat_rows (map (map g) rows) []) as Hred. simpl in Hred.
  rewrite Hred.
  - rewrite map_map. reflexivity.
  - apply Forall_fmap. eapply Forall_impl; [exact Hne|].
    intros r Hr. simpl. destruct r; [congruence|discriminate].
  - rewrite <- (concat_map g rows), length_map. exact Hb.
Qed.

Lemma np_take_ok_in_range (arr : list V) (idx : list Z) (a : list V) :
  np_take arr idx = Ok a -> Forall (fun i => (Z.to_nat i < length arr)%nat) idx.
Proof.
  revert a. induction idx as [|i idx IH]; intros a; simpl; [constructor|].
  destruct (arr !! Z.to_nat i) as [x|] eqn:Ex; simpl; [|discriminate].
  destruct (np_take arr idx) as [xs|]; simpl; [|discriminate].
  intros _. constructor; [|now apply (IH xs)].
  apply lookup_lt_is_Some. now exists x.
Qed.

Lemma np_take_error (arr : list V) (idx : list Z) (e : exn) :
  np_take arr idx = Err e -> e = IndexError.
Proof.
  induction idx as [|i idx IH]; simpl; [discriminate|].
  destruct (arr !! Z.to_nat i); simpl; [|now intros [= <-]].
  destruct (np_take arr idx); simpl; [discriminate|].
  intros [= <-]. now apply IH.
Qed.

Lemma np_add_reduceat_ok (a : list V) (indices : list Z) (r : list V) :
  np_add_reduceat a indices = Ok r ->
  length r = length indices /\
  Forall (fun p => (0 <= p < Z.of_nat (length a))%Z) indices.
Proof.
  revert r. induction indices as [|i rest IH]; intros r.
  - simpl. intros [= <-]. split; [reflexivity|constructor].
  - cbn [np_add_reduceat].
    destruct (Z.leb 0 i && Z.ltb i (Z.of_nat (length a)))%bool eqn:Ei; simpl;
      [|discriminate].
    destruct (np_add_reduceat a rest) as [r'|]; simpl; [|discriminate].
    intros [= <-]. destruct (IH r' eq_refl) as [Hl HF]. split; [simpl; now f_equal|].
    constructor; [|exact HF]. apply andb_true_iff in Ei as [H1 H2]. lia.
Qed.

Lemma np_add_reduceat_error (a : list V) (indices : list Z) (e : exn) :
  np_add_reduceat a indices = Err e -> e = IndexError.
Proof.
  induction indices as [|i rest IH]; [discriminate|]. cbn [np_add_reduceat].
  destruct (Z.leb 0 i && Z.ltb i (Z.of_nat (length a)))%bool; simpl;
    [|now intros [= <-]].
  destruct (np_add_reduceat a rest); simpl; [discriminate|].
  intros [= <-]. now apply IH.
Qed.

Lemma np_add_reduceat_defined (a : list V) (indices : list Z) :
  Forall (fun p => (0 <= p < Z.of_nat (length a))%Z) indices ->
  exists r, np_add_reduceat a indices = Ok r.
Proof.
  induction 1 as [|i rest Hi _ [r Hr]]; [now exists []|].
  cbn [np_add_reduceat].
  replace (Z.leb 0 i && Z.ltb i (Z.of_nat (length a)))%bool with true
    by (symmetry; apply andb_true_iff; lia).
  simpl. rewrite Hr. simpl. eexists. reflexivity.
Qed.

Lemma np_take_defined (arr : list V) (idx : list Z) :
  Forall (fun i => (Z.to_nat i < length arr)%nat) idx ->
  exists a, np_take arr idx = Ok a.
Proof.
  induction 1 as [|i idx Hi _ [a Ha]]; simpl; [now exists []|].
  destruct (lookup_lt_is_Some_2 arr _ Hi) as [x Hx]. rewrite Hx, Ha. simpl.
  eexists. reflexivity.
Qed.

(** [calc_fit] returns on a matrix and an array whose indices and offsets are
    in bounds, whatever the weights are. *)
Lemma calc_fit_defined (arr : list V) (positions idx : list Z) (wresult : list Q) :
  length idx = length wresult ->
  Forall (fun i => (Z.to_nat i < length arr)%nat) idx ->
  Forall (fun p => (0 <= p < Z.of_nat (length wresult))%Z) positions ->
  exists r, calc_fit arr (positions, idx, wresult) = Ok r.
Proof.
  intros Hlen Hidx Hpos. unfold calc_fit.
  destruct (np_take_defined arr idx Hidx) as [picked Hp]. rewrite Hp. simpl.
  apply np_take_length in Hp.
  unfold np_mul. replace (length picked =? length wresult)%nat with true
    by (symmetry; apply Nat.eqb_eq; congruence).
  simpl. apply np_add_reduceat_defined.
  eapply Forall_impl; [exact Hpos|]. intros p Hp'. simpl in Hp'.
  rewrite length_zip_with. lia.
Qed.

(** What a call of [calc_fit] that returns tells about its arguments. *)
Lemma calc_fit_ok_bounds (arr : list V) (positions idx : list Z) (wresult : list Q)
    (r : list V) :
  length idx = length wresult ->
  calc_fit arr (positions, idx, wresult) = Ok r ->
  length r = length positions /\
  Forall (fun i => (Z.to_nat i < length arr)%nat) idx /\
  Forall (fun p => (0 <= p < Z.of_nat (length wresult))%Z) positions.
Proof.
  intros Hlen. unfold calc_fit.
  destruct (np_take arr idx) as [picked|e] eqn:Et; simpl; [|discriminate].
  pose proof (np_take_length _ _ _ Et) as Hp.
  pose proof (np_take_ok_in_range _ _ _ Et) as Hin.
  unfold np_mul. replace (length picked =? length wresult)%nat with true
    by (symmetry; apply Nat.eqb_eq; congruence).
  simpl. intros Er.
  apply np_add_reduceat_ok in Er as [Hl HF]. split; [exact Hl|]. split; [exact Hin|].
  rewrite length_zip_with in HF.
  eapply Forall_impl; [exact HF|]. intros p Hpos. simpl in Hpos. lia.
Qed.

Lemma calc_fit_error (arr : list V) (positions idx : list Z) (wresult : list Q) (e : exn) :
  length idx = length wresult ->
  calc_fit arr (positions, idx, wresult) = Err e -> e = IndexError.
Proof.
  intros Hlen. unfold calc_fit.
  destruct (np_take arr idx) as [picked|e'] eqn:Et; simpl.
  - pose proof (np_take_length _ _ _ Et) as Hp.
    unfold np_mul. replace (length picked =? length wresult)%nat with true
      by (symmetry; apply Nat.eqb_eq; congruence).
    simpl. apply np_add_reduceat_error.
  - intros [= <-]. now apply np_take_error in Et.
Qed.

(** X5: when [calc_fit] returns and how it fails.  With one weight per
    index and no negative index (the indices are unsigned), [calc_fit]
    returns, one cell per row, exactly when every index names a cell of [arr]
    and every row offset lies below the number of weights (so a matrix whose
    last row is empty never passes), whatever the weights are; otherwise it
    raises [IndexError], and nothing else. *)
Theorem calc_fit_returns_iff_in_bounds (arr : list V) (positions idx : list Z)
    (wresult : list Q) :
  length idx = length wresult ->
  Forall (fun i => (0 <= i)%Z) idx ->
  ((exists r, calc_fit arr (positions, idx, wresult) = Ok r) <->
   Forall (fun i => (i < Z.of_nat (length arr))%Z) idx /\
   Forall (fun p => (0 <= p < Z.of_nat (length wresult))%Z) positions) /\
  (forall r, calc_fit arr (positions, idx, wresult) = Ok r ->
             length r = length positions) /\
  (forall e, calc_fit arr (positions, idx, wresult) = Err e -> e = IndexError).
Proof.
  intros Hlen Hnn. split; [split|split].
  - intros [r Hr]. apply calc_fit_ok_bounds in Hr as (_ & Hidx & Hpos); [|exact Hlen].
    split; [|exact Hpos]. apply List.Forall_forall. intros i Hi.
    pose proof (proj1 (List.Forall_forall _ _) Hidx i Hi) as H1.
    pose proof (proj1 (List.Forall_forall _ _) Hnn i Hi) as H2. simpl in H1, H2. lia.
  - intros [Hidx Hpos]. apply calc_fit_defined; [exact Hlen| |exact Hpos].
    apply List.Forall_forall. intros i Hi.
    pose proof (proj1 (List.Forall_forall _ _) Hidx i Hi) as H1.
    pose proof (proj1 (List.Forall_forall _ _) Hnn i Hi) as H2. simpl in H1, H2. lia.
  - intros r Hr. now apply calc_fit_ok_bounds in Hr as (? & _).
  - intros e. now apply calc_fit_error.
Qed.

End CalcFitRows.

(** A run of X5 on a matrix whose second row is empty: [IndexError]. *)
Lemma calc_fit_returns_iff_in_bounds_witness :
  calc_fit [1; 2] ([0; 1]%Z, [1]%Z, [1 # 2]) = Err IndexError.
Proof.
  destruct (calc_fit_returns_iff_in_bounds [1; 2] [0; 1]%Z [1]%Z [1 # 2] eq_refl)
    as (_ & _ & Herr).
  { apply Forall_cons; split; [lia|apply Forall_nil; exact I]. }
  destruct (calc_fit [1; 2] ([0; 1]%Z, [1]%Z, [1 # 2])) as [r|e] eqn:E.
  - vm_compute in E. discriminate.
  - now rewrite (Herr e eq_refl).
Defined.

(** X4: [weights_convert] with [cut=False] followed by [calc_fit] on a 1-D
    array, the array its flat weights fit (line 262 flattens the weights
    before fitting the 1-D buffer of a vertex group).  When no row is empty,
    no weight is negative and every key names a cell of [arr], the fit of
    [arr] through the converted matrix has, for row [i], the sum over the
    dict [weights[i]] of [weight * arr[key]]. *)
Theorem calc_fit_of_converted_rows (arr : list Q) (weights : list wdict) :
  Forall (fun d => d <> []) weights ->
  Forall (Forall (fun kv => (fst kv < length arr)%nat /\ 0 <= snd kv)) weights ->
  (Z.of_nat (length arr) <= two32)%Z ->
  (Z.of_nat (length (concat weights)) < two32)%Z ->
  exists m,
    weights_convert weights false = Ok m /\
    calc_fit arr m = Ok (map (row_dot arr) weights).
Proof.
  intros Hne Hkv Harr Hb.
  assert (Hrows : map (List.filter (fun kv => Qgeb (snd kv) 0)) weights = weights).
  { clear -Hkv. induction Hkv as [|d ws Hd _ IH]; simpl; [reflexivity|]. rewrite IH. f_equal.
    clear -Hd. induction Hd as [|kv d [_ Hv] _ IH]; simpl; [reflexivity|].
    apply Qgeb_spec in Hv. rewrite Hv. now f_equal. }
  pose proof (weights_convert_uncut weights) as Hconv. simpl in Hconv. rewrite Hrows in Hconv.
  eexists. split; [exact Hconv|].
  assert (Hidx : map (fun k => u32 (Z.of_nat k)) (concat (map Dict.keys weights))
                 = map Z.of_nat (concat (map Dict.keys weights))).
  { apply map_ext_in. intros k Hk. apply u32_small.
    rewrite concat_keys in Hk. apply in_map_iff in Hk as (kv & <- & Hin).
    assert (Hall : Forall (fun kv => (fst kv < length arr)%nat /\ 0 <= snd kv) (concat weights))
      by now apply Forall_concat_rows.
    destruct (proj1 (List.Forall_forall _ _) Hall kv Hin) as [Hlt _]. lia. }
  rewrite Hidx. apply calc_fit_matrix_of_rows; [exact Hne| |exact Hb].
  eapply Forall_impl; [exact Hkv|]. intros d Hd.
  eapply Forall_impl; [exact Hd|]. intros kv [Hlt _]. exact Hlt.
Qed.

(** A run of X4 on a 1-D array: the first row averages two cells. *)
Lemma calc_fit_of_converted_rows_witness :
  exists m,
    weights_convert [[(0%nat, 1 # 2); (1%nat, 1 # 2)]; [(1%nat, 1)]] false = Ok m /\
    calc_fit [0; 4] m
      = Ok (map (row_dot [0; 4]) [[(0%nat, 1 # 2); (1%nat, 1 # 2)]; [(1%nat, 1)]]).
Proof.
  apply (calc_fit_of_converted_rows [0; 4]
           [[(0%nat, 1 # 2); (1%nat, 1 # 2)]; [(1%nat, 1)]]).
  - apply Forall_cons; split; [discriminate|].
    apply Forall_cons; split; [discriminate|apply Forall_nil; exact I].
  - apply Forall_cons; split.
    + apply Forall_cons; split; [split; [simpl; lia|discriminate]|].
      apply Forall_cons; split; [split; [simpl; lia|discriminate]|apply Forall_nil; exact I].
    + apply Forall_cons; split; [|apply Forall_nil; exact I].
      apply Forall_cons; split; [split; [simpl; lia|discriminate]|apply Forall_nil; exact I].
  - vm_compute. discriminate.
  - reflexivity.
Defined.

(** ** Rows that sum to one: translations and bounds *)

Lemma row_dot_cons {V : Type} `{Cell V} (arr : list V) (k : nat) (w : Q) (row : wdict) :
  row_dot arr ((k, w) :: row) = cadd (cscale w (default czero (arr !! k))) (row_dot arr row).
Proof. reflexivity. Qed.

Lemma row_dot_translate (arr : list vec3) (t : vec3) (row : wdict) :
  Forall (fun kv => (fst kv < length arr)%nat) row ->
  vec3_eq (row_dot (map (vec3_add t) arr) row)
          (vec3_add (vec3_scale (Qsum (Dict.values row)) t) (row_dot arr row)).
Proof.
  induction 1 as [|[k w] row Hk _ IH].
  - destruct t as [[tx ty] tz]. unfold row_dot, csum. simpl. repeat split; ring.
  - rewrite !row_dot_cons. simpl fst in Hk.
    destruct (lookup_lt_is_Some_2 arr k Hk) as [a Ha].
    rewrite list_lookup_fmap, Ha. simpl default. simpl Dict.values. simpl Qsum.
    fold (Dict.values row).
    destruct (row_dot (map (vec3_add t) arr) row) as [[rx' ry'] rz'].
    destruct (row_dot arr row) as [[rx ry] rz].
    destruct t as [[tx ty] tz]. destruct a as [[ax ay] az].
    simpl in IH |- *. destruct IH as (Ex & Ey & Ez).
    rewrite Ex, Ey, Ez. repeat split; ring.
Qed.

(** X6: fitting commutes with translations when every row of the matrix sums
    to one, as the rows [weights_normalize] leaves do: moving every vertex of
    [arr] by [t] moves every fitted position by [t]. *)
Theorem calc_fit_translation (arr : list vec3) (rows : list wdict) (t : vec3) :
  Forall (fun r => r <> []) rows ->
  Forall (Forall (fun kv => (fst kv < length arr)%nat)) rows ->
  Forall (fun r => Qsum (Dict.values r) == 1) rows ->
  (Z.of_nat (length (concat rows)) < two32)%Z ->
  exists fit moved,
    calc_fit arr (matrix_of_rows rows) = Ok fit /\
    calc_fit (map (vec3_add t) arr) (matrix_of_rows rows) = Ok moved /\
    Forall2 vec3_eq moved (map (vec3_add t) fit).
Proof.
  intros Hne Hkeys Hsum Hb.
  exists (map (row_dot arr) rows), (map (row_dot (map (vec3_add t) arr)) rows).
  split; [now apply calc_fit_matrix_of_rows|]. split.
  - apply calc_fit_matrix_of_rows; [exact Hne| |exact Hb].
    eapply Forall_impl; [exact Hkeys|]. intros r Hr.
    eapply Forall_impl; [exact Hr|]. intros kv Hkv. now rewrite length_map.
  - rewrite map_map. clear Hne Hb.
    induction rows as [|r rows IH]; simpl; constructor.
    + apply Forall_cons in Hkeys as [Hr _]. apply Forall_cons in Hsum as [Hs _].
      pose proof (row_dot_translate arr t r Hr) as Ht.
      destruct (row_dot (map (vec3_add t) arr) r) as [[mx my] mz].
      destruct (row_dot arr r) as [[fx fy] fz]. destruct t as [[tx ty] tz].
      simpl in Ht |- *. destruct Ht as (Ex & Ey & Ez).
      rewrite Ex, Ey, Ez, Hs. repeat split; ring.
    + apply Forall_cons in Hkeys as [_ Hk]. apply Forall_cons in Hsum as [_ Hs].
      now apply IH.
Qed.

(** A run of X6: one row that averages two vertices, moved by (1, 1, 1). *)
Lemma calc_fit_translation_witness :
  exists fit moved,
    calc_fit [(0, 0, 0); (2, 4, 6)] (matrix_of_rows [[(0%nat, 1 # 2); (1%nat, 1 # 2)]])
      = Ok fit /\
    calc_fit (map (vec3_add (1, 1, 1)) [(0, 0, 0); (2, 4, 6)])
             (matrix_of_rows [[(0%nat, 1 # 2); (1%nat, 1 # 2)]]) = Ok moved /\
    Forall2 vec3_eq moved (map (vec3_add (1, 1, 1)) fit).
Proof.
  apply (calc_fit_translation [(0, 0, 0); (2, 4, 6)] [[(0%nat, 1 # 2); (1%nat, 1 # 2)]]
           (1, 1, 1)).
  - apply Forall_cons; split; [discriminate|apply Forall_nil; exact I].
  - apply Forall_cons; split; [|apply Forall_nil; exact I].
    apply Forall_cons; split; [simpl; lia|].
    apply Forall_cons; split; [simpl; lia|apply Forall_nil; exact I].
  - apply Forall_cons; split; [reflexivity|apply Forall_nil; exact I].
  - reflexivity.
Defined.

Lemma row_dot_bounds (arr : list Q) (row : wdict) (lo hi : Q) :
  Forall (fun kv => 0 <= snd kv /\
                    exists a, arr !! fst kv = Some a /\ lo <= a /\ a <= hi) row ->
  Qsum (Dict.values row) * lo <= row_dot arr row /\
  row_dot arr row <= Qsum (Dict.values row) * hi.
Proof.
  induction 1 as [|[k w] row (Hw & a & Ha & Hlo & Hhi) _ [IHlo IHhi]].
  - unfold row_dot, csum. simpl. split; lra.
  - rewrite row_dot_cons. simpl fst in Ha. rewrite Ha. simpl default.
    simpl Dict.values. simpl Qsum. fold (Dict.values row).
    simpl snd in Hw. simpl cadd. simpl cscale.
    set (S := Qsum (Dict.values row)) in *. set (R := row_dot arr row) in *.
    split; nra.
Qed.

(** ** Bounding box *)

Lemma np_minimum_spec (a b : Q) :
  np_minimum a b <= a /\ np_minimum a b <= b /\
  forall c, c <= a -> c <= b -> c <= np_minimum a b.
Proof.
  unfold np_minimum. destruct (Qle_bool a b) eqn:E.
  - apply Qle_bool_iff in E. repeat split; [lra|lra|auto].
  - assert (~ a <= b) by (rewrite <- Qle_bool_iff; congruence).
    repeat split; [lra|lra|auto].
Qed.

Lemma np_maximum_spec (a b : Q) :
  a <= np_maximum a b /\ b <= np_maximum a b /\
  forall c, a <= c -> b <= c -> np_maximum a b <= c.
Proof.
  unfold np_maximum. destruct (Qle_bool a b) eqn:E.
  - apply Qle_bool_iff in E. repeat split; [lra|lra|auto].
  - assert (~ a <= b) by (rewrite <- Qle_bool_iff; congruence).
    repeat split; [lra|lra|auto].
Qed.

Lemma vec3_le_refl (a : vec3) : vec3_le a a.
Proof. destruct a as [[x y] z]. simpl. repeat split; lra. Qed.

Lemma vec3_le_trans (a b c : vec3) : vec3_le a b -> vec3_le b c -> vec3_le a c.
Proof.
  destruct a as [[ax ay] az], b as [[bx by_] bz], c as [[cx cy] cz]. simpl.
  intros (? & ? & ?) (? & ? & ?). repeat split; lra.
Qed.

Lemma vec3_minimum_spec (a b : vec3) :
  vec3_le (vec3_minimum a b) a /\ vec3_le (vec3_minimum a b) b /\
  forall c, vec3_le c a -> vec3_le c b -> vec3_le c (vec3_minimum a b).
Proof.
  destruct a as [[ax ay] az], b as [[bx by_] bz]. simpl.
  destruct (np_minimum_spec ax bx) as (? & ? & Hx), (np_minimum_spec ay by_) as (? & ? & Hy),
           (np_minimum_spec az bz) as (? & ? & Hz).
  repeat split; try assumption.
  all: destruct c as [[cx cy] cz]; simpl in *; intuition.
Qed.

Lemma vec3_maximum_spec (a b : vec3) :
  vec3_le a (vec3_maximum a b) /\ vec3_le b (vec3_maximum a b) /\
  forall c, vec3_le a c -> vec3_le b c -> vec3_le (vec3_maximum a b) c.
Proof.
  destruct a as [[ax ay] az], b as [[bx by_] bz]. simpl.
  destruct (np_maximum_spec ax bx) as (? & ? & Hx), (np_maximum_spec ay by_) as (? & ? & Hy),
           (np_maximum_spec az bz) as (? & ? & Hz).
  repeat split; try assumption.
  all: destruct c as [[cx cy] cz]; simpl in *; intuition.
Qed.

Lemma fold_minimum_spec (vs : list vec3) (v : vec3) :
  (forall u, In u (v :: vs) -> vec3_le (fold_left vec3_minimum vs v) u) /\
  forall c, (forall u, In u (v :: vs) -> vec3_le c u) ->
            vec3_le c (fold_left vec3_minimum vs v).
Proof.
  revert v. induction vs as [|x vs IH]; intros v; simpl.
  - split.
    + intros u [<-|[]]. apply vec3_le_refl.
    + intros c Hc. apply Hc. now left.
  - destruct (IH (vec3_minimum v x)) as [IH1 IH2].
    destruct (vec3_minimum_spec v x) as (Hv & Hx & Hglb). split.
    + intros u [<-|[<-|Hu]].
      * eapply vec3_le_trans; [apply IH1; now left|exact Hv].
      * eapply vec3_le_trans; [apply IH1; now left|exact Hx].
      * apply IH1. now right.
    + intros c Hc. apply IH2. intros u [<-|Hu].
      * apply Hglb; apply Hc; auto.
      * apply Hc. auto.
Qed.

Lemma fold_maximum_spec (vs : list vec3) (v : vec3) :
  (forall u, In u (v :: vs) -> vec3_le u (fold_left vec3_maximum vs v)) /\
  forall c, (forall u, In u (v :: vs) -> vec3_le u c) ->
            vec3_le (fold_left vec3_maximum vs v) c.
Proof.
  revert v. induction vs as [|x vs IH]; intros v; simpl.
  - split.
    + intros u [<-|[]]. apply vec3_le_refl.
    + intros c Hc. apply Hc. now left.
  - destruct (IH (vec3_maximum v x)) as [IH1 IH2].
    destruct (vec3_maximum_spec v x) as (Hv & Hx & Hlub). split.
    + intros u [<-|[<-|Hu]].
      * eapply vec3_le_trans; [exact Hv|apply IH1; now left].
      * eapply vec3_le_trans; [exact Hx|apply IH1; now left].
      * apply IH1. now right.
    + intros c Hc. apply IH2. intros u [<-|Hu].
      * apply Hlub; apply Hc; auto.
      * apply Hc. auto.
Qed.

(** X7: [Geometry.bbox] raises [ValueError] exactly on a geometry without
    vertices.  Otherwise it returns the smallest axis-aligned box that holds
    every vertex of [verts] (for a [SubsetGeometry] too: the subset is not
    consulted): every vertex lies between the two corners, and every box that
    holds all the vertices holds the two corners. *)
Theorem bbox_is_smallest_enclosing_box (g : Geometry) :
  match Geometry_bbox g with
  | Err e => e = ValueError /\ verts g = []
  | Ok (lo, hi) =>
      verts g <> [] /\
      (forall v, In v (verts g) -> vec3_le lo v /\ vec3_le v hi) /\
      (forall lo' hi', (forall v, In v (verts g) -> vec3_le lo' v /\ vec3_le v hi') ->
                       vec3_le lo' lo /\ vec3_le hi hi')
  end.
Proof.
  unfold Geometry_bbox. destruct (verts g) as [|v vs]; simpl; [auto|].
  destruct (fold_minimum_spec vs v) as [Hmin1 Hmin2].
  destruct (fold_maximum_spec vs v) as [Hmax1 Hmax2].
  split; [discriminate|]. split.
  - intros u Hu. split; [now apply Hmin1|now apply Hmax1].
  - intros lo' hi' Hbox. split.
    + apply Hmin2. intros u Hu. now apply Hbox.
    + apply Hmax2. intros u Hu. now apply Hbox.
Qed.

(** ** The nearest-vertex index of a geometry, and subsets *)

Lemma kdtree_insert_enum_ok (enum : list (nat * option vec3)) (kd : kdtree) :
  kdtree_insert_enum enum = Ok kd ->
  enum = map (fun p => (snd p, Some (fst p))) kd.
Proof.
  revert kd. induction enum as [|[i [v|]] enum IH]; intros kd; simpl.
  - now intros [= <-].
  - destruct (kdtree_insert_enum enum) as [kd'|]; simpl; [|discriminate].
    intros [= <-]. simpl. f_equal. now apply IH.
  - discriminate.
Qed.


Lemma kdtree_from_verts_enum_ok (enum : list (nat * option vec3)) (cnt : nat) (kd : kdtree) :
  kdtree_from_verts_enum enum cnt = Ok kd ->
  enum = map (fun p => (snd p, Some (fst p))) kd.
Proof.
  unfold kdtree_from_verts_enum. destruct (Nat.eqb cnt 0); [discriminate|].
  apply kdtree_insert_enum_ok.
Qed.

Lemma verts_enum_ids (g : Geometry) :
  map fst (verts_enum g) =
  match subset g with
  | None => seq 0 (length (verts g))
  | Some s => s
  end.
Proof.
  unfold verts_enum. destruct (subset g) as [s|].
  - rewrite map_map. simpl. apply map_id.
  - rewrite map_map. simpl. unfold enumerate.
    change (map (fun x : nat * vec3 => fst x) (zip (seq 0 (length (verts g))) (verts g)))
      with (fst <$> zip (seq 0 (length (verts g))) (verts g)).
    apply fst_zip. rewrite length_seq. lia.
Qed.

Lemma verts_enum_reads (g : Geometry) (i : nat) (ov : option vec3) :
  In (i, ov) (verts_enum g) -> ov = verts g !! i.
Proof.
  unfold verts_enum. destruct (subset g) as [s|].
  - rewrite in_map_iff. intros (j & [= <- <-] & _). reflexivity.
  - rewrite in_map_iff. intros ([j v] & [= <- <-] & Hin). simpl.
    apply list_elem_of_In, list_elem_of_lookup in Hin as [n Hn].
    apply lookup_enumerate in Hn as [<- Hv]. simpl in *. now rewrite Hv.
Qed.

Lemma Geometry_kd_ok (g : Geometry) (kd : kdtree) :
  Geometry_kd g = Ok kd ->
  length kd = verts_cnt g /\
  map snd kd = match subset g with
               | None => seq 0 (length (verts g))
               | Some s => s
               end /\
  forall co i, In (co, i) kd -> verts g !! i = Some co.
Proof.
  unfold Geometry_kd. intros E. apply kdtree_from_verts_enum_ok in E.
  assert (Hids : map snd kd = map fst (verts_enum g)).
  { rewrite E, map_map. simpl. reflexivity. }
  split; [|split].
  - rewrite <- (length_map snd kd), Hids, verts_enum_ids. unfold verts_cnt.
    destruct (subset g); [reflexivity|apply length_seq].
  - rewrite Hids. apply verts_enum_ids.
  - intros co i Hin. symmetry. apply verts_enum_reads.
    rewrite E. apply in_map_iff. exists (co, i). auto.
Qed.


Lemma length_verts_enum (g : Geometry) : length (verts_enum g) = verts_cnt g.
Proof.
  rewrite <- (length_map fst), verts_enum_ids. unfold verts_cnt.
  destruct (subset g); [reflexivity|apply length_seq].
Qed.

Lemma verts_enum_missing (g : Geometry) :
  (exists i, In (i, None) (verts_enum g)) <->
  exists s i, subset g = Some s /\ In i s /\ (length (verts g) <= i)%nat.
Proof.
  split.
  - intros [i Hi]. pose proof (verts_enum_reads g i None Hi) as Hnone.
    assert (Hid : In i (map fst (verts_enum g))).
    { apply in_map_iff. exists (i, None). auto. }
    rewrite verts_enum_ids in Hid. symmetry in Hnone. apply lookup_ge_None in Hnone.
    destruct (subset g) as [s|].
    + exists s, i. auto.
    + apply in_seq in Hid. lia.
  - intros (s & i & Hs & Hin & Hge). exists i. unfold verts_enum. rewrite Hs.
    apply in_map_iff. exists i. split; [|exact Hin].
    apply lookup_ge_None in Hge. now rewrite Hge.
Qed.



(** X8: what a geometry enumerates, and so hands to the builder of its
    nearest-vertex index.  [verts_enum] yields as many pairs as [verts_cnt]
    counts.  A plain geometry pairs every vertex with its position in
    [verts]; a [SubsetGeometry] yields the ids of its subset, in the order
    of the subset and not renumbered, each with the vertex it names in the
    shared array.  Reaching an item raises [IndexError] exactly when its id
    names no vertex, which only an id of a subset can do. *)
Theorem verts_enum_pairs_ids_with_vertices (g : Geometry) :
  length (verts_enum g) = verts_cnt g /\
  map fst (verts_enum g) = match subset g with
                           | None => seq 0 (length (verts g))
                           | Some s => s
                           end /\
  (forall i ov, In (i, ov) (verts_enum g) -> ov = verts g !! i) /\
  ((exists i, In (i, None) (verts_enum g)) <->
   exists s i, subset g = Some s /\ In i s /\ (length (verts g) <= i)%nat).
Proof.
  split; [apply length_verts_enum|]. split; [apply verts_enum_ids|].
  split; [apply verts_enum_reads|apply verts_enum_missing].
Qed.

Lemma rmapM_lookup_ok {A : Type} (l : list A) (ids : list nat) :
  Forall (fun i => (i < length l)%nat) ids ->
  exists xs, rmapM (fun i => from_option IndexError (l !! i)) ids = Ok xs /\
             Forall2 (fun i x => l !! i = Some x) ids xs.
Proof.
  induction 1 as [|i ids Hi _ (xs & Hxs & HF)]; simpl.
  - exists []. split; [reflexivity|constructor].
  - destruct (lookup_lt_is_Some_2 l i Hi) as [x Hx]. rewrite Hx. simpl. rewrite Hxs. simpl.
    exists (x :: xs). split; [reflexivity|]. now constructor.
Qed.

Lemma rmapM_lookup_fails {A : Type} (l : list A) (ids : list nat) (i : nat) :
  In i ids -> (length l <= i)%nat ->
  rmapM (fun i => from_option IndexError (l !! i)) ids = Err IndexError.
Proof.
  intros Hin Hi. apply (rmapM_first_error _ ids i IndexError Hin).
  - apply lookup_ge_None in Hi. now rewrite Hi.
  - intros y e. destruct (l !! y); simpl; [discriminate|now intros [= <-]].
Qed.


(** ** What the passes keep true of every row *)

Lemma mret_preserves {A : Type} (Inv : store -> Prop) (a : A) : preserves Inv (mret a).
Proof. intros s Hs. exact Hs. Qed.

Lemma mbind_preserves {A B : Type} (Inv : store -> Prop) (m : M A) (k : A -> M B) :
  preserves Inv m ->
  (forall a, (exists s, snd (m s) = Ok a) -> preserves Inv (k a)) ->
  preserves Inv (mbind m k).
Proof.
  intros Hm Hk s Hs. unfold mbind. specialize (Hm s Hs).
  destruct (m s) as [s1 [a|e]] eqn:E; simpl in *; [|exact Hm].
  apply (Hk a); [|exact Hm]. exists s. now rewrite E.
Qed.

Lemma lift_preserves {A B : Type} (Inv : store -> Prop) (r : result A) (k : A -> M B) :
  (forall a, r = Ok a -> preserves Inv (k a)) ->
  preserves Inv (mbind (lift r) k).
Proof.
  intros Hk. apply mbind_preserves; [intros s Hs; exact Hs|].
  intros a [s Hs]. apply Hk. exact Hs.
Qed.

Lemma for_each_preserves {X : Type} (Inv : store -> Prop) (l : list X) (body : X -> M unit) :
  (forall x, In x l -> preserves Inv (body x)) -> preserves Inv (for_each l body).
Proof.
  induction l as [|x l IH]; intros Hb; simpl.
  - apply mret_preserves.
  - apply mbind_preserves; [apply Hb; now left|].
    intros _ _. apply IH. intros y Hy. apply Hb. now right.
Qed.

Lemma accumulate_preserves (R : wdict -> Prop) (row key : nat) (f : Q -> result Q) :
  (forall d v, R d -> f (Dict.get d key 0) = Ok v -> R (Dict.setitem d key v)) ->
  preserves (Forall R) (accumulate row key f).
Proof.
  intros Hf s Hs.
  destruct (accumulate_spec row key f s) as [(d & v & Hd & Hv & ->)|[e ->]]; simpl;
    [|exact Hs].
  apply Forall_insert; [exact Hs|]. apply Hf; [|exact Hv].
  eapply Forall_lookup_1; [exact Hs|exact Hd].
Qed.

Lemma run_pass_preserves (Inv : store -> Prop) (m : M unit) (s s' : store) :
  preserves Inv m -> Inv s -> run_pass m s = Ok s' -> Inv s'.
Proof.
  intros Hm Hs. unfold run_pass. specialize (Hm s Hs).
  destruct (m s) as [s1 [[]|e]]; [|discriminate]. now intros [= <-].
Qed.

Lemma setitem_nonempty (d : wdict) (k : nat) (v : Q) : Dict.setitem d k v <> [].
Proof. destruct d as [|[k' v'] d]; simpl; [discriminate|]. now destruct (Nat.eqb k' k). Qed.

Lemma setitem_Forall (P : nat * Q -> Prop) (d : wdict) (k : nat) (v : Q) :
  Forall P d -> P (k, v) -> Forall P (Dict.setitem d k v).
Proof.
  intros Hd Hkv. induction Hd as [|[k' v'] d Hx Hd IH]; simpl.
  - constructor; [exact Hkv|constructor].
  - destruct (Nat.eqb k' k); constructor; assumption.
Qed.

Lemma get_cases (d : wdict) (k : nat) (def : Q) :
  Dict.get d k def = def \/ In (k, Dict.get d k def) d.
Proof.
  induction d as [|[k' v'] d IH]; simpl; [now left|].
  destruct (Nat.eqb k' k) eqn:E.
  - apply Nat.eqb_eq in E. subst k'. right. now left.
  - destruct IH as [IH|IH]; [now left|right; now right].
Qed.

Lemma of_items_Forall (P : nat * Q -> Prop) (items : list (nat * Q)) :
  Forall P items -> Forall P (Dict.of_items items).
Proof.
  unfold Dict.of_items.
  assert (Hgen : forall d, Forall P d -> Forall P items ->
            Forall P (fold_left (fun d kv => Dict.setitem d (fst kv) (snd kv)) items d)).
  { induction items as [|[k v] items IH]; intros d Hd Hi; simpl; [exact Hd|].
    apply Forall_cons in Hi as [Hkv Hi]. apply IH; [|exact Hi].
    now apply setitem_Forall. }
  apply Hgen. constructor.
Qed.

Lemma of_items_nonempty (items : list (nat * Q)) :
  items <> [] -> Dict.of_items items <> [].
Proof.
  unfold Dict.of_items.
  assert (Hgen : forall (l : list (nat * Q)) d, d <> [] ->
            fold_left (fun d kv => Dict.setitem d (fst kv) (snd kv)) l d <> []).
  { induction l as [|[k v] l IH]; intros d Hd; simpl; [exact Hd|].
    apply IH. apply setitem_nonempty. }
  destruct items as [|[k v] items]; [congruence|]. intros _. simpl.
  apply Hgen. discriminate.
Qed.

(** Writing [f(d.get(key, 0))] under a key that names a vertex leaves a row
    well formed, for an [f] that gives no negative value on a non-negative
    one. *)
Lemma accumulate_well_formed (n row key : nat) (f : Q -> result Q) :
  (key < n)%nat ->
  (forall old v, 0 <= old -> f old = Ok v -> 0 <= v) ->
  preserves (Forall (well_formed_row n)) (accumulate row key f).
Proof.
  intros Hkey Hf. apply accumulate_preserves. intros d v [Hne Hall] Hv.
  split; [apply setitem_nonempty|]. apply setitem_Forall; [exact Hall|].
  split; [exact Hkey|]. simpl. apply (Hf (Dict.get d key 0)); [|exact Hv].
  destruct (get_cases d key 0) as [->|Hin]; [lra|].
  apply (proj1 (List.Forall_forall _ _) Hall) in Hin. now destruct Hin.
Qed.

Lemma py_div_inv (a b q : Q) : py_div a b = Ok q -> ~ b == 0 /\ q = a / b.
Proof.
  unfold py_div. destruct (Qeq_bool b 0) eqn:E; [discriminate|].
  intros [= <-]. split; [|reflexivity]. intros Hb. apply Qeq_bool_iff in Hb. congruence.
Qed.

Lemma in_zip_fst {A B : Type} (l : list A) (l' : list B) (x : A * B) :
  In x (zip l l') -> In (fst x) l.
Proof.
  revert l'. induction l as [|a l IH]; intros [|b l']; simpl; try tauto.
  intros [<-|Hin]; [now left|right; eauto].
Qed.

Section RowInvariant.
Context `{Mathutils}.
Hypothesis distance_nonneg : forall a b, 0 <= distance a b.

Lemma find_n_dist_nonneg (kd : kdtree) (co : vec3) (n : nat) (p : kd_item) :
  In p (find_n kd co n) -> 0 <= kd_dist p.
Proof.
  intros Hp. unfold find_n in Hp. fold (kd_items kd co) in Hp.
  assert (Hin : In p (kd_items kd co)).
  { apply list_elem_of_In. rewrite <- (sort_by_dist_perm (kd_items kd co)).
    apply list_elem_of_In. apply list_elem_of_In in Hp.
    apply list_elem_of_In. eapply elem_of_sublist; [exact Hp|apply sublist_take]. }
  unfold kd_items in Hin. apply in_map_iff in Hin as (q & <- & _).
  unfold kd_dist. simpl. apply distance_nonneg.
Qed.

Lemma kd_row_items_well_formed (n : nat) (pdata : list kd_item) (maxdist _epsilon : Q)
    (items : list (nat * Q)) :
  0 < _epsilon ->
  Forall (fun p => (kd_index p < n)%nat /\ 0 <= kd_dist p /\ kd_dist p <= maxdist) pdata ->
  kd_row_items pdata maxdist _epsilon = Ok items ->
  length items = length pdata /\
  Forall (fun kv => (fst kv < n)%nat /\ 0 <= snd kv) items.
Proof.
  intros Heps HF. revert items.
  induction HF as [|p pdata (Hidx & Hd0 & Hdm) _ IH]; intros items; simpl.
  - intros [= <-]. split; [reflexivity|constructor].
  - destruct (py_div (kd_dist p) maxdist) as [ratio|] eqn:Er; simpl; [|discriminate].
    destruct (py_div (1 - ratio) (py_max (kd_dist p) _epsilon)) as [w|] eqn:Ew; simpl;
      [|discriminate].
    destruct (kd_row_items pdata maxdist _epsilon) as [items'|]; simpl; [|discriminate].
    intros [= <-]. destruct (IH items' eq_refl) as [Hl Hall].
    split; [simpl; now f_equal|]. constructor; [|exact Hall].
    split; [exact Hidx|]. simpl.
    apply py_div_inv in Er as [Hm ->]. apply py_div_inv in Ew as [_ ->].
    pose proof (py_max_ge_r (kd_dist p) _epsilon) as Hge.
    apply Qle_shift_div_l; [lra|].
    assert (kd_dist p / maxdist <= 1); [|lra].
    apply Qle_shift_div_r; [|lra].
    destruct (Qlt_le_dec 0 maxdist) as [?|Hle]; [assumption|].
    exfalso. apply Hm. lra.
Qed.

Lemma kd_row_well_formed (cg : Geometry) (kd : kdtree) (v : vec3) (_epsilon : Q) (n : nat)
    (row : wdict) :
  0 < _epsilon ->
  Geometry_kd cg = Ok kd ->
  kd_row kd v _epsilon n = Ok row ->
  well_formed_row (length (verts cg)) row.
Proof.
  intros Heps Hkd. unfold kd_row.
  destruct (py_max_list (map kd_dist (find_n kd v n))) as [maxdist|] eqn:Em; simpl;
    [|discriminate].
  destruct (kd_row_items (find_n kd v n) maxdist _epsilon) as [items|] eqn:Ei; simpl;
    [|discriminate].
  intros [= <-].
  pose proof (py_max_list_is_max _ _ Em) as [Hin Hmax].
  apply Geometry_kd_ok in Hkd as (_ & _ & Hpts).
  assert (HF : Forall (fun p => (kd_index p < length (verts cg))%nat /\
                                0 <= kd_dist p /\ kd_dist p <= maxdist) (find_n kd v n)).
  { apply List.Forall_forall. intros p Hp. split; [|split].
    - apply find_n_index_in in Hp. apply in_map_iff in Hp as ([co i] & Hi & Hco).
      simpl in Hi. rewrite <- Hi. apply lookup_lt_is_Some. exists co. now apply Hpts.
    - now apply (find_n_dist_nonneg kd v n).
    - apply Hmax. now apply in_map. }
  destruct (kd_row_items_well_formed _ _ _ _ _ Heps HF Ei) as [Hlen Hall].
  split; [|now apply of_items_Forall].
  apply of_items_nonempty. intros ->. simpl in Hlen.
  destruct (find_n kd v n); [destruct Hin|discriminate].
Qed.

Lemma calc_weights_kd_well_formed (cg : Geometry) (kd : kdtree) (verts_ : list vec3)
    (_epsilon : Q) (n : nat) (rows : list wdict) :
  0 < _epsilon ->
  Geometry_kd cg = Ok kd ->
  calc_weights_kd kd verts_ _epsilon n = Ok rows ->
  Forall (well_formed_row (length (verts cg))) rows.
Proof.
  intros Heps Hkd. revert rows. induction verts_ as [|v vs IH]; intros rows; simpl.
  - intros [= <-]. constructor.
  - destruct (kd_row kd v _epsilon n) as [row|] eqn:Er; simpl; [|discriminate].
    destruct (calc_weights_kd kd vs _epsilon n) as [rs|]; simpl; [|discriminate].
    intros [= <-]. constructor; [|now apply IH].
    eapply kd_row_well_formed; eassumption.
Qed.

Lemma py_max_well_formed (c : Q) (old v : Q) :
  0 <= old -> Ok (py_max old c) = Ok v -> 0 <= v.
Proof. intros Hold [= <-]. pose proof (py_max_ge_l old c). lra. Qed.

Lemma direct_vertex_well_formed (bvh : BVHTree) (cg : Geometry) (iv : nat * vec3) :
  preserves (Forall (well_formed_row (length (verts cg)))) (direct_vertex bvh cg iv).
Proof.
  unfold direct_vertex.
  destruct (find_nearest bvh (snd iv) dist_thresh) as [[[loc idx] fdist]|];
    [|apply mret_preserves].
  apply lift_preserves. intros face _.
  apply mbind_preserves; [intros s Hs; exact Hs|]. intros _ _.
  apply lift_preserves. intros f _.
  apply lift_preserves. intros pts Hpts.
  apply for_each_preserves. intros vb Hvb.
  apply accumulate_well_formed; [|intros old v; apply py_max_well_formed].
  apply in_zip_fst in Hvb. apply np_take_ok_in_range in Hpts.
  rewrite List.Forall_forall in Hpts.
  specialize (Hpts (Z.of_nat (fst vb)) (in_map _ _ _ Hvb)). simpl in Hpts.
  now rewrite Nat2Z.id in Hpts.
Qed.

Lemma calc_weights_direct_well_formed (cg : Geometry) (asset_verts : list vec3) :
  preserves (Forall (well_formed_row (length (verts cg))))
            (calc_weights_direct cg asset_verts).
Proof.
  unfold calc_weights_direct. apply lift_preserves. intros bvh _.
  apply for_each_preserves. intros iv _. apply direct_vertex_well_formed.
Qed.

Lemma calc_weights_reverse_well_formed (cg ag : Geometry) :
  preserves (Forall (well_formed_row (length (verts cg))))
            (calc_weights_reverse (PyGeometry cg) ag py_max).
Proof.
  unfold calc_weights_reverse. apply lift_preserves. intros bvh _.
  apply lift_preserves. intros enum [= <-].
  apply for_each_preserves. intros [i ov] Hic. unfold reverse_vertex. simpl fst. simpl snd.
  apply lift_preserves. intros cvert Hcv.
  destruct (find_nearest bvh cvert dist_thresh) as [[[loc idx] fdist]|];
    [|apply mret_preserves].
  apply lift_preserves. intros face _.
  apply lift_preserves. intros f _.
  apply lift_preserves. intros pts _.
  apply for_each_preserves. intros vb _.
  apply accumulate_well_formed; [|intros old v; apply py_max_well_formed].
  apply verts_enum_reads in Hic. subst ov.
  apply lookup_lt_is_Some. exists cvert.
  destruct (verts cg !! i); simpl in Hcv; congruence.
Qed.

Lemma fit_passes_well_formed (st st' : session) (cg : Geometry) (asset_verts : list vec3)
    (afd : option AssetFitData) (weights : store) :
  FitCalculator.fit_passes st cg asset_verts afd = (st', Ok weights) ->
  Forall (well_formed_row (length (verts cg))) weights.
Proof.
  unfold FitCalculator.fit_passes.
  destruct (Geometry_kd cg) as [kd|] eqn:Hkd; simpl; [|discriminate].
  destruct (calc_weights_kd kd asset_verts epsilon 16) as [w0|] eqn:Hw0; simpl;
    [|discriminate].
  apply (calc_weights_kd_well_formed cg kd _ _ _ _ epsilon_pos Hkd) in Hw0.
  destruct (run_pass (calc_weights_direct cg asset_verts) w0) as [w1|] eqn:Hd;
    [|discriminate].
  apply (run_pass_preserves _ _ _ _ (calc_weights_direct_well_formed cg asset_verts) Hw0)
    in Hd.
  destruct afd as [a|].
  - destruct (FitCalculator._get_asset_geom st (OfAssetFitData a)) as [st1 ag].
    intros [= _ Hr].
    now apply (run_pass_preserves _ _ _ _ (calc_weights_reverse_well_formed cg ag) Hd) in Hr.
  - now intros [= _ <-].
Qed.

End RowInvariant.

Lemma Qsqrt_fixed_nonneg (x : Q) : 0 <= Qsqrt_fixed x.
Proof.
  unfold Qsqrt_fixed, Qle. cbn [Qnum Qden].
  rewrite Z.mul_0_l, Z.mul_1_r. apply Z.sqrt_nonneg.
Qed.

Lemma euclid_nonneg (a b : vec3) : 0 <= euclid a b.
Proof.
  destruct a as [[ax ay] az], b as [[bx by_] bz]. unfold euclid.
  apply Qsqrt_fixed_nonneg.
Qed.

(** X10: the rows the three passes of [_calc_weights_internal] leave.  For a
    host library whose distances are not negative, whenever the passes
    return, every row is nonempty, every key names a vertex of the character
    geometry (an index into its [verts]), and no weight is negative: a
    negative barycentric weight of the surface passes is absorbed by [max]. *)
Theorem fit_passes_leave_well_formed_rows {H : Mathutils}
    (st st' : session) (cg : Geometry) (asset_verts : list vec3)
    (afd : option AssetFitData) (weights : store) :
  (forall a b, 0 <= distance a b) ->
  FitCalculator.fit_passes st cg asset_verts afd = (st', Ok weights) ->
  length weights = length asset_verts /\
  Forall (fun d => d <> [] /\
                   Forall (fun kv => (fst kv < length (verts cg))%nat /\ 0 <= snd kv) d)
         weights.
Proof.
  intros Hdist Hpass. split; [now apply fit_passes_length in Hpass|].
  exact (fit_passes_well_formed Hdist _ _ _ _ _ _ Hpass).
Qed.

(** A run of X10 on the triangle, with an asset vertex on the face and one
    far away. *)
Lemma fit_passes_leave_well_formed_rows_witness :
  exists weights,
    FitCalculator.fit_passes (H := triangle_mathutils) new_session triangle
      [(1 # 4, 1 # 4, 0); (3, 0, 0)] None = (new_session, Ok weights) /\
    Forall (fun d => d <> [] /\
                     Forall (fun kv => (fst kv < 3)%nat /\ 0 <= snd kv) d) weights.
Proof.
  eassert (Hpass : FitCalculator.fit_passes (H := triangle_mathutils) new_session triangle
                     [(1 # 4, 1 # 4, 0); (3, 0, 0)] None = (_, Ok _))
    by (vm_compute; reflexivity).
  eexists. split; [exact Hpass|].
  exact (proj2 (fit_passes_leave_well_formed_rows (H := triangle_mathutils)
                  _ _ _ _ _ _ euclid_nonneg Hpass)).
Defined.

(** ** From the passes to a fit *)

Lemma prune_well_formed (n : nat) (d : wdict) :
  well_formed_row n d ->
  exists row, prune true d = Ok row /\ well_formed_row n row.
Proof.
  intros [Hne Hall]. unfold prune.
  destruct (py_max_list_nonempty (Dict.values d)) as [m Hm].
  { destruct d; [congruence|discriminate]. }
  rewrite Hm. simpl. eexists. split; [reflexivity|].
  apply py_max_list_is_max in Hm as [Hin Hmax].
  apply in_values_entry in Hin as [k Hk].
  assert (Hm0 : 0 <= m).
  { apply (proj1 (List.Forall_forall _ _) Hall) in Hk. now destruct Hk. }
  split.
  - assert (Hkept : In (k, m) (List.filter (fun kv => Qgeb (snd kv) (m / 32)) d)).
    { apply kept_entries. split; [exact Hk|]. simpl.
      apply Qle_shift_div_r; [reflexivity|]. lra. }
    intros E. rewrite E in Hkept. destruct Hkept.
  - apply List.Forall_forall. intros kv Hkv. apply List.filter_In in Hkv as [Hkv _].
    now apply (proj1 (List.Forall_forall _ _) Hall).
Qed.

Lemma length_matrix_of_rows (rows : list wdict) :
  length (concat (map Dict.keys rows)) = length (concat (map Dict.values rows)).
Proof. rewrite concat_keys, concat_values. now rewrite !length_map. Qed.

Lemma length_normalized_cells (rows : list (list Q)) :
  length (concat (map (fun r => map (fun x => np_true_divide x (Qsum r)) r) rows))
  = length (concat rows).
Proof.
  induction rows as [|r rows IH]; simpl; [reflexivity|].
  rewrite !length_app, length_map. now f_equal.
Qed.

(** X11: from the passes to a fit of positions.  For a host library whose
    distances are not negative, once the passes of [_calc_weights_internal]
    have returned for at least one asset vertex, [_calc_weights_internal]
    returns too: [weights_convert] and [weights_normalize] do not raise.
    When the weights it returns are finite, the matrix as it is returned,
    its weights in a column (line 250), can be applied to every [N x 3]
    array that has one row per character vertex: [calc_fit] returns one
    position per asset vertex. *)
Theorem calc_weights_internal_then_fit {H : Mathutils}
    (st st' : session) (cg : Geometry) (asset_verts : list vec3)
    (afd : option AssetFitData) (weights : store) (arr : list vec3) :
  (forall a b, 0 <= distance a b) ->
  FitCalculator.fit_passes st cg asset_verts afd = (st', Ok weights) ->
  asset_verts <> [] ->
  length arr = length (verts cg) ->
  (Z.of_nat (length (verts cg)) <= two32)%Z ->
  (Z.of_nat (length (concat weights)) < two32)%Z ->
  exists positions idx cells,
    FitCalculator._calc_weights_internal st cg asset_verts afd
      = (st', Ok (positions, idx, cells)) /\
    length positions = length asset_verts /\
    forall ws, cells = map Finite ws ->
      exists fit, calc_fit arr (positions, idx, ws) = Ok fit /\
                  length fit = length asset_verts.
Proof.
  intros Hdist Hpass Hne Harr Hn Hb.
  pose proof (fit_passes_length _ _ _ _ _ _ Hpass) as Hlen.
  pose proof (fit_passes_well_formed Hdist _ _ _ _ _ _ Hpass) as Hwf.
  destruct (rmapM_total (prune true) weights) as [rows Hrows].
  { eapply Forall_impl; [exact Hwf|]. intros d Hd.
    destruct (prune_well_formed _ d Hd) as (row & Hrow & _). now exists row. }
  pose proof Hrows as HF2. apply rmapM_Forall2 in HF2.
  assert (Hwf' : Forall (well_formed_row (length arr)) rows).
  { rewrite Harr. clear -HF2 Hwf. induction HF2 as [|d row ws rows Hp _ IH]; [constructor|].
    apply Forall_cons in Hwf as [Hd Hwf]. constructor; [|now apply IH].
    destruct (prune_well_formed _ d Hd) as (row' & Hrow' & Hok). congruence. }
  assert (Hb' : (Z.of_nat (length (concat rows)) < two32)%Z).
  { pose proof (pruned_total_length true weights rows HF2) as Hle.
    rewrite concat_values, length_map in Hle. lia. }
  assert (Hidx : map (fun k => u32 (Z.of_nat k)) (concat (map Dict.keys rows))
                 = map Z.of_nat (concat (map Dict.keys rows))).
  { apply map_ext_in. intros k Hk. apply u32_small.
    rewrite concat_keys in Hk. apply in_map_iff in Hk as (kv & <- & Hin).
    apply in_concat in Hin as (row & Hrow & Hkv).
    apply (proj1 (List.Forall_forall _ _) Hwf') in Hrow as [_ Hall].
    apply (proj1 (List.Forall_forall _ _) Hall) in Hkv as [Hlt _]. lia. }
  assert (Hrl : length rows = length asset_verts).
  { apply Forall2_length in HF2. etransitivity; [symmetry; exact HF2|exact Hlen]. }
  set (vrows := map Dict.values rows).
  assert (Hoff : offsets 0 rows = offsets 0 vrows).
  { apply offsets_same_length. apply (Forall2_map_same_length Dict.values).
    intros r. apply length_map. }
  assert (Hnorm : weights_normalize (offsets 0 vrows) (concat vrows)
                  = Ok (concat (map (fun r => map (fun x => np_true_divide x (Qsum r)) r)
                                    vrows))).
  { apply weights_normalize_rows.
    - unfold vrows. destruct rows; [|discriminate].
      destruct asset_verts; [congruence|discriminate].
    - unfold vrows. apply Forall_fmap. eapply Forall_impl; [exact Hwf'|].
      intros r [Hr _]. simpl. destruct r; [congruence|discriminate].
    - unfold vrows. rewrite concat_values, length_map. exact Hb'. }
  exists (offsets 0 vrows), (map Z.of_nat (concat (map Dict.keys rows))),
         (concat (map (fun r => map (fun x => np_true_divide x (Qsum r)) r) vrows)).
  split.
  { unfold FitCalculator._calc_weights_internal. rewrite Hpass. simpl rbind.
    unfold FitCalculator.convert_normalize.
    rewrite weights_convert_spec, Hrows. simpl rbind. rewrite Hidx, Hoff.
    fold vrows. rewrite Hnorm. reflexivity. }
  split; [unfold vrows; now rewrite length_offsets, length_map|].
  intros ws Hws.
  assert (Hlw : length ws = length (concat (map Dict.values rows))).
  { rewrite <- (length_map Finite ws), <- Hws. apply length_normalized_cells. }
  assert (Hfit : calc_fit arr (matrix_of_rows rows) = Ok (map (row_dot arr) rows)).
  { apply calc_fit_matrix_of_rows; [| |exact Hb'].
    - eapply Forall_impl; [exact Hwf'|]. now intros r [? _].
    - eapply Forall_impl; [exact Hwf'|]. intros r [_ Hall].
      eapply Forall_impl; [exact Hall|]. now intros kv [? _]. }
  unfold matrix_of_rows in Hfit.
  apply calc_fit_ok_bounds in Hfit as (_ & Hin & Hpos);
    [|rewrite length_map; apply length_matrix_of_rows].
  rewrite <- Hoff.
  destruct (calc_fit_defined arr (offsets 0 rows)
              (map Z.of_nat (concat (map Dict.keys rows))) ws) as [fit Hfit'].
  - rewrite length_map, Hlw. apply length_matrix_of_rows.
  - exact Hin.
  - now rewrite Hlw.
  - exists fit. split; [exact Hfit'|].
    apply calc_fit_ok_bounds in Hfit' as (Hl & _).
    + now rewrite Hl, length_offsets.
    + rewrite length_map, Hlw. apply length_matrix_of_rows.
Qed.

(** A run of X11 on the triangle: the matrix returned fits the positions of
    the triangle. *)
Lemma calc_weights_internal_then_fit_witness :
  exists positions idx cells,
    FitCalculator._calc_weights_internal (H := triangle_mathutils) new_session triangle
      [(1 # 4, 1 # 4, 0); (3, 0, 0)] None = (new_session, Ok (positions, idx, cells)) /\
    length positions = 2%nat /\
    forall ws, cells = map Finite ws ->
      exists fit, calc_fit (verts triangle) (positions, idx, ws) = Ok fit /\
                  length fit = 2%nat.
Proof.
  eassert (Hpass : FitCalculator.fit_passes (H := triangle_mathutils) new_session triangle
                     [(1 # 4, 1 # 4, 0); (3, 0, 0)] None = (new_session, Ok _))
    by (vm_compute; reflexivity).
  apply (calc_weights_internal_then_fit (H := triangle_mathutils) _ _ _ _ _ _
           (verts triangle) euclid_nonneg Hpass).
  - discriminate.
  - reflexivity.
  - vm_compute. discriminate.
  - vm_compute. reflexivity.
Defined.

(** ** Fitted positions stay in the bounding box *)

Lemma Geometry_bbox_ok (g : Geometry) (lo hi : vec3) :
  Geometry_bbox g = Ok (lo, hi) ->
  forall v, In v (verts g) -> vec3_le lo v /\ vec3_le v hi.
Proof.
  unfold Geometry_bbox. destruct (verts g) as [|v0 vs]; simpl; [discriminate|].
  intros [= <- <-] v Hv.
  destruct (fold_minimum_spec vs v0) as [Hmin _].
  destruct (fold_maximum_spec vs v0) as [Hmax _].
  split; [now apply Hmin|now apply Hmax].
Qed.

Lemma row_dot_box (arr : list vec3) (row : wdict) (lo hi : vec3) :
  Forall (fun kv => 0 <= snd kv /\
                    exists a, arr !! fst kv = Some a /\ vec3_le lo a /\ vec3_le a hi) row ->
  vec3_le (vec3_scale (Qsum (Dict.values row)) lo) (row_dot arr row) /\
  vec3_le (row_dot arr row) (vec3_scale (Qsum (Dict.values row)) hi).
Proof.
  induction 1 as [|[k w] row (Hw & a & Ha & Hlo & Hhi) _ IH].
  - destruct lo as [[lx ly] lz], hi as [[hx hy] hz].
    unfold row_dot, csum. simpl. repeat split; lra.
  - rewrite row_dot_cons. simpl fst in Ha. rewrite Ha. simpl default.
    simpl Dict.values. simpl Qsum. fold (Dict.values row).
    simpl snd in Hw.
    set (S := Qsum (Dict.values row)) in *.
    destruct (row_dot arr row) as [[rx ry] rz].
    destruct lo as [[lx ly] lz], hi as [[hx hy] hz], a as [[ax ay] az].
    simpl in *. repeat split; nra.
Qed.

(** X12: a fit through rows that are convex combinations stays in the
    bounding box.  When no weight is negative and every row sums to one, as
    after [weights_normalize], every position [calc_fit] computes from the
    vertices of a geometry lies in the box [Geometry.bbox] returns for it. *)
Theorem calc_fit_within_bbox (g : Geometry) (rows : list wdict) (lo hi : vec3) :
  Geometry_bbox g = Ok (lo, hi) ->
  Forall (fun r => well_formed_row (length (verts g)) r /\ Qsum (Dict.values r) == 1) rows ->
  (Z.of_nat (length (concat rows)) < two32)%Z ->
  exists fit,
    calc_fit (verts g) (matrix_of_rows rows) = Ok fit /\
    length fit = length rows /\
    Forall (fun p => vec3_le lo p /\ vec3_le p hi) fit.
Proof.
  intros Hbox Hrows Hb. exists (map (row_dot (verts g)) rows).
  split; [|split; [apply length_map|]].
  - apply calc_fit_matrix_of_rows; [| |exact Hb].
    + eapply Forall_impl; [exact Hrows|]. now intros r [[? _] _].
    + eapply Forall_impl; [exact Hrows|]. intros r [[_ Hall] _].
      eapply Forall_impl; [exact Hall|]. now intros kv [? _].
  - apply Forall_fmap. eapply Forall_impl; [exact Hrows|].
    intros r [[_ Hall] Hsum]. simpl.
    destruct (row_dot_box (verts g) r lo hi) as [Hlo Hhi].
    { eapply Forall_impl; [exact Hall|]. intros kv [Hlt Hw]. split; [exact Hw|].
      destruct (lookup_lt_is_Some_2 _ _ Hlt) as [a Ha]. exists a. split; [exact Ha|].
      apply (Geometry_bbox_ok g lo hi Hbox). apply list_elem_of_In.
      eapply list_elem_of_lookup_2. exact Ha. }
    destruct (row_dot (verts g) r) as [[rx ry] rz].
    destruct lo as [[lx ly] lz], hi as [[hx hy] hz]. simpl in *.
    rewrite Hsum in Hlo, Hhi. repeat split; lra.
Qed.

(** A run of X12: the midpoint of an edge of the triangle lies in its box. *)
Lemma calc_fit_within_bbox_witness :
  exists fit,
    calc_fit (verts triangle) (matrix_of_rows [[(1%nat, 1 # 2); (2%nat, 1 # 2)]]) = Ok fit /\
    length fit = 1%nat /\
    Forall (fun p => vec3_le (0, 0, 0) p /\ vec3_le p (1, 1, 0)) fit.
Proof.
  apply (calc_fit_within_bbox triangle [[(1%nat, 1 # 2); (2%nat, 1 # 2)]]).
  - reflexivity.
  - apply Forall_cons; split; [|apply Forall_nil; exact I].
    split; [|reflexivity]. split; [discriminate|].
    apply Forall_cons; split; [split; [simpl; lia|discriminate]|].
    apply Forall_cons; split; [split; [simpl; lia|discriminate]|apply Forall_nil; exact I].
  - reflexivity.
Defined.

(** ** Transfer of vertex groups *)

Lemma np_put_loop_spec (P : Q -> Prop) (v : list Q) (ind : list Z) (a : list Q) (i : nat) :
  v <> [] ->
  length (fst (np_put_loop a ind i v)) = length a /\
  (Forall P a -> Forall P v -> Forall P (fst (np_put_loop a ind i v))) /\
  (Forall (fun k => (- Z.of_nat (length a) <= k < Z.of_nat (length a))%Z) ind ->
   snd (np_put_loop a ind i v) = None) /\
  (forall e, snd (np_put_loop a ind i v) = Some e -> e = IndexError).
Proof.
  intros Hv. revert a i. induction ind as [|k ind IH]; intros a i.
  - simpl. repeat split; auto. discriminate.
  - cbn [np_put_loop].
    destruct (Z.ltb k (- Z.of_nat (length a)) || Z.leb (Z.of_nat (length a)) k)%bool eqn:Ek.
    + simpl. repeat split; auto.
      * intros HF. apply Forall_cons in HF as [Hk _].
        apply orb_true_iff in Ek as [Ek|Ek]; lia.
      * now intros e [= <-].
    + assert (Hlt : (i mod length v < length v)%nat).
      { apply Nat.mod_upper_bound. destruct v; [congruence|discriminate]. }
      destruct (lookup_lt_is_Some_2 v _ Hlt) as [x Hx]. rewrite Hx.
      set (k' := Z.to_nat (if Z.ltb k 0 then (k + Z.of_nat (length a))%Z else k)).
      destruct (IH (<[k' := x]> a) (S i)) as (Hl & HP & Hok & He).
      rewrite length_insert in Hl, Hok. repeat split.
      * exact Hl.
      * intros Ha Hvs. apply HP; [|exact Hvs]. apply Forall_insert; [exact Ha|].
        eapply Forall_lookup_1; [exact Hvs|exact Hx].
      * intros HF. apply Forall_cons in HF as [_ HF]. now apply Hok.
      * exact He.
Qed.

Lemma np_put_spec (P : Q -> Prop) (a : list Q) (ind : list Z) (v : list Q) :
  length (fst (np_put a ind v)) = length a /\
  (Forall P a -> Forall P v -> Forall P (fst (np_put a ind v))) /\
  (Forall (fun k => (- Z.of_nat (length a) <= k < Z.of_nat (length a))%Z) ind ->
   snd (np_put a ind v) = None) /\
  (forall e, snd (np_put a ind v) = Some e -> e = IndexError).
Proof.
  unfold np_put. destruct ind as [|k ind].
  - destruct v; simpl; repeat split; auto; discriminate.
  - destruct a as [|x a].
    + simpl. repeat split; auto.
      * intros HF. apply Forall_cons in HF as [Hk _]. simpl in Hk. lia.
      * now intros e [= <-].
    + destruct v as [|y v].
      * simpl. repeat split; auto. discriminate.
      * apply np_put_loop_spec. discriminate.
Qed.

Lemma transfer_weights_iter_loop_spec (weights : weight_matrix) (groups : list vg_item)
    (tmp_buf : list Q) :
  exists buf',
    transfer_weights_iter_loop tmp_buf weights groups
    = (fst (until_error (map (transfer_group (length tmp_buf) weights) groups)),
       snd (until_error (map (transfer_group (length tmp_buf) weights) groups)), buf') /\
    length buf' = length tmp_buf.
Proof.
  revert tmp_buf. induction groups as [|[[name vg_idx] vg_weights] groups IH]; intros tmp_buf.
  - exists tmp_buf. split; reflexivity.
  - cbn [transfer_weights_iter_loop map until_error]. unfold transfer_group at 1 3, vg_dense.
    destruct (np_put_spec (fun _ => True) (replicate (length tmp_buf) 0) vg_idx vg_weights)
      as (Hl & _).
    rewrite length_replicate in Hl.
    destruct (np_put (replicate (length tmp_buf) 0) vg_idx vg_weights) as [buf [e|]].
    + exists buf. split; [reflexivity|exact Hl].
    + simpl in Hl. destruct (calc_fit buf weights) as [arr|e]; simpl.
      * destruct (IH buf) as (buf' & Hloop & Hl'). rewrite Hloop, Hl.
        destruct (until_error (map (transfer_group (length tmp_buf) weights) groups))
          as [items e]. simpl. exists buf'. split; [reflexivity|congruence].
      * exists buf. split; [reflexivity|exact Hl].
Qed.

(** X13: the shared buffer of [_transfer_weights_iter_arrays] never leaks
    from one group, or one call, to the next.  Whatever the buffer holds when
    the iteration starts (the memory [numpy.empty] found, or the last group
    of an earlier call), the arrays yielded and the exception that ends the
    iteration are those of every group transferred on its own from an array
    of zeros, up to the first group that raises; and the buffer keeps its
    length. *)
Theorem transfer_weights_iter_arrays_ignores_buffer
    (tmp_buf : option (list Q)) (uninit : nat -> Q) (nverts : nat)
    (weights : weight_matrix) (groups : list vg_item) :
  (forall b, tmp_buf = Some b -> length b = nverts) ->
  exists buf',
    _transfer_weights_iter_arrays tmp_buf uninit nverts weights groups
    = (fst (until_error (map (transfer_group nverts weights) groups)),
       snd (until_error (map (transfer_group nverts weights) groups)), buf') /\
    length buf' = nverts.
Proof.
  intros Hb. unfold _transfer_weights_iter_arrays.
  set (buf := match tmp_buf with
              | Some b => b
              | None => map uninit (seq 0 nverts)
              end).
  assert (Hl : length buf = nverts).
  { unfold buf. destruct tmp_buf as [b|]; [now apply Hb|].
    now rewrite length_map, length_seq. }
  destruct (transfer_weights_iter_loop_spec weights groups buf) as (buf' & Hloop & Hl').
  rewrite Hl in Hloop. exists buf'. split; [exact Hloop|congruence].
Qed.

(** A run of X13: a buffer left dirty by an earlier call changes nothing. *)
Lemma transfer_weights_iter_arrays_ignores_buffer_witness :
  exists buf',
    _transfer_weights_iter_arrays (Some [7; 7; 7]) (fun _ => 0) 3
      ([0; 1]%Z, [0; 2]%Z, [1; 1]) [("arm"%string, [2]%Z, [1 # 2])]
    = (fst (until_error (map (transfer_group 3 ([0; 1]%Z, [0; 2]%Z, [1; 1]))
                             [("arm"%string, [2]%Z, [1 # 2])])),
       snd (until_error (map (transfer_group 3 ([0; 1]%Z, [0; 2]%Z, [1; 1]))
                             [("arm"%string, [2]%Z, [1 # 2])])), buf') /\
    length buf' = 3%nat.
Proof.
  apply transfer_weights_iter_arrays_ignores_buffer.
  intros b [= <-]. reflexivity.
Defined.

Lemma nonzero_gt_spec (cutoff : Q) (ws : list Q) (i : nat) :
  increasing (nonzero_gt cutoff i ws) /\
  (forall z, In z (nonzero_gt cutoff i ws) <->
             exists k x, z = Z.of_nat (i + k) /\ ws !! k = Some x /\ cutoff < x).
Proof.
  revert i. induction ws as [|w ws IH]; intros i; simpl.
  - split; [intros i' j a b _ Ha; discriminate|]. intros z. split; [intros []|].
    intros (k & x & _ & Hk & _). discriminate.
  - destruct (IH (S i)) as [Hs Hin].
    assert (Htail : forall z, In z (nonzero_gt cutoff (S i) ws) ->
                              (Z.of_nat i < z)%Z).
    { intros z Hz. apply Hin in Hz as (k & x & -> & _). lia. }
    assert (Hshift : forall z,
              (exists k x, z = Z.of_nat (S i + k) /\ ws !! k = Some x /\ cutoff < x) <->
              (exists k x, z = Z.of_nat (i + S k) /\ ws !! k = Some x /\ cutoff < x)).
    { intros z. split; intros (k & x & -> & Hk & Hx); exists k, x;
        (split; [f_equal; lia|auto]). }
    destruct (Qltb cutoff w) eqn:Ew.
    + apply Qltb_spec in Ew. split.
      * intros [|i'] [|j] a b Hij Ha Hb; try lia; simpl in Ha, Hb.
        -- injection Ha as <-. apply Htail. apply list_elem_of_In.
           eapply list_elem_of_lookup_2. exact Hb.
        -- apply (Hs i' j a b); [lia|exact Ha|exact Hb].
      * intros z. split.
        -- intros [<-|Hz].
           ++ exists 0%nat, w. split; [f_equal; lia|]. split; [reflexivity|exact Ew].
           ++ apply Hin, Hshift in Hz as (k & x & -> & Hk & Hx).
              exists (S k), x. auto.
        -- intros ([|k] & x & -> & Hk & Hx).
           ++ left. f_equal. lia.
           ++ right. apply Hin, Hshift. exists k, x. auto.
    + assert (Hw : ~ cutoff < w) by (rewrite <- Qltb_spec; congruence).
      split; [exact Hs|]. intros z. split.
      * intros Hz. apply Hin, Hshift in Hz as (k & x & -> & Hk & Hx).
        exists (S k), x. auto.
      * intros ([|k] & x & -> & Hk & Hx).
        -- simpl in Hk. injection Hk as <-. contradiction.
        -- apply Hin, Hshift. exists k, x. auto.
Qed.

Lemma np_take_nonzero_gt (cutoff : Q) (pre ws : list Q) :
  np_take (pre ++ ws) (nonzero_gt cutoff (length pre) ws)
  = Ok (List.filter (Qltb cutoff) ws).
Proof.
  revert pre. induction ws as [|w ws IH]; intros pre; simpl; [reflexivity|].
  specialize (IH (pre ++ [w])). rewrite <- app_assoc in IH. simpl in IH.
  rewrite length_app in IH. simpl in IH. rewrite Nat.add_1_r in IH.
  destruct (Qltb cutoff w); [|exact IH].
  simpl. rewrite Nat2Z.id, lookup_app_r by lia. rewrite Nat.sub_diag. simpl.
  rewrite IH. reflexivity.
Qed.

Lemma nonzero_gt_nonempty (cutoff : Q) (ws : list Q) (i : nat) :
  Nat.ltb 0 (length (nonzero_gt cutoff i ws)) = existsb (Qltb cutoff) ws.
Proof.
  revert i. induction ws as [|w ws IH]; intros i; simpl; [reflexivity|].
  destruct (Qltb cutoff w); simpl; [reflexivity|apply IH].
Qed.

(** What [_transfer_weights_get] yields for the array [arr] of the group
    [name]: the positions of the weights above [cutoff], in increasing
    order, and the weights there. *)
Lemma transfer_weights_get_loop_spec (cutoff : Q) (items : list (string * list Q)) :
  exists out,
    transfer_weights_get_loop cutoff items = (out, None) /\
    Forall2 (fun item y =>
               nonzero_gt cutoff 0 (snd item) <> [] /\
               y = (fst item, nonzero_gt cutoff 0 (snd item),
                    List.filter (Qltb cutoff) (snd item)))
            (List.filter (fun item => existsb (Qltb cutoff) (snd item)) items) out.
Proof.
  induction items as [|[name arr] items (out & Hout & HF)]; simpl.
  - exists []. split; [reflexivity|constructor].
  - pose proof (nonzero_gt_nonempty cutoff arr 0) as Hne. rewrite Hne.
    destruct (existsb (Qltb cutoff) arr) eqn:Ex; simpl.
    + pose proof (np_take_nonzero_gt cutoff [] arr) as Htake. simpl in Htake.
      rewrite Htake, Hout.
      eexists. split; [reflexivity|]. constructor; [|exact HF].
      split; [|reflexivity]. simpl. intros E. rewrite E in Hne. discriminate.
    + exists out. split; [exact Hout|exact HF].
Qed.

(** X14: what [_transfer_weights_get] yields.  The filtering step never
    raises: the generator ends with the exception of the iteration over the
    groups, if any.  It yields, in order, one triple per transferred group
    that has a weight above [cutoff], and drops the other groups; the triple
    of a group holds the positions of its weights above [cutoff], in
    strictly increasing order and none missing, and exactly the weights at
    these positions, all above [cutoff]. *)
Theorem transfer_weights_get_yields
    (tmp_buf : option (list Q)) (uninit : nat -> Q) (nverts : nat)
    (weights : weight_matrix) (groups : list vg_item) (cutoff : Q) :
  (forall b, tmp_buf = Some b -> length b = nverts) ->
  let items := fst (until_error (map (transfer_group nverts weights) groups)) in
  exists out,
    _transfer_weights_get tmp_buf uninit nverts weights groups cutoff
    = (out, snd (until_error (map (transfer_group nverts weights) groups))) /\
    Forall2 (fun item y =>
               let '(name, idx, w) := y in
               name = fst item /\
               idx <> [] /\
               increasing idx /\
               (forall z, In z idx <->
                          exists k x, z = Z.of_nat k /\ snd item !! k = Some x /\ cutoff < x) /\
               np_take (snd item) idx = Ok w /\
               Forall (fun x => cutoff < x) w)
            (List.filter (fun item => existsb (Qltb cutoff) (snd item)) items) out.
Proof.
  intros Hb items. unfold _transfer_weights_get.
  destruct (transfer_weights_iter_loop_spec weights groups
              (match tmp_buf with
               | Some b => b
               | None => map uninit (seq 0 nverts)
               end)) as (buf' & Hloop & _).
  assert (Hl : length (match tmp_buf with
                       | Some b => b
                       | None => map uninit (seq 0 nverts)
                       end) = nverts).
  { destruct tmp_buf as [b|]; [now apply Hb|]. now rewrite length_map, length_seq. }
  rewrite Hl in Hloop. unfold _transfer_weights_iter_arrays. rewrite Hloop.
  fold items.
  destruct (transfer_weights_get_loop_spec cutoff items) as (out & Hout & HF).
  rewrite Hout. exists out. split; [reflexivity|].
  eapply Forall2_impl; [exact HF|].
  intros [name arr] [[name' idx] w] [Hne [= -> -> ->]]. simpl in *.
  destruct (nonzero_gt_spec cutoff arr 0) as [Hs Hin].
  split; [reflexivity|]. split; [exact Hne|]. split; [exact Hs|].
  split; [exact Hin|]. split.
  - exact (np_take_nonzero_gt cutoff [] arr).
  - apply List.Forall_forall. intros x Hx. apply List.filter_In in Hx as [_ Hx].
    now apply Qltb_spec.
Qed.

(** A run of X14: of two groups, the one whose transferred weights stay
    below the cutoff is dropped. *)
Lemma transfer_weights_get_yields_witness :
  _transfer_weights_get None (fun _ => 5) 3 ([0; 1]%Z, [0; 2]%Z, [1; 1])
    [("arm"%string, [2]%Z, [1 # 2]); ("leg"%string, [1]%Z, [1])] transfer_cutoff
  = ([("arm"%string, [1]%Z, [1 # 2])], None).
Proof.
  destruct (transfer_weights_get_yields None (fun _ => 5) 3 ([0; 1]%Z, [0; 2]%Z, [1; 1])
              [("arm"%string, [2]%Z, [1 # 2]); ("leg"%string, [1]%Z, [1])] transfer_cutoff)
    as (out & Hout & _); [discriminate|].
  rewrite Hout. vm_compute in Hout. injection Hout as <-. vm_compute. reflexivity.
Defined.


(** X15: transferred vertex-group weights stay in range.  Through a matrix
    whose rows are convex combinations (no negative weight, every row summing
    to one, every key naming a character vertex), a group whose indices are
    valid and whose weights lie in [[0, hi]] is transferred without an
    exception, to one weight per row, each in [[0, hi]]. *)
Theorem transferred_weights_stay_in_range (nverts : nat) (rows : list wdict)
    (name : string) (vg_idx : list Z) (vg_weights : list Q) (hi : Q) :
  0 <= hi ->
  Forall (fun r => well_formed_row nverts r /\ Qsum (Dict.values r) == 1) rows ->
  (Z.of_nat (length (concat rows)) < two32)%Z ->
  Forall (fun k => (- Z.of_nat nverts <= k < Z.of_nat nverts)%Z) vg_idx ->
  Forall (fun x => 0 <= x /\ x <= hi) vg_weights ->
  exists arr,
    transfer_group nverts (matrix_of_rows rows) (name, vg_idx, vg_weights) = Ok (name, arr) /\
    length arr = length rows /\
    Forall (fun x => 0 <= x /\ x <= hi) arr.
Proof.
  intros Hhi Hrows Hb Hidx Hw. unfold transfer_group, vg_dense.
  destruct (np_put_spec (fun x => 0 <= x /\ x <= hi) (replicate nverts 0) vg_idx vg_weights)
    as (Hl & HP & Hok & _).
  rewrite length_replicate in Hl, Hok. specialize (Hok Hidx).
  assert (Hbuf : Forall (fun x => 0 <= x /\ x <= hi)
                        (fst (np_put (replicate nverts 0) vg_idx vg_weights))).
  { apply HP; [|exact Hw]. apply Forall_replicate. split; [lra|exact Hhi]. }
  destruct (np_put (replicate nverts 0) vg_idx vg_weights) as [buf oe].
  simpl in Hl, Hok, Hbuf. subst oe.
  rewrite calc_fit_matrix_of_rows; [| | |exact Hb].
  - simpl. eexists. split; [reflexivity|]. split; [apply length_map|].
    apply Forall_fmap. eapply Forall_impl; [exact Hrows|].
    intros r [[_ Hall] Hsum]. unfold compose.
    destruct (row_dot_bounds buf r 0 hi) as [Hlo Hup].
    { eapply Forall_impl; [exact Hall|]. intros kv [Hlt Hv]. split; [exact Hv|].
      rewrite <- Hl in Hlt. destruct (lookup_lt_is_Some_2 _ _ Hlt) as [a Ha].
      exists a. split; [exact Ha|].
      exact (Forall_lookup_1 _ _ _ _ Hbuf Ha). }
    rewrite Hsum in Hlo, Hup. split; lra.
  - eapply Forall_impl; [exact Hrows|]. now intros r [[? _] _].
  - eapply Forall_impl; [exact Hrows|]. intros r [[_ Hall] _].
    eapply Forall_impl; [exact Hall|]. intros kv [Hlt _]. now rewrite Hl.
Qed.

(** A run of X15: a group given by an index counted from the end. *)
Lemma transferred_weights_stay_in_range_witness :
  exists arr,
    transfer_group 3 (matrix_of_rows [[(0%nat, 1 # 2); (2%nat, 1 # 2)]])
      ("arm"%string, [-1]%Z, [1 # 2]) = Ok ("arm"%string, arr) /\
    length arr = 1%nat /\
    Forall (fun x => 0 <= x /\ x <= 1) arr.
Proof.
  apply (transferred_weights_stay_in_range 3 [[(0%nat, 1 # 2); (2%nat, 1 # 2)]]
           "arm"%string [-1]%Z [1 # 2] 1).
  - discriminate.
  - apply Forall_cons; split; [|apply Forall_nil; exact I].
    split; [|reflexivity]. split; [discriminate|].
    apply Forall_cons; split; [split; [simpl; lia|discriminate]|].
    apply Forall_cons; split; [split; [simpl; lia|discriminate]|apply Forall_nil; exact I].
  - reflexivity.
  - apply Forall_cons; split; [lia|apply Forall_nil; exact I].
  - apply Forall_cons; split; [split; discriminate|apply Forall_nil; exact I].
Defined.

(** ** The rows of [calc_weights_kd] *)

Lemma nearest_first_lookup (l : list kd_item) (i j : nat) (p q : kd_item) :
  nearest_first l -> (i <= j)%nat -> l !! i = Some p -> l !! j = Some q ->
  kd_dist p <= kd_dist q.
Proof.
  revert i j. induction l as [|x l IH]; intros i j Hnf Hij Hp Hq; [discriminate|].
  destruct Hnf as [Hx Hnf]. destruct i as [|i], j as [|j]; simpl in Hp, Hq.
  - injection Hp as <-. injection Hq as <-. lra.
  - injection Hp as <-. apply Hx. apply list_elem_of_In.
    eapply list_elem_of_lookup_2. exact Hq.
  - lia.
  - apply (IH i j); [exact Hnf|lia|exact Hp|exact Hq].
Qed.

Lemma kd_weight_monotone (maxdist _epsilon : Q) (p q : kd_item) :
  0 < _epsilon -> 0 <= kd_dist p -> kd_dist p <= kd_dist q -> kd_dist q <= maxdist ->
  0 < maxdist ->
  0 <= kd_weight maxdist _epsilon q /\
  kd_weight maxdist _epsilon q <= kd_weight maxdist _epsilon p.
Proof.
  intros Heps Hp Hpq Hq Hm. unfold kd_weight, Qdiv.
  set (dp := kd_dist p) in *. set (dq := kd_dist q) in *.
  pose proof (py_max_ge_l dp _epsilon) as Hp1. pose proof (py_max_ge_r dp _epsilon) as Hp2.
  pose proof (py_max_ge_l dq _epsilon) as Hq1. pose proof (py_max_ge_r dq _epsilon) as Hq2.
  assert (Hle : py_max dp _epsilon <= py_max dq _epsilon).
  { unfold py_max at 1. destruct (Qltb dp _epsilon); lra. }
  set (Dp := py_max dp _epsilon) in *. set (Dq := py_max dq _epsilon) in *.
  assert (Hc : 0 < / maxdist) by now apply Qinv_lt_0_compat.
  assert (Hc1 : maxdist * / maxdist == 1) by (apply Qmult_inv_r; lra).
  assert (Ha : 0 < / Dp) by (apply Qinv_lt_0_compat; lra).
  assert (Ha1 : Dp * / Dp == 1) by (apply Qmult_inv_r; lra).
  assert (Hb : 0 < / Dq) by (apply Qinv_lt_0_compat; lra).
  assert (Hb1 : Dq * / Dq == 1) by (apply Qmult_inv_r; lra).
  set (c := / maxdist) in *. set (a := / Dp) in *. set (b := / Dq) in *.
  assert (Hba : b <= a).
  { destruct (Qlt_le_dec a b) as [Hlt|]; [|assumption]. exfalso.
    assert (Dp * a < Dq * b); [|lra].
    apply Qle_lt_trans with (Dq * a); [nra|nra]. }
  assert (Hqc : dq * c <= 1) by nra.
  assert (Hpc : dp * c <= dq * c) by nra.
  split; [nra|].
  apply Qle_trans with ((1 - dq * c) * a); [nra|nra].
Qed.

Lemma kd_row_items_zero (p : kd_item) (rest : list kd_item) (maxdist _epsilon : Q) :
  maxdist == 0 -> kd_row_items (p :: rest) maxdist _epsilon = Err ZeroDivisionError.
Proof. intros Hm. simpl. now rewrite py_div_zero. Qed.

Section KdRows.
Context `{Mathutils}.
Hypothesis distance_nonneg : forall a b, 0 <= distance a b.

(** X16: the outcome of one row of [calc_weights_kd], for an index whose ids
    are distinct and a host library whose distances are not negative.  The
    row is refused with [ValueError] exactly when there is nothing to find
    ([n = 0] or an empty index) and with [ZeroDivisionError] exactly when all
    the vertices found lie on the query point.  Otherwise it holds the
    vertices found, nearest first, with weights that are never negative and
    never increase with the distance, and the farthest vertex found has
    weight zero: of [n] neighbours at most [n - 1] contribute. *)
Theorem kd_row_outcome (kd : kdtree) (v : vec3) (_epsilon : Q) (n : nat) :
  0 < _epsilon ->
  NoDup (map snd kd) ->
  match kd_row kd v _epsilon n with
  | Err e =>
      (e = ValueError /\ (n = 0%nat \/ kd = [])) \/
      (e = ZeroDivisionError /\ (0 < n)%nat /\ kd <> [] /\
       forall p, In p (find_n kd v n) -> kd_dist p == 0)
  | Ok row =>
      (0 < n)%nat /\ kd <> [] /\
      (exists p, In p (find_n kd v n) /\ ~ kd_dist p == 0) /\
      length row = Nat.min n (length kd) /\
      Dict.keys row = map kd_index (find_n kd v n) /\
      (forall i j wi wj, (i <= j)%nat ->
         Dict.values row !! i = Some wi -> Dict.values row !! j = Some wj ->
         0 <= wj /\ wj <= wi) /\
      exists w, last (Dict.values row) = Some w /\ w == 0
  end.
Proof.
  intros Heps Hnd.
  destruct (find_n_nearest kd v n) as (Hlen & Hnf & _).
  assert (Hempty : find_n kd v n = [] <-> n = 0%nat \/ kd = []).
  { rewrite <- length_zero_iff_nil, Hlen.
    destruct n, kd; simpl; split; intros; try lia; try discriminate; auto.
    destruct H0; discriminate. }
  destruct (py_max_list (map kd_dist (find_n kd v n))) as [maxdist|e] eqn:Em.
  2:{ assert (Hnil : find_n kd v n = []).
      { destruct (find_n kd v n); [reflexivity|discriminate]. }
      unfold kd_row. rewrite Em. simpl. left.
      split; [|now apply Hempty].
      destruct (find_n kd v n); [simpl in Em; congruence|discriminate]. }
  pose proof (py_max_list_is_max _ _ Em) as [Hin Hmax].
  assert (Hne : find_n kd v n <> []).
  { intros E. rewrite E in Hin. destruct Hin. }
  assert (Hn : (0 < n)%nat /\ kd <> []).
  { split.
    - destruct n; [|lia]. exfalso. apply Hne, Hempty. now left.
    - intros ->. apply Hne, Hempty. now right. }
  assert (Hpos : forall p, In p (find_n kd v n) -> 0 <= kd_dist p /\ kd_dist p <= maxdist).
  { intros p Hp. split; [now apply (find_n_dist_nonneg distance_nonneg kd v n)|].
    apply Hmax. now apply in_map. }
  destruct (Qeq_dec maxdist 0) as [Hz|Hnz].
  - unfold kd_row. rewrite Em. simpl.
    destruct (find_n kd v n) as [|p rest] eqn:Ef; [congruence|].
    rewrite kd_row_items_zero by exact Hz. simpl. right.
    split; [reflexivity|]. split; [tauto|]. split; [tauto|].
    intros q Hq. destruct (Hpos q Hq). lra.
  - destruct (kd_row_spec kd v _epsilon n maxdist Heps Hnd Em Hnz) as (_ & _ & ->).
    apply in_map_iff in Hin as (pm & Hpm & Hpmin).
    assert (Hm0 : 0 < maxdist).
    { destruct (Hpos pm Hpmin). lra. }
    split; [tauto|]. split; [tauto|]. split.
    { exists pm. split; [exact Hpmin|]. rewrite Hpm. exact Hnz. }
    split; [now rewrite length_map|]. split.
    { unfold Dict.keys. rewrite map_map. reflexivity. }
    unfold Dict.values. rewrite map_map. simpl. split.
    + intros i j wi wj Hij Hi Hj.
      rewrite list_lookup_fmap in Hi, Hj.
      destruct (find_n kd v n !! i) as [p|] eqn:Ep; [|discriminate].
      destruct (find_n kd v n !! j) as [q|] eqn:Eq; [|discriminate].
      injection Hi as <-. injection Hj as <-.
      assert (Hp : In p (find_n kd v n)).
      { apply list_elem_of_In. eapply list_elem_of_lookup_2. exact Ep. }
      assert (Hq : In q (find_n kd v n)).
      { apply list_elem_of_In. eapply list_elem_of_lookup_2. exact Eq. }
      apply kd_weight_monotone; try assumption.
      * now apply Hpos.
      * now apply (nearest_first_lookup (find_n kd v n) i j).
      * now apply Hpos.
    + rewrite fmap_last.
      destruct (last (find_n kd v n)) as [q|] eqn:El.
      2:{ apply last_None in El. congruence. }
      exists (kd_weight maxdist _epsilon q). split; [reflexivity|].
      assert (Hq : In q (find_n kd v n)).
      { apply list_elem_of_In. apply last_Some_elem_of. exact El. }
      assert (Hqm : kd_dist q == maxdist).
      { apply Qle_antisym; [now apply Hpos|]. rewrite <- Hpm.
        apply list_elem_of_In, list_elem_of_lookup in Hpmin as [i Hi].
        rewrite last_lookup in El.
        apply (nearest_first_lookup (find_n kd v n) i (pred (length (find_n kd v n))));
          [exact Hnf| |exact Hi|exact El].
        apply lookup_lt_Some in Hi. lia. }
      assert (Hr : kd_dist q / maxdist == 1) by (rewrite Hqm; field; lra).
      unfold kd_weight. rewrite Hr. unfold Qdiv.
      assert (Hz : 1 - 1 == 0) by ring. rewrite Hz. apply Qmult_0_l.
Qed.

End KdRows.

(** A run of X16 on the triangle, seen from (3, 0, 0): three neighbours, the
    farthest of weight zero. *)
Lemma kd_row_outcome_witness :
  exists row,
    kd_row (H := triangle_mathutils) (kdtree_from_verts (verts triangle)) (3, 0, 0)
      epsilon 16 = Ok row /\
    length row = 3%nat /\
    exists w, last (Dict.values row) = Some w /\ w == 0.
Proof.
  pose proof (kd_row_outcome (H := triangle_mathutils) euclid_nonneg
                (kdtree_from_verts (verts triangle)) (3, 0, 0) epsilon 16 epsilon_pos) as Hk.
  destruct (kd_row (H := triangle_mathutils) (kdtree_from_verts (verts triangle)) (3, 0, 0)
              epsilon 16) as [row|e] eqn:E.
  - destruct Hk as (_ & _ & _ & Hl & _ & _ & Hlast).
    + rewrite kdtree_from_verts_indices. apply NoDup_seq.
    + exists row. split; [reflexivity|]. split; [exact Hl|exact Hlast].
  - vm_compute in E. discriminate.
Defined.

(** ** Asset data *)

Lemma fit_passes_session {H : Mathutils} (st st' : session) (cg : Geometry)
    (asset_verts : list vec3) (a : AssetFitData) (weights : store) :
  no_string_keys st ->
  FitCalculator.fit_passes st cg asset_verts (Some a) = (st', Ok weights) ->
  st' = fst (FitCalculator._get_asset_geom st (OfAssetFitData a)).
Proof.
  intros Hno. unfold FitCalculator.fit_passes.
  destruct (do kd <- Geometry_kd cg;
            do weights <- calc_weights_kd kd asset_verts epsilon 16;
            run_pass (calc_weights_direct cg asset_verts) weights) as [w|e];
    [|discriminate].
  destruct (FitCalculator._get_asset_geom st (OfAssetFitData a)) as [st1 ag].
  now intros [= <- _].
Qed.

(** X17: [FitCalculator._get_asset_data] on a calculator whose cache misses,
    as every cache that starts empty does.  When it returns, the asset data
    hold the geometry of the object's mesh and a weight matrix with one row
    per vertex of that mesh; the geometry of the mesh has been built three
    times on the way (once for [afd.geom], twice more by [get_weights]), and
    the cache still has no entry a later lookup could hit. *)
Theorem get_asset_data_builds_geometry_thrice {H : Mathutils}
    (st st' : session) (cg : Geometry) (obj : Mesh) (afd : AssetFitData)
    (positions idx : list Z) (cells : list cell64) :
  no_string_keys st ->
  _get_asset_data st cg obj = (st', Ok (afd, (positions, idx, cells))) ->
  afd_obj afd = obj /\
  afd_geom afd = geom_mesh obj /\
  length positions = length (mesh_basis obj) /\
  geoms_built st' = (3 + geoms_built st)%nat /\
  geom_cache st' = <[inr (mesh_id obj) := geom_mesh obj]> (geom_cache st) /\
  no_string_keys st'.
Proof.
  intros Hno. unfold _get_asset_data.
  rewrite (get_asset_geom_builds st (OfObject obj) Hno). simpl get_mesh.
  set (st1 := {| geom_cache := <[inr (mesh_id obj) := geom_mesh obj]> (geom_cache st);
                 geoms_built := S (geoms_built st) |}).
  assert (Hno1 : no_string_keys st1).
  { intros key. unfold st1. simpl. rewrite lookup_insert_ne by discriminate. apply Hno. }
  set (a := {| afd_obj := obj; afd_geom := geom_mesh obj |}).
  unfold FitCalculator.get_weights.
  rewrite (get_asset_geom_builds st1 (OfAssetFitData a) Hno1). simpl get_mesh.
  set (st2 := {| geom_cache := _; geoms_built := S (geoms_built st1) |}).
  assert (Hno2 : no_string_keys st2).
  { intros key. unfold st2. simpl. rewrite lookup_insert_ne by discriminate. apply Hno1. }
  unfold FitCalculator._calc_weights_internal.
  destruct (FitCalculator.fit_passes st2 cg (verts (geom_mesh obj)) (Some a))
    as [st3 [weights|e]] eqn:Hpass; simpl; [|discriminate].
  pose proof (fit_passes_length _ _ _ _ _ _ Hpass) as Hlen.
  apply (fit_passes_session _ _ _ _ _ _ Hno2) in Hpass.
  rewrite (get_asset_geom_builds st2 (OfAssetFitData a) Hno2) in Hpass. simpl in Hpass.
  destruct (FitCalculator.convert_normalize weights) as [[[p i] c]|e] eqn:Hconv; simpl;
    [|discriminate].
  intros [= <- <- <- <- <-].
  split; [reflexivity|]. split; [reflexivity|]. split.
  { unfold FitCalculator.convert_normalize in Hconv.
    rewrite weights_convert_spec in Hconv.
    destruct (rmapM (prune true) weights) as [rows|] eqn:Hrows; simpl in Hconv;
      [|discriminate].
    destruct (weights_normalize _ _); simpl in Hconv; [|discriminate].
    injection Hconv as <- _ _. rewrite length_offsets.
    apply rmapM_Forall2, Forall2_length in Hrows.
    etransitivity; [symmetry; exact Hrows|exact Hlen]. }
  subst st3. simpl. split; [reflexivity|]. split.
  - rewrite !insert_insert_eq. reflexivity.
  - intros key. simpl. rewrite !lookup_insert_ne by discriminate. apply Hno.
Qed.

(** A run of X17: the asset data of the mesh "shirt" against the triangle. *)
Lemma get_asset_data_builds_geometry_thrice_witness :
  exists st' afd m,
    _get_asset_data (H := triangle_mathutils) new_session triangle (afd_obj shirt)
      = (st', Ok (afd, m)) /\
    geoms_built st' = 3%nat.
Proof.
  destruct (_get_asset_data (H := triangle_mathutils) new_session triangle (afd_obj shirt))
    as [st' [[afd [[positions idx] cells]]|e]] eqn:E.
  - exists st', afd, (positions, idx, cells). split; [reflexivity|].
    refine (proj1 (proj2 (proj2 (proj2
      (get_asset_data_builds_geometry_thrice (H := triangle_mathutils)
         new_session st' triangle (afd_obj shirt) afd positions idx cells _ E))))).
    intros key. apply lookup_empty.
  - vm_compute in E. discriminate.
Defined.

(** ** When the passes return *)

Lemma mbind_lift_ok {A B : Type} (r : result A) (a : A) (k : A -> M B) (s : store) :
  r = Ok a -> mbind (lift r) k s = k a s.
Proof. intros ->. reflexivity. Qed.

Lemma mbind_row_get_ok {B : Type} (row : nat) (d : wdict) (k : wdict -> M B) (s : store) :
  s !! row = Some d -> mbind (row_get row) k s = k d s.
Proof. intros Hd. unfold mbind, row_get. now rewrite Hd. Qed.

Lemma np_take_face (verts_ : list vec3) (face : list nat) :
  Forall (fun i => (i < length verts_)%nat) face ->
  exists pts, np_take verts_ (map Z.of_nat face) = Ok pts.
Proof.
  induction 1 as [|i face Hi _ [pts Hpts]]; simpl; [now exists []|].
  rewrite Nat2Z.id. destruct (lookup_lt_is_Some_2 verts_ i Hi) as [x Hx].
  rewrite Hx, Hpts. simpl. eexists. reflexivity.
Qed.

Section PassesReturn.
Context `{Mathutils}.
Hypothesis distance_nonneg : forall a b, 0 <= distance a b.

Lemma kd_row_returns (kd : kdtree) (v : vec3) (_epsilon : Q) (n : nat) :
  0 < _epsilon ->
  (exists p, In p (find_n kd v n) /\ ~ kd_dist p == 0) ->
  exists row, kd_row kd v _epsilon n = Ok row.
Proof.
  intros Heps (p & Hp & Hnz). unfold kd_row.
  destruct (py_max_list (map kd_dist (find_n kd v n))) as [maxdist|e] eqn:Em.
  - apply py_max_list_is_max in Em as [_ Hmax].
    pose proof (find_n_dist_nonneg distance_nonneg kd v n p Hp) as Hp0.
    pose proof (Hmax _ (in_map kd_dist _ _ Hp)) as Hpm.
    simpl. rewrite kd_row_items_ok; [|lra|exact Heps]. simpl. eexists. reflexivity.
  - destruct (find_n kd v n); [destruct Hp|discriminate].
Qed.

Lemma calc_weights_kd_returns (kd : kdtree) (verts_ : list vec3) (_epsilon : Q) (n : nat) :
  0 < _epsilon ->
  Forall (fun v => exists p, In p (find_n kd v n) /\ ~ kd_dist p == 0) verts_ ->
  exists rows, calc_weights_kd kd verts_ _epsilon n = Ok rows.
Proof.
  intros Heps. induction 1 as [|v vs Hv _ [rows Hrows]]; simpl; [now exists []|].
  destruct (kd_row_returns kd v _epsilon n Heps Hv) as [row ->]. simpl.
  rewrite Hrows. simpl. eexists. reflexivity.
Qed.

Lemma direct_vertex_returns (bvh : BVHTree) (cg : Geometry) (iv : nat * vec3) (s : store) :
  (forall loc idx fdist,
     find_nearest bvh (snd iv) dist_thresh = Some (loc, idx, fdist) ->
     (idx < length (faces cg))%nat) ->
  Forall (Forall (fun i => (i < length (verts cg))%nat)) (faces cg) ->
  (fst iv < length s)%nat ->
  exists s', direct_vertex bvh cg iv s = (s', Ok tt).
Proof.
  intros Hhit Hfaces Hrow. unfold direct_vertex.
  destruct (find_nearest bvh (snd iv) dist_thresh) as [[[loc idx] fdist]|] eqn:E;
    [|eexists; reflexivity].
  destruct (lookup_lt_is_Some_2 _ _ (Hhit loc idx fdist eq_refl)) as [face Hface].
  rewrite (mbind_lift_ok _ face) by now rewrite Hface.
  destruct (lookup_lt_is_Some_2 _ _ Hrow) as [d Hd].
  rewrite (mbind_row_get_ok _ d) by exact Hd.
  destruct (surface_factor_ok fdist epsilon epsilon_pos) as (f & Hf & _).
  rewrite (mbind_lift_ok _ f) by exact Hf.
  destruct (np_take_face (verts cg) face) as [pts Hpts].
  { exact (Forall_lookup_1 _ _ _ _ Hfaces Hface). }
  rewrite (mbind_lift_ok _ pts) by exact Hpts.
  apply (for_each_accumulate_ok (fun _ => fst iv) fst
           (fun vb old => Ok (py_max old (snd vb * f)))).
  - intros _ _. exact Hrow.
  - intros vb old _. eexists. reflexivity.
Qed.

Lemma calc_weights_direct_returns (cg : Geometry) (asset_verts : list vec3) (bvh : BVHTree)
    (s : store) :
  Geometry_bvh cg = Ok bvh ->
  (forall co loc idx fdist,
     find_nearest bvh co dist_thresh = Some (loc, idx, fdist) ->
     (idx < length (faces cg))%nat) ->
  Forall (Forall (fun i => (i < length (verts cg))%nat)) (faces cg) ->
  length s = length asset_verts ->
  exists s', run_pass (calc_weights_direct cg asset_verts) s = Ok s'.
Proof.
  intros Hbvh Hhit Hfaces Hlen. unfold run_pass, calc_weights_direct.
  rewrite (mbind_lift_ok _ bvh) by exact Hbvh.
  destruct (for_each_ok (fun _ _ => True) (direct_vertex bvh cg) (enumerate asset_verts) s)
    as [s' Hs'].
  - intros iv _. eapply writes_weaken; [|apply direct_vertex_writes]. auto.
  - intros iv s1 Hiv Hl. apply direct_vertex_returns; [apply Hhit|exact Hfaces|].
    apply list_elem_of_In, list_elem_of_lookup in Hiv as [n Hn].
    apply lookup_enumerate in Hn as [<- Hv]. apply lookup_lt_Some in Hv. lia.
  - rewrite Hs'. now exists s'.
Qed.

Lemma reverse_vertex_returns (bvh : BVHTree) (ag : Geometry) (reduce_func : Q -> Q -> Q)
    (i : nat) (cvert : vec3) (s : store) :
  (forall loc idx fdist,
     find_nearest bvh cvert dist_thresh = Some (loc, idx, fdist) ->
     (idx < length (faces ag))%nat) ->
  Forall (Forall (fun i => (i < length (verts ag))%nat /\ (i < length s)%nat)) (faces ag) ->
  exists s', reverse_vertex bvh ag reduce_func (i, Some cvert) s = (s', Ok tt).
Proof.
  intros Hhit Hfaces. unfold reverse_vertex. simpl fst. simpl snd.
  rewrite (mbind_lift_ok _ cvert) by reflexivity.
  destruct (find_nearest bvh cvert dist_thresh) as [[[loc idx] fdist]|] eqn:E;
    [|eexists; reflexivity].
  destruct (lookup_lt_is_Some_2 _ _ (Hhit loc idx fdist eq_refl)) as [face Hface].
  rewrite (mbind_lift_ok _ face) by now rewrite Hface.
  destruct (surface_factor_ok fdist reverse_epsilon reverse_epsilon_pos) as (f & Hf & _).
  rewrite (mbind_lift_ok _ f) by exact Hf.
  pose proof (Forall_lookup_1 _ _ _ _ Hfaces Hface) as Hface_ok.
  destruct (np_take_face (verts ag) face) as [pts Hpts].
  { eapply Forall_impl; [exact Hface_ok|]. now intros vi [? _]. }
  rewrite (mbind_lift_ok _ pts) by exact Hpts.
  apply (for_each_accumulate_ok fst (fun _ => i)
           (fun vb old => Ok (reduce_func old (snd vb * f)))).
  - intros vb Hvb. apply in_zip_fst in Hvb.
    now apply (proj1 (List.Forall_forall _ _) Hface_ok) in Hvb as [_ ?].
  - intros vb old _. eexists. reflexivity.
Qed.

Lemma calc_weights_reverse_returns (cg ag : Geometry) (kd : kdtree) (bvh : BVHTree)
    (reduce_func : Q -> Q -> Q) (s : store) :
  Geometry_kd cg = Ok kd ->
  Geometry_bvh ag = Ok bvh ->
  (forall co loc idx fdist,
     find_nearest bvh co dist_thresh = Some (loc, idx, fdist) ->
     (idx < length (faces ag))%nat) ->
  Forall (Forall (fun i => (i < length (verts ag))%nat /\ (i < length s)%nat)) (faces ag) ->
  exists s', run_pass (calc_weights_reverse (PyGeometry cg) ag reduce_func) s = Ok s'.
Proof.
  intros Hkd Hbvh Hhit Hfaces. unfold run_pass, calc_weights_reverse.
  rewrite (mbind_lift_ok _ bvh) by exact Hbvh.
  rewrite (mbind_lift_ok _ (verts_enum cg)) by reflexivity.
  unfold Geometry_kd in Hkd. apply kdtree_from_verts_enum_ok in Hkd.
  destruct (for_each_ok (fun _ _ => True) (reverse_vertex bvh ag reduce_func)
              (verts_enum cg) s) as [s' Hs'].
  - intros ic _. eapply writes_weaken; [|apply reverse_vertex_writes]. auto.
  - intros ic s1 Hic Hl. rewrite Hkd in Hic.
    apply in_map_iff in Hic as ([co i] & <- & _). simpl.
    apply reverse_vertex_returns; [apply Hhit|]. now rewrite Hl.
  - rewrite Hs'. now exists s'.
Qed.

(** X18: conditions under which the three passes of
    [_calc_weights_internal] return.  The host library gives no negative
    distance and only hits that name a polygon of the geometry searched; the
    nearest-vertex and the nearest-surface index of the character geometry
    can be built and its faces name vertices it has; every asset vertex has,
    among the 16 character vertices nearest to it, one that does not lie on
    it; and, when an asset is given and the cache misses, the
    nearest-surface index of the asset's mesh can be built and its faces name
    vertices of the mesh that are also rows of the weights.  Then no pass
    raises, and the passes leave one row per asset vertex. *)
Theorem fit_passes_return (st : session) (cg : Geometry) (asset_verts : list vec3)
    (afd : option AssetFitData) (kd : kdtree) (bvh : BVHTree) :
  Geometry_kd cg = Ok kd ->
  Geometry_bvh cg = Ok bvh ->
  (forall co loc idx fdist,
     find_nearest bvh co dist_thresh = Some (loc, idx, fdist) ->
     (idx < length (faces cg))%nat) ->
  Forall (Forall (fun i => (i < length (verts cg))%nat)) (faces cg) ->
  Forall (fun v => exists p, In p (find_n kd v 16) /\ ~ kd_dist p == 0) asset_verts ->
  (forall a, afd = Some a ->
     no_string_keys st /\
     exists bvh_a,
       Geometry_bvh (geom_mesh (afd_obj a)) = Ok bvh_a /\
       (forall co loc idx fdist,
          find_nearest bvh_a co dist_thresh = Some (loc, idx, fdist) ->
          (idx < length (mesh_polygons (afd_obj a)))%nat) /\
       Forall (Forall (fun i => (i < length (mesh_basis (afd_obj a)))%nat /\
                                (i < length asset_verts)%nat))
              (mesh_polygons (afd_obj a))) ->
  exists st' weights,
    FitCalculator.fit_passes st cg asset_verts afd = (st', Ok weights) /\
    length weights = length asset_verts.
Proof.
  intros Hkd Hbvh Hhit Hfaces Hnear Hasset.
  assert (Hgoal : exists st' weights,
            FitCalculator.fit_passes st cg asset_verts afd = (st', Ok weights)).
  { unfold FitCalculator.fit_passes. rewrite Hkd. simpl.
    destruct (calc_weights_kd_returns kd asset_verts epsilon 16 epsilon_pos Hnear)
      as [w0 Hw0].
    rewrite Hw0. simpl. pose proof (calc_weights_kd_length _ _ _ _ _ Hw0) as Hl0.
    destruct (calc_weights_direct_returns cg asset_verts bvh w0 Hbvh Hhit Hfaces Hl0)
      as [w1 Hw1].
    rewrite Hw1.
    pose proof (run_pass_length _ _ _ _ (calc_weights_direct_writes cg asset_verts) Hw1)
      as Hl1.
    destruct afd as [a|]; [|now exists st, w1].
    destruct (Hasset a eq_refl) as (Hno & bvh_a & Hbvh_a & Hhit_a & Hfaces_a).
    rewrite (get_asset_geom_builds st (OfAssetFitData a) Hno). simpl get_mesh.
    destruct (calc_weights_reverse_returns cg (geom_mesh (afd_obj a)) kd bvh_a py_max w1
                Hkd Hbvh_a Hhit_a) as [w2 Hw2].
    { simpl. rewrite Hl1, Hl0. exact Hfaces_a. }
    rewrite Hw2. eexists. now exists w2. }
  destruct Hgoal as (st' & weights & Hpass). exists st', weights.
  split; [exact Hpass|]. now apply fit_passes_length in Hpass.
Qed.

End PassesReturn.

Lemma scripted_hit_in_table (hits : list (vec3 * (vec3 * nat * Q))) (bary : list Q)
    (bvh : BVHTree (Mathutils := scripted_mathutils hits bary))
    (co loc : vec3) (idx : nat) (radius fdist : Q) :
  find_nearest (Mathutils := scripted_mathutils hits bary) bvh co radius
    = Some (loc, idx, fdist) ->
  exists c, In (c, (loc, idx, fdist)) hits.
Proof.
  simpl. destruct (List.find _ hits) as [[c [[loc' idx'] d]]|] eqn:Ef; [|discriminate].
  destruct (Qle_bool d radius); [|discriminate].
  intros [= <- <- <-]. exists c. now apply find_some in Ef as [Hin _].
Qed.

Lemma triangle_hits_face_0 (bvh : BVHTree (Mathutils := triangle_mathutils))
    (co loc : vec3) (idx : nat) (fdist : Q) :
  find_nearest (Mathutils := triangle_mathutils) bvh co dist_thresh = Some (loc, idx, fdist) ->
  (idx < 1)%nat.
Proof.
  intros Hhit. apply scripted_hit_in_table in Hhit as [c [Hin|[]]].
  injection Hin as _ _ <- _. lia.
Qed.

(** A run of X18 on the triangle, with an asset vertex on the face and one
    far away. *)
Lemma fit_passes_return_witness :
  exists st' weights,
    FitCalculator.fit_passes (H := triangle_mathutils) new_session triangle
      [(1 # 4, 1 # 4, 0); (3, 0, 0)] None = (st', Ok weights) /\
    length weights = 2%nat.
Proof.
  apply (fit_passes_return (H := triangle_mathutils) euclid_nonneg new_session triangle
           [(1 # 4, 1 # 4, 0); (3, 0, 0)] None
           (kdtree_from_verts (verts triangle)) tt).
  - reflexivity.
  - reflexivity.
  - intros co loc idx fdist. apply triangle_hits_face_0.
  - apply Forall_cons; split; [|apply Forall_nil; exact I].
    apply Forall_cons; split; [simpl; lia|].
    apply Forall_cons; split; [simpl; lia|].
    apply Forall_cons; split; [simpl; lia|apply Forall_nil; exact I].
  - apply Forall_cons; split.
    + exists ((1, 0, 0), 1%nat, euclid (1 # 4, 1 # 4, 0) (1, 0, 0)).
      split; [vm_compute; tauto|vm_compute; discriminate].
    + apply Forall_cons; split; [|apply Forall_nil; exact I].
      exists ((0, 0, 0), 0%nat, euclid (3, 0, 0) (0, 0, 0)).
      split; [vm_compute; tauto|vm_compute; discriminate].
  - discriminate.
Defined.
